(** * Blooby: the encrypted container codec and the document engine

    A shallow embedding of Blooby's two cores and of the helpers they use:

    - [features/encryption]: key derivation, generation and validation of
      keys, AES-256-GCM chunk encryption, the binary wire format and the
      [encryptAuto]/[decryptAuto] pair;
    - [DatabaseInstance] of [index.ts]: the collections of a database,
      predicate matching, [find], [findOne], [findById] and [count],
      [insert], [update], [delete] and the collection bookkeeping;
    - [utils.ts]: paths into nested values, [pick] and [omit], [chunk] and
      the identifiers of [generateShortId].

    The class [Blooby] itself (files and paths of databases, the JSON text
    of a whole database) is outside the embedding.

    Conventions of the embedding.

    - A thrown exception is the [Err] branch of [res].  A method that
      throws does so before it mutates anything, so [Err] carries no state.
    - Node's [crypto], [JSON] and base64 are not code of this repository:
      they are the operations of the class [NodeRuntime], and what the
      proofs need from them is stated in [NodeRuntimeLaws].  As Node's
      [cipher.update] does, the cipher refuses a plaintext of 2^31 - 1
      bytes or more, so encryption is fallible.
    - Randomness is explicit: [crypto.randomBytes] threads a generator
      state, and an identifier drawn by [generateShortId] is a parameter of
      the method that draws it.  [new Date()] is the parameter [now].
    - JavaScript numbers are modelled by integers ([Z], [N]); a numeral in
      another notation (fraction, exponent, hexadecimal, Infinity) is
      outside the model.  A sum of integers is the sum of the doubles
      where the numbers are safe integers ([safe]), and a statement about
      a sum says so.  Strings are sequences of bytes, one for each code
      unit.
    - The values of the document engine are JSON-like trees.  The data of a
      document ([T] of [Document<T>]) and an update payload are plain
      objects.  Objects compare by reference in JavaScript: two object
      values that a predicate compares are never the same reference.
    - A document holds the data object it was inserted with, not a copy:
      [data_ref] is the address of that object, documents with the same
      [data_ref] hold one object, and what [update] or [updateById] writes
      into it shows in each of them ([share]).
    - [updateById], [deleteById] and the methods on the collections of a
      database read [o[k]] with the members of [Object.prototype] in sight
      ([lookup]).  The property lists themselves hold own properties:
      [member], [pick], [assign], [setNestedValue], [insert] and [findById]
      are the code on names that [Object.prototype] does not define, and a
      statement that depends on it says so ([own_path], [plain_names], no
      key [__proto__]).
    - [this.save()] rewrites the file through [encryptAuto] and does not
      change the collection in memory; the methods below return the
      collection they leave in memory and their result object.
    - A loop that need not end is run for a given number of iterations;
      [None] says that it is still running after them. *)

From Stdlib Require Import String Ascii DecimalString Decimal.
From Stdlib.Strings Require Import Byte.
From Stdlib Require Import List ZArith NArith Lia Bool Permutation Sorted.
Import ListNotations.

Set Implicit Arguments.

(* ================================================================== *)
(** * Exceptions *)

Inductive error : Type :=
| RangeError                       (* Buffer read or write out of range *)
| TypeError                        (* member access on undefined, and the like *)
| SyntaxError                      (* JSON.parse, new RegExp *)
| CryptoError                      (* thrown by createDecipheriv / setAuthTag *)
| DecryptionFailed (chunk : option N)
    (* new Error('Decryption failed ...: Invalid key or corrupted data') *)
| BloobyError (code : string).     (* Utils.createError(code, message) *)

Inductive res (A : Type) : Type :=
| Ok (a : A)
| Err (e : error).

Arguments Ok {A} a.
Arguments Err {A} e.

Definition bind {A B : Type} (m : res A) (k : A -> res B) : res B :=
  match m with
  | Ok a => k a
  | Err e => Err e
  end.

Declare Scope res_scope.
Delimit Scope res_scope with res.
Notation "x <- m ;; k" := (bind m (fun x => k))
  (at level 61, m at next level, right associativity) : res_scope.
Open Scope res_scope.

Definition is_ok {A : Type} (m : res A) : bool :=
  match m with Ok _ => true | Err _ => false end.

(* ================================================================== *)
(** * Buffers *)

Definition bytes : Type := list byte.

Definition blen (b : bytes) : N := N.of_nat (length b).

Definition byte_of_N (n : N) : byte :=
  match Byte.of_N (n mod 256) with
  | Some b => b
  | None => x00
  end.

(** [buf.slice(start, end)]: clamps to the buffer, never throws. *)
Definition slice (b : bytes) (start end_ : N) : bytes :=
  firstn (N.to_nat (end_ - start)) (skipn (N.to_nat start) b).

(** Big-endian digits of [v], [width] bytes. *)
Fixpoint be_bytes (width : nat) (v : N) : bytes :=
  match width with
  | O => []
  | S w => byte_of_N (v / 256 ^ N.of_nat w) :: be_bytes w v
  end.

Definition be_value (b : bytes) : N :=
  fold_left (fun acc x => acc * 256 + Byte.to_N x)%N b 0%N.

(** [buf.writeUIntBE] on a fresh buffer of [width] bytes: ERR_OUT_OF_RANGE
    when the value does not fit. *)
Definition writeUIntBE (width : nat) (v : N) : res bytes :=
  if (v <? 256 ^ N.of_nat width)%N then Ok (be_bytes width v) else Err RangeError.

Definition writeUInt32BE : N -> res bytes := writeUIntBE 4.
Definition writeUInt16BE : N -> res bytes := writeUIntBE 2.

(** [buf.readUIntBE(offset)]: ERR_OUT_OF_RANGE when the field runs past the
    end of the buffer. *)
Definition readUIntBE (width : nat) (b : bytes) (offset : N) : res N :=
  if (offset + N.of_nat width <=? blen b)%N
  then Ok (be_value (slice b offset (offset + N.of_nat width)))
  else Err RangeError.

Definition readUInt32BE : bytes -> N -> res N := readUIntBE 4.
Definition readUInt16BE : bytes -> N -> res N := readUIntBE 2.

(** Decimal rendering of a number, as a template literal prints it. *)
Definition dec (n : N) : string := NilEmpty.string_of_uint (N.to_uint n).

(* ================================================================== *)
(** * features/encryption *)

Module Encryption.

Inductive Algorithm : Type := aes_256_gcm | aes_256_cbc.

Record EncryptionMetadata : Type := {
  salt : bytes;
  algorithm : Algorithm;
  chunkCount : option Z;
  chunkSize : option Z
}.

Record EncryptedChunk : Type := {
  index : N;
  iv : bytes;
  data : bytes;
  authTag : option bytes
}.

Record EncryptedData : Type := {
  metadata : EncryptionMetadata;
  chunks : list EncryptedChunk
}.

Definition ALGORITHM : Algorithm := aes_256_gcm.
Definition KEY_LENGTH : nat := 32.
Definition IV_LENGTH : nat := 16.
Definition SALT_LENGTH : nat := 32.
Definition AUTH_TAG_LENGTH : nat := 16.

(** What a GCM decipher does with one chunk.  [createDecipheriv] and
    [setAuthTag] run outside the [try] of the callers, [update]/[final]
    inside it. *)
Inductive decipher_outcome : Type :=
| Opened (plaintext : bytes)     (* final() returned: the tag verified *)
| Unauthenticated                (* update()/final() threw *)
| Rejected.                      (* createDecipheriv()/setAuthTag() threw *)

(** The services of Node that the module calls. *)
Class NodeRuntime : Type := {
  rng : Type;
  (* crypto.randomBytes(n) *)
  randomBytes : nat -> rng -> bytes * rng;
  (* crypto.createHash('sha256').update(b).digest() *)
  sha256 : bytes -> bytes;
  (* crypto.pbkdf2Sync(password, salt, iterations, keylen, 'sha256') *)
  pbkdf2Sync : bytes -> bytes -> N -> nat -> bytes;
  (* createCipheriv(ALGORITHM, key, iv); update; final; getAuthTag:
     ciphertext and tag.  update throws on a buffer that is too long. *)
  gcm_encrypt : bytes -> bytes -> bytes -> res (bytes * bytes);
  (* createDecipheriv(ALGORITHM, key, iv); setAuthTag if a tag is given;
     update; final *)
  gcm_decrypt : bytes -> bytes -> option bytes -> bytes -> decipher_outcome;
  (* Buffer.from(JSON.stringify({salt: base64, algorithm, chunkCount,
     chunkSize}), 'utf-8') *)
  metadata_stringify : EncryptionMetadata -> bytes;
  (* JSON.parse of the utf-8 text, then the four fields, the salt from
     base64 *)
  metadata_parse : bytes -> res EncryptionMetadata
}.

(** Metadata as [encryptData] and [encryptDataChunked] produce it: a salt
    of [SALT_LENGTH] bytes, counts that are safe integers. *)
Definition metadata_wf (m : EncryptionMetadata) : Prop :=
  length (salt m) = SALT_LENGTH
  /\ (forall n, chunkCount m = Some n -> (0 <= n < 2 ^ 53)%Z)
  /\ (forall n, chunkSize m = Some n -> (0 <= n < 2 ^ 53)%Z).

(** What the proofs assume of Node: lengths of random strings, keys,
    ciphertexts and tags; that [cipher.update] takes a buffer shorter than
    2^31 - 1 bytes and throws on a longer one (the length and the block
    size are added up in a C [int]); that the decipher inverts the cipher
    under the same key and IV; that the metadata survives JSON and
    base64. *)
Class NodeRuntimeLaws (node : NodeRuntime) : Prop := {
  randomBytes_length :
    forall n g, length (fst (randomBytes n g)) = n;
  pbkdf2Sync_length :
    forall password salt iterations keylen,
      length (pbkdf2Sync password salt iterations keylen) = keylen;
  gcm_encrypt_accepts :
    forall key iv plaintext,
      length key = KEY_LENGTH ->
      length iv = IV_LENGTH ->
      (blen plaintext < 2 ^ 31 - 1)%N ->
      exists sealed, gcm_encrypt key iv plaintext = Ok sealed;
  gcm_encrypt_refuses :
    forall key iv plaintext,
      (2 ^ 31 - 1 <= blen plaintext)%N ->
      exists err, gcm_encrypt key iv plaintext = Err err;
  gcm_ciphertext_length :
    forall key iv plaintext ciphertext tag,
      length key = KEY_LENGTH ->
      length iv = IV_LENGTH ->
      gcm_encrypt key iv plaintext = Ok (ciphertext, tag) ->
      length ciphertext = length plaintext;
  gcm_tag_length :
    forall key iv plaintext ciphertext tag,
      length key = KEY_LENGTH ->
      length iv = IV_LENGTH ->
      gcm_encrypt key iv plaintext = Ok (ciphertext, tag) ->
      length tag = AUTH_TAG_LENGTH;
  gcm_decrypt_encrypt :
    forall key iv plaintext ciphertext tag,
      length key = KEY_LENGTH ->
      length iv = IV_LENGTH ->
      gcm_encrypt key iv plaintext = Ok (ciphertext, tag) ->
      gcm_decrypt key iv (Some tag) ciphertext = Opened plaintext;
  metadata_parse_stringify :
    forall m, metadata_wf m -> metadata_parse (metadata_stringify m) = Ok m;
  metadata_stringify_length :
    forall m, metadata_wf m -> (blen (metadata_stringify m) < 2 ^ 32)%N
}.

(** ** Key material as text *)

Definition digit_of (alphabet : string) (n : N) : ascii :=
  nth (N.to_nat n) (list_ascii_of_string alphabet) "000"%char.

(** [buf.toString('hex')] *)
Fixpoint hex (b : bytes) : string :=
  match b with
  | [] => EmptyString
  | x :: rest =>
      String (digit_of "0123456789abcdef" (Byte.to_N x / 16))
        (String (digit_of "0123456789abcdef" (Byte.to_N x mod 16)) (hex rest))
  end.

Definition base64_digit : N -> ascii :=
  digit_of "ABCDEFGHIJKLMNOPQRSTUVWXYZabcdefghijklmnopqrstuvwxyz0123456789+/".

(** [buf.toString('base64')]: three bytes give four digits, the last group
    is padded with [=]. *)
Fixpoint base64 (b : bytes) : string :=
  match b with
  | [] => EmptyString
  | [x] =>
      let x := Byte.to_N x in
      String (base64_digit (x / 4))
        (String (base64_digit (x mod 4 * 16)) "==")
  | [x; y] =>
      let x := Byte.to_N x in
      let y := Byte.to_N y in
      String (base64_digit (x / 4))
        (String (base64_digit (x mod 4 * 16 + y / 16))
           (String (base64_digit (y mod 16 * 4)) "="))
  | x :: y :: z :: rest =>
      let x := Byte.to_N x in
      let y := Byte.to_N y in
      let z := Byte.to_N z in
      String (base64_digit (x / 4))
        (String (base64_digit (x mod 4 * 16 + y / 16))
           (String (base64_digit (y mod 16 * 4 + z / 64))
              (String (base64_digit (z mod 64)) (base64 rest))))
  end%N.

(** What [generateEncryptionKey] returns: [string | Buffer]. *)
Inductive key_material : Type :=
| KeyText (text : string)
| KeyBuffer (buffer : bytes).

(** ** validateEncryptionKey *)

Record KeyValidation : Type := {
  valid : bool;
  errors : list string
}.

(** [.] of a regular expression matches any character but a line
    terminator. *)
Definition line_terminator (c : ascii) : bool :=
  match c with
  | "010"%char | "013"%char => true
  | _ => false
  end.

(** [/^(.)\1+$/.test(key)]: one character, then the same again, once or
    more, up to the end. *)
Definition repetitive (key : string) : bool :=
  match key with
  | EmptyString => false
  | String c rest =>
      negb (line_terminator c)
      && negb (rest =? "")%string
      && forallb (Ascii.eqb c) (list_ascii_of_string rest)
  end.

(** Case folding of the [i] flag on the letters of the patterns. *)
Definition fold_case (c : ascii) : ascii :=
  let n := nat_of_ascii c in
  if ((65 <=? n) && (n <=? 90))%nat then ascii_of_nat (n + 32) else c.

Fixpoint fold_cases (s : string) : string :=
  match s with
  | EmptyString => EmptyString
  | String c rest => String (fold_case c) (fold_cases rest)
  end.

(** [/^(0123456789|abcdefgh|qwerty)/i.test(key)] *)
Definition common_pattern (key : string) : bool :=
  String.prefix "0123456789" (fold_cases key)
  || String.prefix "abcdefgh" (fold_cases key)
  || String.prefix "qwerty" (fold_cases key).

Definition push_if (condition : bool) (message : string) (errors : list string)
    : list string :=
  if condition then errors ++ [message] else errors.

Definition validateEncryptionKey (key : string) : KeyValidation :=
  let errors := [] in
  let errors :=
    push_if (String.length key <? 16)%nat
            "Key must be at least 16 characters long" errors in
  let errors :=
    push_if (String.length key <? 32)%nat
            "Key should be at least 32 characters for maximum security" errors in
  let errors :=
    push_if (repetitive key)
            ("Key should not be repetitive (e.g., "
             ++ String "034"%char ("aaaaaaa" ++ String "034"%char ")"))%string
            errors in
  let errors :=
    push_if (common_pattern key)
            "Key should not contain common patterns" errors in
  {| valid := (length errors =? 0)%nat; errors := errors |}.

Section WithRuntime.

Context {node : NodeRuntime}.

Definition normalizeMasterKey (masterKey : string) : bytes :=
  sha256 (list_byte_of_string masterKey).

Definition deriveKey (masterKey : string) (salt : bytes) (context : string) : bytes :=
  let normalizedKey := normalizeMasterKey masterKey in
  pbkdf2Sync normalizedKey (salt ++ list_byte_of_string context) 100000 KEY_LENGTH.

(** The [switch (format)] of [generateEncryptionKey]; an unknown format is
    read as ['hex']. *)
Definition generateEncryptionKey (format : string) (g : rng) : key_material * rng :=
  let (key, g') := randomBytes KEY_LENGTH g in
  (if (format =? "hex")%string then KeyText (hex key)
   else if (format =? "base64")%string then KeyText (base64 key)
   else if (format =? "buffer")%string then KeyBuffer key
   else KeyText (hex key), g').

(** The body of the [for] loop of [encryptDataChunked], from chunk [i] on,
    [n] chunks to go.  The loop ends at the first chunk the cipher
    refuses. *)
Fixpoint encrypt_chunks (n : nat) (i : N) (data : bytes) (masterKey : string)
    (salt : bytes) (chunkSize : N) (g : rng) : res (list EncryptedChunk) * rng :=
  match n with
  | O => (Ok [], g)
  | S n' =>
      let start := (i * chunkSize)%N in
      let end_ := N.min (start + chunkSize) (blen data) in
      let chunkData := slice data start end_ in
      let derivedKey := deriveKey masterKey salt ("chunk_" ++ dec i)%string in
      let (iv, g1) := randomBytes IV_LENGTH g in
      match gcm_encrypt derivedKey iv chunkData with
      | Ok (encrypted, authTag) =>
          let (rest, g2) :=
            encrypt_chunks n' (i + 1) data masterKey salt chunkSize g1 in
          (rest <- rest ;;
           Ok ({| index := i; iv := iv; data := encrypted;
                  authTag := Some authTag |} :: rest), g2)
      | Err e => (Err e, g1)
      end
  end.

(** [Math.ceil(data.length / chunkSize)] for a positive chunk size. *)
Definition totalChunks (data : bytes) (chunkSize : positive) : N :=
  ((blen data + N.pos chunkSize - 1) / N.pos chunkSize)%N.

Definition encryptDataChunked (data : bytes) (masterKey : string)
    (chunkSize : positive) (g : rng) : res EncryptedData * rng :=
  let (salt, g1) := randomBytes SALT_LENGTH g in
  let total := totalChunks data chunkSize in
  let (chunks, g2) :=
    encrypt_chunks (N.to_nat total) 0 data masterKey salt (N.pos chunkSize) g1 in
  (chunks <- chunks ;;
   Ok {| metadata := {| salt := salt; algorithm := ALGORITHM;
                        chunkCount := Some (Z.of_N total);
                        chunkSize := Some (Z.pos chunkSize) |};
         chunks := chunks |}, g2).

(** [chunks.sort((a, b) => a.index - b.index)]: a stable sort. *)
Fixpoint insert_by_index (c : EncryptedChunk) (l : list EncryptedChunk)
    : list EncryptedChunk :=
  match l with
  | [] => [c]
  | h :: t => if (index c <=? index h)%N then c :: h :: t
              else h :: insert_by_index c t
  end.

Definition sort_by_index (l : list EncryptedChunk) : list EncryptedChunk :=
  fold_right insert_by_index [] l.

(** The [for (const chunk of chunks)] loop of [decryptDataChunked]. *)
Fixpoint decrypt_chunks (chunks : list EncryptedChunk) (salt : bytes)
    (masterKey : string) : res (list bytes) :=
  match chunks with
  | [] => Ok []
  | chunk :: rest =>
      let derivedKey := deriveKey masterKey salt ("chunk_" ++ dec (index chunk))%string in
      match gcm_decrypt derivedKey (iv chunk) (authTag chunk) (data chunk) with
      | Opened decrypted =>
          decryptedChunks <- decrypt_chunks rest salt masterKey ;;
          Ok (decrypted :: decryptedChunks)
      | Unauthenticated => Err (DecryptionFailed (Some (index chunk)))
      | Rejected => Err CryptoError
      end
  end.

Definition decryptDataChunked (encryptedData : EncryptedData) (masterKey : string)
    : res bytes :=
  let chunks := sort_by_index (chunks encryptedData) in
  decryptedChunks <-
    decrypt_chunks chunks (salt (metadata encryptedData)) masterKey ;;
  Ok (concat decryptedChunks).

Definition encryptData (data : bytes) (masterKey : string) (g : rng)
    : res EncryptedData * rng :=
  let (salt, g1) := randomBytes SALT_LENGTH g in
  let derivedKey := deriveKey masterKey salt "" in
  let (iv, g2) := randomBytes IV_LENGTH g1 in
  (sealed <- gcm_encrypt derivedKey iv data ;;
   Ok {| metadata := {| salt := salt; algorithm := ALGORITHM;
                        chunkCount := None; chunkSize := None |};
         chunks := [ {| index := 0; iv := iv; data := fst sealed;
                        authTag := Some (snd sealed) |} ] |}, g2).

Definition decryptData (encryptedData : EncryptedData) (masterKey : string)
    : res bytes :=
  match chunks encryptedData with
  | [] => Err TypeError                       (* chunks[0] is undefined *)
  | chunk :: _ =>
      let derivedKey := deriveKey masterKey (salt (metadata encryptedData)) "" in
      match gcm_decrypt derivedKey (iv chunk) (authTag chunk) (data chunk) with
      | Opened decrypted => Ok decrypted
      | Unauthenticated => Err (DecryptionFailed None)
      | Rejected => Err CryptoError
      end
  end.

(** One chunk record:
    [index(4)][iv_length(2)][iv][authTag_length(2)][authTag][data_length(4)][data] *)
Definition serialize_chunk (chunk : EncryptedChunk) : res bytes :=
  indexBuf <- writeUInt32BE (index chunk) ;;
  ivLengthBuf <- writeUInt16BE (blen (iv chunk)) ;;
  authTagPart <-
    match authTag chunk with
    | Some tag =>
        authTagLengthBuf <- writeUInt16BE (blen tag) ;;
        Ok (authTagLengthBuf ++ tag)
    | None => writeUInt16BE 0
    end ;;
  dataLengthBuf <- writeUInt32BE (blen (data chunk)) ;;
  Ok (indexBuf ++ ivLengthBuf ++ iv chunk ++ authTagPart
        ++ dataLengthBuf ++ data chunk).

Fixpoint serialize_chunks (chunks : list EncryptedChunk) : res bytes :=
  match chunks with
  | [] => Ok []
  | chunk :: rest =>
      part <- serialize_chunk chunk ;;
      parts <- serialize_chunks rest ;;
      Ok (part ++ parts)
  end.

Definition serializeEncryptedData (encryptedData : EncryptedData) : res bytes :=
  let metadataBuffer := metadata_stringify (metadata encryptedData) in
  metadataLength <- writeUInt32BE (blen metadataBuffer) ;;
  parts <- serialize_chunks (chunks encryptedData) ;;
  Ok (metadataLength ++ metadataBuffer ++ parts).

(** The [for (let i = 0; i < chunkCount; i++)] loop of
    [deserializeEncryptedData], [n] records to go. *)
Fixpoint read_chunks (n : nat) (buffer : bytes) (offset : N)
    : res (list EncryptedChunk) :=
  match n with
  | O => Ok []
  | S n' =>
      index <- readUInt32BE buffer offset ;;
      let offset := (offset + 4)%N in
      ivLength <- readUInt16BE buffer offset ;;
      let offset := (offset + 2)%N in
      let iv := slice buffer offset (offset + ivLength) in
      let offset := (offset + ivLength)%N in
      authTagLength <- readUInt16BE buffer offset ;;
      let offset := (offset + 2)%N in
      let authTag :=
        if (0 <? authTagLength)%N
        then Some (slice buffer offset (offset + authTagLength)) else None in
      let offset :=
        if (0 <? authTagLength)%N then (offset + authTagLength)%N else offset in
      dataLength <- readUInt32BE buffer offset ;;
      let offset := (offset + 4)%N in
      let data := slice buffer offset (offset + dataLength) in
      let offset := (offset + dataLength)%N in
      rest <- read_chunks n' buffer offset ;;
      Ok ({| index := index; iv := iv; data := data; authTag := authTag |} :: rest)
  end.

(** [metadata.chunkCount || 1] *)
Definition chunkCount_or_1 (m : EncryptionMetadata) : Z :=
  match chunkCount m with
  | Some n => if (n =? 0)%Z then 1%Z else n
  | None => 1%Z
  end.

Definition deserializeEncryptedData (buffer : bytes) : res EncryptedData :=
  metadataLength <- readUInt32BE buffer 0 ;;
  let offset := 4%N in
  let metadataJson := slice buffer offset (offset + metadataLength) in
  let offset := (offset + metadataLength)%N in
  metadata <- metadata_parse metadataJson ;;
  let chunkCount := chunkCount_or_1 metadata in
  chunks <- read_chunks (Z.to_nat chunkCount) buffer offset ;;
  Ok {| metadata := metadata; chunks := chunks |}.

Definition encryptAuto (data : bytes) (masterKey : string) (chunkSize : positive)
    (g : rng) : res bytes * rng :=
  if (blen data <=? N.pos chunkSize)%N
  then let (encrypted, g') := encryptData data masterKey g in
       (e <- encrypted ;; serializeEncryptedData e, g')
  else let (encrypted, g') := encryptDataChunked data masterKey chunkSize g in
       (e <- encrypted ;; serializeEncryptedData e, g').

(** [metadata.chunkCount && metadata.chunkCount > 1] *)
Definition is_chunked (m : EncryptionMetadata) : bool :=
  match chunkCount m with
  | Some n => (1 <? n)%Z
  | None => false
  end.

Definition decryptAuto (encryptedBuffer : bytes) (masterKey : string) : res bytes :=
  encryptedData <- deserializeEncryptedData encryptedBuffer ;;
  if is_chunked (metadata encryptedData)
  then decryptDataChunked encryptedData masterKey
  else decryptData encryptedData masterKey.

(** ** Vocabulary of the statements *)

(** The context string of the key a record is decrypted under: its own
    index on the chunked path, none on the simple path. *)
Definition chunk_context (chunked : bool) (chunk : EncryptedChunk) : string :=
  if chunked then ("chunk_" ++ dec (index chunk))%string else EmptyString.

(** What the decipher answers for one record of a container. *)
Definition outcome (chunked : bool) (m : EncryptionMetadata) (masterKey : string)
    (chunk : EncryptedChunk) : decipher_outcome :=
  gcm_decrypt (deriveKey masterKey (salt m) (chunk_context chunked chunk))
              (iv chunk) (authTag chunk) (data chunk).


(** The container [encryptAuto] serializes. *)
Definition container_of (data : bytes) (masterKey : string) (chunkSize : positive)
    (g : rng) : res EncryptedData :=
  if (blen data <=? N.pos chunkSize)%N
  then fst (encryptData data masterKey g)
  else fst (encryptDataChunked data masterKey chunkSize g).

(** Bytes [i*chunkSize, min((i+1)*chunkSize, len)) of the plaintext. *)
Definition chunk_plain (data : bytes) (chunkSize : N) (i : N) : bytes :=
  slice data (i * chunkSize) (N.min (i * chunkSize + chunkSize) (blen data)).

End WithRuntime.

(** [deserializeEncryptedData] reads an absent tag for a tag of length 0:
    a record keeps its tag when the tag is absent or not empty. *)
Definition tag_readable (c : EncryptedChunk) : Prop := authTag c <> Some [].

(** The lengths and the index of a record fit their fields. *)
Definition fits_record (c : EncryptedChunk) : Prop :=
  (index c < 2 ^ 32)%N /\ (blen (iv c) < 2 ^ 16)%N /\ (blen (data c) < 2 ^ 32)%N
  /\ (forall tag, authTag c = Some tag -> (blen tag < 2 ^ 16)%N).

(** Records in strictly increasing order of index. *)
Definition index_lt (a b : EncryptedChunk) : Prop := (index a < index b)%N.

(** What [encryptData] and [encryptDataChunked] put into a record of a
    container for the plaintext [d]. *)
Definition fresh_record (d : bytes) (c : EncryptedChunk) : Prop :=
  length (iv c) = IV_LENGTH
  /\ (exists tag, authTag c = Some tag /\ length tag = AUTH_TAG_LENGTH)
  /\ (length (data c) <= length d)%nat.

(** The bytes of the ciphertexts of a list of records. *)
Definition payload_size (cs : list EncryptedChunk) : N :=
  fold_right (fun c acc => (blen (data c) + acc)%N) 0%N cs.

(** [i; i+1; ...], [n] indices. *)
Fixpoint Nseq (n : nat) (i : N) : list N :=
  match n with
  | O => []
  | S n' => i :: Nseq n' (i + 1)
  end.

End Encryption.

(* ================================================================== *)
(** * JavaScript values *)

Module Js.

Open Scope string_scope.

#[local] Set Warnings "-register-all".

(** JSON-like values.  Numbers are integers; [VNaN] is the one
    non-number that arithmetic on them can produce. *)
Inductive value : Type :=
| VUndef
| VNull
| VBool (b : bool)
| VNum (n : Z)
| VNaN
| VStr (s : string)
| VArr (items : list value)
| VObj (fields : list (string * value)).

(** ** Objects as ordered property lists *)

(** The property names [Object.prototype] defines.  A plain object that
    has no own property of such a name finds the inherited member under
    it: a function, or the prototype itself under [__proto__]. *)
Definition inherited (k : string) : bool :=
  existsb (String.eqb k)
          ["constructor"; "toString"; "toLocaleString"; "valueOf";
           "hasOwnProperty"; "isPrototypeOf"; "propertyIsEnumerable";
           "__proto__"; "__defineGetter__"; "__defineSetter__";
           "__lookupGetter__"; "__lookupSetter__"].

(** What [o[k]] finds on a plain object. *)
Inductive found (A : Type) : Type :=
| Own (a : A)        (* an own property *)
| Inherited          (* a member of Object.prototype: truthy, no field of ours *)
| Missing.           (* undefined *)

Arguments Own {A} a.
Arguments Inherited {A}.
Arguments Missing {A}.

Section Props.

Variable A : Type.

(** Own properties in the order [Object.keys] lists them: array indices in
    ascending order first, then the other keys by insertion. *)
Definition props : Type := list (string * A).

Fixpoint get (o : props) (k : string) : option A :=
  match o with
  | [] => None
  | (k', v) :: rest => if k' =? k then Some v else get rest k
  end.

Definition has (o : props) (k : string) : bool :=
  match get o k with Some _ => true | None => false end.

Definition lookup (o : props) (k : string) : found A :=
  match get o k with
  | Some a => Own a
  | None => if inherited k then Inherited else Missing
  end.

(** The array index a key stands for: a canonical decimal numeral below
    2^32 - 1. *)
Definition array_index (k : string) : option N :=
  match NilEmpty.uint_of_string k with
  | Some u =>
      let n := N.of_uint u in
      if (dec n =? k) && (n <? 4294967295)%N then Some n else None
  | None => None
  end.

Fixpoint replace_prop (o : props) (k : string) (v : A) : props :=
  match o with
  | [] => []
  | (k', v') :: rest =>
      if k' =? k then (k', v) :: rest else (k', v') :: replace_prop rest k v
  end.

(** Where a new array-index key lands. *)
Fixpoint place_index (n : N) (k : string) (v : A) (o : props) : props :=
  match o with
  | [] => [(k, v)]
  | (k', v') :: rest =>
      match array_index k' with
      | Some m => if (m <? n)%N then (k', v') :: place_index n k v rest
                  else (k, v) :: o
      | None => (k, v) :: o
      end
  end.

(** [o[k] = v] *)
Definition set (o : props) (k : string) (v : A) : props :=
  if has o k then replace_prop o k v
  else match array_index k with
       | Some n => place_index n k v o
       | None => (o ++ [(k, v)])%list
       end.

(** [delete o[k]] *)
Fixpoint remove (o : props) (k : string) : props :=
  match o with
  | [] => []
  | (k', v) :: rest => if k' =? k then rest else (k', v) :: remove rest k
  end.

(** In-place change of the object stored under [k]. *)
Fixpoint modify (o : props) (k : string) (f : A -> A) : props :=
  match o with
  | [] => []
  | (k', v) :: rest =>
      if k' =? k then (k', f v) :: rest else (k', v) :: modify rest k f
  end.

Definition keys (o : props) : list string := map fst o.
Definition values (o : props) : list A := map snd o.

End Props.

Definition obj : Type := props value.

(** ** Conversions and operators *)

Definition truthy (v : value) : bool :=
  match v with
  | VUndef | VNull | VNaN => false
  | VBool b => b
  | VNum n => negb (n =? 0)%Z
  | VStr s => negb (s =? "")
  | VArr _ | VObj _ => true
  end.

(** [Utils.isObject]: not null, typeof 'object', not an array. *)
Definition isObject (v : value) : bool :=
  match v with VObj _ => true | _ => false end.

Definition isArray (v : value) : bool :=
  match v with VArr _ => true | _ => false end.

Definition num_to_string (n : Z) : string := NilZero.string_of_int (Z.to_int n).

Definition join (sep : string) (l : list string) : string := String.concat sep l.

(** [String(v)] *)
Fixpoint to_string (v : value) : string :=
  match v with
  | VUndef => "undefined"
  | VNull => "null"
  | VBool true => "true"
  | VBool false => "false"
  | VNum n => num_to_string n
  | VNaN => "NaN"
  | VStr s => s
  | VArr items =>
      join "," (map (fun x => match x with
                              | VUndef | VNull => ""
                              | _ => to_string x
                              end) items)
  | VObj _ => "[object Object]"
  end.

(** ToPrimitive: arrays and plain objects become their string. *)
Definition to_primitive (v : value) : value :=
  match v with
  | VArr _ | VObj _ => VStr (to_string v)
  | _ => v
  end.

Definition is_space (c : ascii) : bool :=
  match c with
  | " "%char | "009"%char | "010"%char | "011"%char | "012"%char | "013"%char => true
  | _ => false
  end.

Fixpoint trim_left (s : string) : string :=
  match s with
  | String c rest => if is_space c then trim_left rest else s
  | EmptyString => EmptyString
  end.

Definition string_rev (s : string) : string :=
  string_of_list_ascii (rev (list_ascii_of_string s)).

Definition trim (s : string) : string :=
  string_rev (trim_left (string_rev (trim_left s))).

(** StringToNumber on integer numerals: an optional sign and decimal
    digits, white space around them; the empty string is 0.  A text that
    is no numeral is NaN. *)
Definition string_to_number (s : string) : option Z :=
  match trim s with
  | EmptyString => Some 0%Z
  | String "-"%char digits =>
      match NilEmpty.uint_of_string digits with
      | Some u => if digits =? "" then None else Some (- Z.of_N (N.of_uint u))%Z
      | None => None
      end
  | String "+"%char digits =>
      match NilEmpty.uint_of_string digits with
      | Some u => if digits =? "" then None else Some (Z.of_N (N.of_uint u))
      | None => None
      end
  | digits =>
      match NilEmpty.uint_of_string digits with
      | Some u => Some (Z.of_N (N.of_uint u))
      | None => None
      end
  end.

(** ToNumber; [None] is NaN. *)
Definition to_number (v : value) : option Z :=
  match to_primitive v with
  | VUndef | VNaN => None
  | VNull => Some 0%Z
  | VBool b => Some (if b then 1 else 0)%Z
  | VNum n => Some n
  | VStr s => string_to_number s
  | VArr _ | VObj _ => None
  end.

(** [a + b] *)
Definition add (a b : value) : value :=
  match to_primitive a, to_primitive b with
  | VStr s, pb => VStr (s ++ to_string pb)
  | pa, VStr s => VStr (to_string pa ++ s)
  | pa, pb =>
      match to_number pa, to_number pb with
      | Some x, Some y => VNum (x + y)%Z
      | _, _ => VNaN
      end
  end.

(** [Number.isSafeInteger]: the integers a double holds exactly, with
    their neighbours.  A sum of two of them that is one of them is the sum
    of the integers. *)
Definition safe_integer (n : Z) : bool :=
  ((- (2 ^ 53 - 1) <=? n) && (n <=? 2 ^ 53 - 1))%Z.

(** Every number in the value is a safe integer. *)
Fixpoint safe (v : value) : bool :=
  match v with
  | VNum n => safe_integer n
  | VArr items => forallb safe items
  | VObj fields => forallb (fun kv => safe (snd kv)) fields
  | _ => true
  end.

(** The abstract relational comparison; [None] when a NaN is involved. *)
Definition compare (a b : value) : option comparison :=
  match to_primitive a, to_primitive b with
  | VStr s, VStr t => Some (String.compare s t)
  | pa, pb =>
      match to_number pa, to_number pb with
      | Some x, Some y => Some (Z.compare x y)
      | _, _ => None
      end
  end.

Definition lt (a b : value) : bool :=
  match compare a b with Some Lt => true | _ => false end.
Definition gt (a b : value) : bool :=
  match compare a b with Some Gt => true | _ => false end.
Definition le (a b : value) : bool :=
  match compare a b with Some Lt | Some Eq => true | _ => false end.
Definition ge (a b : value) : bool :=
  match compare a b with Some Gt | Some Eq => true | _ => false end.

(** [a === b]; arrays and objects are distinct references. *)
Definition strict_eq (a b : value) : bool :=
  match a, b with
  | VUndef, VUndef | VNull, VNull => true
  | VBool x, VBool y => Bool.eqb x y
  | VNum x, VNum y => (x =? y)%Z
  | VStr s, VStr t => s =? t
  | _, _ => false
  end.

(** SameValueZero, the equality of [Array.prototype.includes]. *)
Definition same_value_zero (a b : value) : bool :=
  match a, b with
  | VNaN, VNaN => true
  | _, _ => strict_eq a b
  end.

Definition includes (items : list value) (v : value) : bool :=
  existsb (fun x => same_value_zero x v) items.

Definition index_key (i : nat) : string := dec (N.of_nat i).

Fixpoint indexed {A : Type} (i : nat) (l : list A) : list (string * A) :=
  match l with
  | [] => []
  | x :: rest => (index_key i, x) :: indexed (S i) rest
  end.

Definition chars (s : string) : list value :=
  map (fun c => VStr (String c EmptyString)) (list_ascii_of_string s).

(** Own enumerable properties, as [Object.entries] lists them for a value
    that is neither null nor undefined. *)
Definition own_entries (v : value) : list (string * value) :=
  match v with
  | VObj fields => fields
  | VArr items => indexed 0 items
  | VStr s => indexed 0 (chars s)
  | _ => []
  end.

(** [v[key]] for a value that is neither null nor undefined. *)
Definition member (v : value) (key : string) : value :=
  match v with
  | VObj fields => match get fields key with Some x => x | None => VUndef end
  | VArr items =>
      if key =? "length" then VNum (Z.of_nat (length items))
      else match array_index key with
           | Some i => nth (N.to_nat i) items VUndef
           | None => VUndef
           end
  | VStr s =>
      if key =? "length" then VNum (Z.of_nat (String.length s))
      else match array_index key with
           | Some i => nth (N.to_nat i) (chars s) VUndef
           | None => VUndef
           end
  | _ => VUndef
  end.

(** [v[key]] finds an own property of [v], or nothing: no member of a
    prototype stands under [key].  [member] reads own properties only, so
    it is [v[key]] exactly where this holds. *)
Definition own_member (v : value) (key : string) : bool :=
  match v with
  | VObj fields => has fields key || negb (inherited key)
  | VArr _ | VStr _ =>
      (key =? "length") || match array_index key with Some _ => true | None => false end
  | _ => false
  end.

(** [Object.assign(target, source)] for a truthy source. *)
Definition assign (target : obj) (source : value) : obj :=
  fold_left (fun o kv => set o (fst kv) (snd kv)) (own_entries source) target.

(** [path.split('.')] *)
Fixpoint split_dots_aux (s : string) (current : string) : list string :=
  match s with
  | EmptyString => [string_rev current]
  | String "."%char rest => string_rev current :: split_dots_aux rest EmptyString
  | String c rest => split_dots_aux rest (String c current)
  end.

Definition split_dots (path : string) : list string := split_dots_aux path EmptyString.

(** [array.slice(start, end)] with JavaScript's negative indices. *)
Definition clamp_index (len i : Z) : nat :=
  Z.to_nat (if (i <? 0)%Z then Z.max (len + i) 0 else Z.min i len).

Definition js_slice {A : Type} (l : list A) (start end_ : Z) : list A :=
  let len := Z.of_nat (length l) in
  let s := clamp_index len start in
  let e := clamp_index len end_ in
  firstn (e - s) (skipn s l).

End Js.

(* ================================================================== *)
(** * index.ts: DatabaseInstance *)

Module Store.

Import Js.
Open Scope string_scope.

(** [new RegExp(pattern).test(subject)]; the constructor throws a
    SyntaxError on a malformed pattern. *)
Class RegExp : Type := {
  regexp_test : string -> string -> res bool
}.

Record DocumentMetadata : Type := {
  createdAt : Z;
  updatedAt : Z;
  version : Z;
  deleted : bool          (* absent reads as false *)
}.

(** [data] is a reference in JavaScript: [insert] stores the object it is
    given, and [update] writes into it.  [data_ref] says which object it
    is: two documents with the same [data_ref] hold one and the same
    object. *)
Record Document : Type := {
  _id : string;
  data : obj;
  data_ref : N;
  _meta : DocumentMetadata
}.

Record CollectionMetadata : Type := {
  collection_createdAt : Z;
  modifiedAt : Z;
  documentCount : Z
}.

Record Collection : Type := {
  name : string;
  documents : props Document;
  collection_meta : CollectionMetadata
}.

Record BloobyDatabase : Type := {
  filename : string;
  collections : props Collection
}.

Inductive Projection : Type :=
| ProjectionList (fields : list string)
| ProjectionMap (flags : list (string * value)).

Record QueryOptions : Type := {
  sort : option (list (string * Z));
  limit : option Z;
  skip : option Z;
  projection : option Projection;
  includeDeleted : option bool
}.

Record FindQuery : Type := {
  where_ : option value;
  options : option QueryOptions
}.

Record UpdateOptions : Type := {
  update_multi : option bool;
  upsert : option bool
}.

Record DeleteOptions : Type := {
  hard : option bool;
  delete_multi : option bool
}.

Record InsertResult : Type := {
  insert_success : bool;
  insert_data : list obj;
  insertedIds : list string;
  insertedCount : Z
}.

Record UpdateResult : Type := {
  update_success : bool;
  update_error : option string;
  matchedCount : Z;
  modifiedCount : Z
}.

Record DeleteResult : Type := {
  delete_success : bool;
  delete_error : option string;
  deletedCount : Z
}.

Record FindResult : Type := {
  find_success : bool;
  find_data : list obj;
  totalCount : Z;
  hasMore : bool
}.

(** [x?.flag] used as a condition *)
Definition flag (b : option bool) : bool :=
  match b with Some true => true | _ => false end.

(** ** Utils *)

Fixpoint walk_path (result : value) (keys : list string) : value :=
  match keys with
  | [] => result
  | key :: rest =>
      match result with
      | VUndef | VNull => VUndef
      | _ => walk_path (member result key) rest
      end
  end.

Definition getNestedValue (o : value) (path : string) : value :=
  walk_path o (split_dots path).

(** Every step of the path reads an own property or none. *)
Fixpoint own_path (result : value) (keys : list string) : bool :=
  match keys with
  | [] => true
  | key :: rest =>
      match result with
      | VUndef | VNull => true
      | _ => own_member result key && own_path (member result key) rest
      end
  end.

(** No name of the list is one that [Object.prototype] defines. *)
Definition plain_names (keys : list string) : bool :=
  forallb (fun key => negb (inherited key)) keys.

Definition pick (o : obj) (keys : list string) : obj :=
  fold_left (fun result key =>
               match get o key with
               | Some v => set result key v
               | None => result
               end) keys [].

(** ** Helper methods *)

Section Every.

Variable callback : value -> res bool.

Fixpoint every (items : list value) : res bool :=
  match items with
  | [] => Ok true
  | q :: rest => b <- callback q ;; if b then every rest else Ok false
  end.

Fixpoint some (items : list value) : res bool :=
  match items with
  | [] => Ok false
  | q :: rest => b <- callback q ;; if b then Ok true else some rest
  end.

End Every.

Section WithRegExp.

Context {engine : RegExp}.

(** One [case] of the operator switch: [true] when the loop goes on,
    [false] when it returns false.  An unknown operator falls through. *)
Definition check_op (op : string) (val condValue : value) : res bool :=
  if op =? "$eq" then Ok (strict_eq val condValue)
  else if op =? "$ne" then Ok (negb (strict_eq val condValue))
  else if op =? "$gt" then Ok (negb (le val condValue))
  else if op =? "$gte" then Ok (negb (lt val condValue))
  else if op =? "$lt" then Ok (negb (ge val condValue))
  else if op =? "$lte" then Ok (negb (gt val condValue))
  else if op =? "$in" then
    Ok (match condValue with VArr items => includes items val | _ => false end)
  else if op =? "$nin" then
    Ok (match condValue with VArr items => negb (includes items val) | _ => false end)
  else if op =? "$regex" then
    regexp_test (match condValue with VUndef => "" | _ => to_string condValue end)
                (to_string val)
  else if op =? "$exists" then
    Ok (if truthy condValue
        then negb (strict_eq val VUndef) else strict_eq val VUndef)
  else Ok true.

Fixpoint check_ops (val : value) (ops : list (string * value)) : res bool :=
  match ops with
  | [] => Ok true
  | (op, condValue) :: rest =>
      passed <- check_op op val condValue ;;
      if passed then check_ops val rest else Ok false
  end.

(** A field condition: operator map or simple equality. *)
Definition field_matches (data : value) (key : string) (condition : value)
    : res bool :=
  let val := getNestedValue data key in
  match condition with
  | VObj ops => check_ops val ops
  | _ => Ok (strict_eq val condition)
  end.

(** The loop of [matchesQuery] over entries none of which is a logical
    operator (the entries of a string or an array). *)
Fixpoint fields_match (data : value) (entries : list (string * value)) : res bool :=
  match entries with
  | [] => Ok true
  | (key, condition) :: rest =>
      passed <- field_matches data key condition ;;
      if passed then fields_match data rest else Ok false
  end.

Fixpoint matchesQuery (data : value) (where_ : value) {struct where_} : res bool :=
  match where_ with
  | VUndef | VNull => Err TypeError          (* Object.entries throws *)
  | VObj entries =>
      (fix loop (entries : list (string * value)) : res bool :=
         match entries with
         | [] => Ok true
         | (key, condition) :: rest =>
             if key =? "$and" then
               match condition with
               | VArr qs => every (matchesQuery data) qs
               | _ => Err TypeError
               end
             else if key =? "$or" then
               match condition with
               | VArr qs => some (matchesQuery data) qs
               | _ => Err TypeError
               end
             else if key =? "$not" then
               match condition with
               | VArr qs => b <- every (matchesQuery data) qs ;; Ok (negb b)
               | _ => Err TypeError
               end
             else
               passed <- field_matches data key condition ;;
               if passed then loop rest else Ok false
         end) entries
  | _ => fields_match data (own_entries where_)
  end.

(** The comparator of [sortDocuments]. *)
Fixpoint sort_compare (sort : list (string * Z)) (a b : Document) : Z :=
  match sort with
  | [] => 0
  | (key, order) :: rest =>
      let aVal := getNestedValue (VObj (data a)) key in
      let bVal := getNestedValue (VObj (data b)) key in
      if lt aVal bVal then (if (order =? 1)%Z then -1 else 1)
      else if gt aVal bVal then (if (order =? 1)%Z then 1 else -1)
      else sort_compare rest a b
  end%Z.

(** [Array.prototype.sort] is stable: an element goes before the first one
    it does not compare greater than. *)
Fixpoint sort_insert (cmp : Document -> Document -> Z) (x : Document)
    (l : list Document) : list Document :=
  match l with
  | [] => [x]
  | y :: rest => if (0 <? cmp x y)%Z then y :: sort_insert cmp x rest
                 else x :: y :: rest
  end.

Definition sortDocuments (documents : list Document) (sort : list (string * Z))
    : list Document :=
  fold_right (sort_insert (sort_compare sort)) [] documents.

Definition applyProjection (results : list obj) (projection : Projection)
    : list obj :=
  match projection with
  | ProjectionList fields => map (fun doc => pick doc fields) results
  | ProjectionMap flags =>
      let includeKeys := map fst (filter (fun kv => truthy (snd kv)) flags) in
      map (fun doc => pick doc includeKeys) results
  end.

(** [documents.filter(callback)] for a callback that may throw. *)
Fixpoint filter_res {A : Type} (callback : A -> res bool) (l : list A)
    : res (list A) :=
  match l with
  | [] => Ok []
  | x :: rest =>
      keep <- callback x ;;
      kept <- filter_res callback rest ;;
      Ok (if keep then x :: kept else kept)
  end.

(** [{ _id: doc._id, ...doc.data }] *)
Definition result_of (doc : Document) : obj :=
  fold_left (fun o kv => set o (fst kv) (snd kv)) (data doc) [("_id", VStr (_id doc))].

Definition find (collection : Collection) (query : option FindQuery)
    : res FindResult :=
  let documents := values (documents collection) in
  let where_ := match query with Some q => where_ q | None => None end in
  let options := match query with Some q => options q | None => None end in
  documents <-
    match where_ with
    | Some w =>
        if truthy w
        then filter_res (fun doc => matchesQuery (VObj (data doc)) w) documents
        else Ok documents
    | None => Ok documents
    end ;;
  let documents :=
    if flag (match options with Some o => includeDeleted o | None => None end)
    then documents
    else filter (fun doc => negb (deleted (_meta doc))) documents in
  let totalCount := Z.of_nat (length documents) in
  let documents :=
    match options with
    | Some {| sort := Some sort |} => sortDocuments documents sort
    | _ => documents
    end in
  let skip :=
    match options with
    | Some {| skip := Some n |} => n
    | _ => 0%Z
    end in
  let limit := match options with Some o => limit o | None => None end in
  let documents :=
    if (0 <? skip)%Z
    then js_slice documents skip (Z.of_nat (length documents)) else documents in
  let documents :=
    match limit with
    | Some n => if (n =? 0)%Z then documents else js_slice documents 0 n
    | None => documents
    end in
  let results := map result_of documents in
  let results :=
    match options with
    | Some {| projection := Some p |} => applyProjection results p
    | _ => results
    end in
  Ok {| find_success := true;
        find_data := results;
        totalCount := totalCount;
        hasMore := (skip + Z.of_nat (length documents) <? totalCount)%Z |}.

(** The modifier branch and the plain merge of [applyUpdate]. *)
Definition apply_unset (target : obj) (unset : value) : obj :=
  fold_left (fun o kv => remove o (fst kv)) (own_entries unset) target.

Definition apply_inc (target : obj) (inc : value) : obj :=
  fold_left (fun o kv =>
               let current := match get o (fst kv) with
                              | Some v => v
                              | None => VUndef
                              end in
               set o (fst kv)
                   (add (if truthy current then current else VNum 0) (snd kv)))
            (own_entries inc) target.

Definition modifier (modifiers : obj) (key : string) : value :=
  match get modifiers key with Some v => v | None => VUndef end.

Definition applyUpdate (document : Document) (data_ : obj) : Document :=
  let new_data :=
    if has data_ "$set" then
      let d := data document in
      let d := if truthy (modifier data_ "$set")
               then assign d (modifier data_ "$set") else d in
      let d := if truthy (modifier data_ "$unset")
               then apply_unset d (modifier data_ "$unset") else d in
      let d := if truthy (modifier data_ "$inc")
               then apply_inc d (modifier data_ "$inc") else d in
      d
    else assign (data document) (VObj data_) in
  {| _id := _id document; data := new_data; data_ref := data_ref document;
     _meta := _meta document |}.

Definition touch (now : Z) (document : Document) : Document :=
  {| _id := _id document; data := data document; data_ref := data_ref document;
     _meta := {| createdAt := createdAt (_meta document);
                 updatedAt := now;
                 version := (version (_meta document) + 1)%Z;
                 deleted := deleted (_meta document) |} |}.

Definition set_modifiedAt (now : Z) (m : CollectionMetadata) : CollectionMetadata :=
  {| collection_createdAt := collection_createdAt m;
     modifiedAt := now;
     documentCount := documentCount m |}.

Definition add_documentCount (delta : Z) (m : CollectionMetadata)
    : CollectionMetadata :=
  {| collection_createdAt := collection_createdAt m;
     modifiedAt := modifiedAt m;
     documentCount := (documentCount m + delta)%Z |}.

(** ** CRUD *)

(** The document that holds the object [data_], which is at [ref]. *)
Definition new_document (id : string) (ref : N) (data_ : obj) (now : Z) : Document :=
  {| _id := id; data := data_; data_ref := ref;
     _meta := {| createdAt := now; updatedAt := now; version := 1;
                 deleted := false |} |}.

(** [data] is the object at [ref], with the properties [data_]. *)
Definition insert (collection : Collection) (ref : N) (data_ : obj)
    (customId : option string) (generated : string) (now : Z)
    : res (Collection * InsertResult) :=
  let id := match customId with
            | Some s => if s =? "" then generated else s
            | None => generated
            end in
  if has (documents collection) id
  then Err (BloobyError "DUPLICATE_ID")
  else
    let document := new_document id ref data_ now in
    Ok ({| name := name collection;
           documents := set (documents collection) id document;
           collection_meta :=
             set_modifiedAt now (add_documentCount 1 (collection_meta collection)) |},
        {| insert_success := true; insert_data := [data_];
           insertedIds := [id]; insertedCount := 1 |}).



(** The filter shared by [update] and [delete]:
    [!doc._meta.deleted && this.matchesQuery(doc.data, where)].  An entry
    of the result is the key a document is stored under and the document
    object itself. *)
Definition live_matches (collection : Collection) (where_ : value)
    : res (list (string * Document)) :=
  filter_res (fun kd : string * Document =>
                if deleted (_meta (snd kd)) then Ok false
                else matchesQuery (VObj (data (snd kd))) where_)
             (documents collection).

(** The document with other properties in its data object. *)
Definition holding (document : Document) (fields : obj) : Document :=
  {| _id := _id document; data := fields; data_ref := data_ref document;
     _meta := _meta document |}.

(** What the document under [key] has written into its data object shows
    in every document that holds the same object. *)
Definition share (docs : props Document) (key : string) : props Document :=
  match get docs key with
  | Some source =>
      map (fun kd : string * Document =>
             (fst kd,
              if (data_ref (snd kd) =? data_ref source)%N
              then holding (snd kd) (data source)
              else snd kd))
          docs
  | None => docs
  end.

(** The [for (const document of documents)] loop of [update];
    [applyUpdate] writes into [document.data] in place. *)
Fixpoint update_loop (matched : list (string * Document)) (docs : props Document)
    (data_ : obj) (multi : bool) (now : Z) (modifiedCount : Z)
    : props Document * Z :=
  match matched with
  | [] => (docs, modifiedCount)
  | (key, _) :: rest =>
      let docs := modify docs key (fun document => touch now (applyUpdate document data_)) in
      let docs := share docs key in
      let modifiedCount := (modifiedCount + 1)%Z in
      if multi then update_loop rest docs data_ multi now modifiedCount
      else (docs, modifiedCount)
  end.

Definition update (collection : Collection) (where_ : value) (data_ : obj)
    (options : option UpdateOptions) (now : Z) : res (Collection * UpdateResult) :=
  matched <- live_matches collection where_ ;;
  let multi := flag (match options with Some o => update_multi o | None => None end) in
  let (docs, modifiedCount) :=
    update_loop matched (documents collection) data_ multi now 0 in
  Ok ({| name := name collection;
         documents := docs;
         collection_meta :=
           if (0 <? modifiedCount)%Z
           then set_modifiedAt now (collection_meta collection)
           else collection_meta collection |},
      {| update_success := true; update_error := None;
         matchedCount := Z.of_nat (length matched);
         modifiedCount := modifiedCount |}).

Definition updateById (collection : Collection) (id : string) (data_ : obj)
    (now : Z) : res (Collection * UpdateResult) :=
  match lookup (documents collection) id with
  | Own document =>
      if deleted (_meta document)
      then Ok (collection,
               {| update_success := false;
                  update_error := Some "Document not found";
                  matchedCount := 0; modifiedCount := 0 |})
      else
        Ok ({| name := name collection;
               documents :=
                 share (modify (documents collection) id
                          (fun document =>
                             touch now (holding document
                                          (assign (data document) (VObj data_)))))
                       id;
               collection_meta := set_modifiedAt now (collection_meta collection) |},
            {| update_success := true; update_error := None;
               matchedCount := 1; modifiedCount := 1 |})
  | Inherited => Err TypeError           (* document._meta is undefined *)
  | Missing =>
      Ok (collection,
          {| update_success := false;
             update_error := Some "Document not found";
             matchedCount := 0; modifiedCount := 0 |})
  end.

Definition mark_deleted (now : Z) (document : Document) : Document :=
  {| _id := _id document; data := data document; data_ref := data_ref document;
     _meta := {| createdAt := createdAt (_meta document);
                 updatedAt := now;
                 version := version (_meta document);
                 deleted := true |} |}.

(** The [for (const document of documents)] loop of [delete], on the
    document map and the document count. *)
Fixpoint delete_loop (matched : list (string * Document)) (docs : props Document)
    (count : Z) (hard multi : bool) (now : Z) (deletedCount : Z)
    : props Document * Z * Z :=
  match matched with
  | [] => (docs, count, deletedCount)
  | (key, document) :: rest =>
      let (docs, count) :=
        if hard then (remove docs (_id document), (count - 1)%Z)
        else (modify docs key (mark_deleted now), count) in
      let deletedCount := (deletedCount + 1)%Z in
      if multi then delete_loop rest docs count hard multi now deletedCount
      else (docs, count, deletedCount)
  end.

Definition delete (collection : Collection) (where_ : value)
    (options : option DeleteOptions) (now : Z) : res (Collection * DeleteResult) :=
  matched <- live_matches collection where_ ;;
  let hard := flag (match options with Some o => hard o | None => None end) in
  let multi := flag (match options with Some o => delete_multi o | None => None end) in
  let '(docs, count, deletedCount) :=
    delete_loop matched (documents collection)
                (documentCount (collection_meta collection)) hard multi now 0 in
  let m := {| collection_createdAt := collection_createdAt (collection_meta collection);
              modifiedAt := modifiedAt (collection_meta collection);
              documentCount := count |} in
  Ok ({| name := name collection;
         documents := docs;
         collection_meta := if (0 <? deletedCount)%Z then set_modifiedAt now m else m |},
      {| delete_success := true; delete_error := None;
         deletedCount := deletedCount |}).

Definition deleteById (collection : Collection) (id : string) (hard : bool)
    (now : Z) : res (Collection * DeleteResult) :=
  match lookup (documents collection) id with
  | Own document =>
      if deleted (_meta document)
      then Ok (collection,
               {| delete_success := false;
                  delete_error := Some "Document not found";
                  deletedCount := 0 |})
      else
        let c :=
          if hard
          then {| name := name collection;
                  documents := remove (documents collection) id;
                  collection_meta := add_documentCount (-1) (collection_meta collection) |}
          else {| name := name collection;
                  documents := modify (documents collection) id (mark_deleted now);
                  collection_meta := collection_meta collection |} in
        Ok ({| name := name c; documents := documents c;
               collection_meta := set_modifiedAt now (collection_meta c) |},
            {| delete_success := true; delete_error := None; deletedCount := 1 |})
  | Inherited => Err TypeError           (* document._meta is undefined *)
  | Missing =>
      Ok (collection,
          {| delete_success := false;
             delete_error := Some "Document not found";
             deletedCount := 0 |})
  end.

(** ** Reading methods *)

(** [{ ...query, options: { ...query?.options, limit: 1 } }] *)
Definition with_limit_1 (query : option FindQuery) : FindQuery :=
  {| where_ := match query with Some q => where_ q | None => None end;
     options :=
       Some match (match query with Some q => options q | None => None end) with
            | Some o => {| sort := sort o; limit := Some 1%Z; skip := skip o;
                           projection := projection o;
                           includeDeleted := includeDeleted o |}
            | None => {| sort := None; limit := Some 1%Z; skip := None;
                         projection := None; includeDeleted := None |}
            end |}.

Definition findOne (collection : Collection) (query : option FindQuery)
    : res (option obj) :=
  result <- find collection (Some (with_limit_1 query)) ;;
  Ok (match find_data result with
      | first :: _ => Some first
      | [] => None
      end).

Definition findById (collection : Collection) (id : string) : option obj :=
  match get (documents collection) id with
  | Some document =>
      if deleted (_meta document) then None else Some (result_of document)
  | None => None
  end.

Definition count (collection : Collection) (where_ : option value) : res Z :=
  let documents := values (documents collection) in
  let documents := filter (fun doc => negb (deleted (_meta doc))) documents in
  documents <-
    match where_ with
    | Some w =>
        if truthy w
        then filter_res (fun doc => matchesQuery (VObj (data doc)) w) documents
        else Ok documents
    | None => Ok documents
    end ;;
  Ok (Z.of_nat (length documents)).

(** ** Vocabulary of the statements *)

Definition query_where (query : option FindQuery) : option value :=
  match query with Some q => where_ q | None => None end.

Definition query_options (query : option FindQuery) : option QueryOptions :=
  match query with Some q => options q | None => None end.

(** [query?.options?.skip || 0] *)
Definition query_skip (query : option FindQuery) : Z :=
  match query_options query with
  | Some {| skip := Some n |} => n
  | _ => 0%Z
  end.

Definition query_includeDeleted (query : option FindQuery) : bool :=
  flag (match query_options query with
        | Some o => includeDeleted o
        | None => None
        end).

Definition query_projection (query : option FindQuery) (results : list obj)
    : list obj :=
  match query_options query with
  | Some {| projection := Some p |} => applyProjection results p
  | _ => results
  end.

(** The predicate of a query on one document; no predicate, or a falsy
    one, selects every document. *)
Definition selects (where_ : option value) (doc : Document) : res bool :=
  match where_ with
  | Some w => if truthy w then matchesQuery (VObj (data doc)) w else Ok true
  | None => Ok true
  end.

Definition passes (where_ : option value) (doc : Document) : bool :=
  match selects where_ doc with Ok true => true | _ => false end.

(** Not soft-deleted, or the query asks for deleted documents too. *)
Definition visible (query : option FindQuery) (doc : Document) : bool :=
  query_includeDeleted query || negb (deleted (_meta doc)).

(** The documents [find] returns, before they are turned into results:
    the visible matches, sorted, then cut by skip and limit. *)
Definition page_of (query : option FindQuery) (kept : list Document)
    : list Document :=
  let sorted :=
    match query_options query with
    | Some {| sort := Some s |} => sortDocuments kept s
    | _ => kept
    end in
  let skipped :=
    if (0 <? query_skip query)%Z
    then js_slice sorted (query_skip query) (Z.of_nat (length sorted))
    else sorted in
  match query_options query with
  | Some {| limit := Some n |} =>
      if (n =? 0)%Z then skipped else js_slice skipped 0 n
  | _ => skipped
  end.

(** The keys [matchesQuery] reads as logical operators. *)
Definition logical_key (key : string) : bool :=
  (key =? "$and") || (key =? "$or") || (key =? "$not").

(** A field condition holds of the data (and does not throw). *)
Definition field_passes (data_ : value) (kv : string * value) : bool :=
  match field_matches data_ (fst kv) (snd kv) with
  | Ok true => true
  | _ => false
  end.

(** The fields a projection asks for: the names of the list, or the names
    the map gives a truthy flag. *)
Definition projected (p : Projection) : list string :=
  match p with
  | ProjectionList fields => fields
  | ProjectionMap flags => map fst (filter (fun kv => truthy (snd kv)) flags)
  end.

(** The options of a query that share a predicate, an order and a
    projection and differ in the page they ask for. *)
Definition page_query (where_ : option value) (sort_ : option (list (string * Z)))
    (projection_ : option Projection) (includeDeleted_ : option bool)
    (skip_ limit_ : option Z) : option FindQuery :=
  Some {| where_ := where_;
          options := Some {| sort := sort_; limit := limit_; skip := skip_;
                             projection := projection_;
                             includeDeleted := includeDeleted_ |} |}.

(** The order of two documents by one numeric sort key: ascending for the
    order 1, descending otherwise. *)
Definition in_order (order : Z) (f : Document -> Z) (a b : Document) : Prop :=
  if (order =? 1)%Z then (f a <= f b)%Z else (f b <= f a)%Z.

(** [(current || 0)], the start value of [$inc]. *)
Definition or_zero (current : option value) : value :=
  match current with
  | Some v => if truthy v then v else VNum 0
  | None => VNum 0
  end.

(** The field [k] of a document after the [$set] and the [$unset] of a
    payload: the value [$set] gives it or else its own, and none when
    [$unset] names it. *)
Definition kept_field (doc : Document) (payload : obj) (k : string)
    : option value :=
  let assigned :=
    match get (own_entries (modifier payload "$set")) k with
    | Some v => Some v
    | None => get (data doc) k
    end in
  if has (own_entries (modifier payload "$unset")) k then None else assigned.

(** The filter of [update] and [delete] on one entry of the map. *)
Definition live_match (where_ : value) (kd : string * Document) : bool :=
  negb (deleted (_meta (snd kd)))
  && match matchesQuery (VObj (data (snd kd))) where_ with
     | Ok true => true
     | _ => false
     end.

(** The predicate throws on no live document of the collection. *)
Definition evaluates (collection : Collection) (where_ : value) : Prop :=
  forall kd, In kd (documents collection) ->
             deleted (_meta (snd kd)) = false ->
             is_ok (matchesQuery (VObj (data (snd kd))) where_) = true.







End WithRegExp.

(** An entry of the document map holds a document under its own [_id]. *)
Definition own_id (kd : string * Document) : Prop := _id (snd kd) = fst kd.

(** The document map of a collection: keys are unique, a document is
    stored under its own [_id], and [documentCount] counts the entries. *)
Definition well_formed (collection : Collection) : Prop :=
  NoDup (keys (documents collection))
  /\ Forall own_id (documents collection)
  /\ documentCount (collection_meta collection)
     = Z.of_nat (length (documents collection)).

(** The result of [updateById] and [deleteById] for an id that is absent
    or soft-deleted. *)
Definition update_not_found : UpdateResult :=
  {| update_success := false; update_error := Some "Document not found";
     matchedCount := 0; modifiedCount := 0 |}.

Definition delete_not_found : DeleteResult :=
  {| delete_success := false; delete_error := Some "Document not found";
     deletedCount := 0 |}.

(** ** Collections of a database *)

Definition new_collection (name_ : string) (now : Z) : Collection :=
  {| name := name_; documents := [];
     collection_meta := {| collection_createdAt := now; modifiedAt := now;
                           documentCount := 0 |} |}.

(** [this.database.collections[name]]: under a name that [Object.prototype]
    defines and no collection has, [getCollection] returns the inherited
    member, which is no collection ([None]). *)
Definition getCollection (db : BloobyDatabase) (name_ : string)
    : res (option Collection) :=
  match lookup (collections db) name_ with
  | Own collection => Ok (Some collection)
  | Inherited => Ok None
  | Missing => Err (BloobyError "COLLECTION_NOT_FOUND")
  end.

Definition createCollection (db : BloobyDatabase) (name_ : string) (now : Z)
    : res (BloobyDatabase * Collection) :=
  match lookup (collections db) name_ with
  | Missing =>
      let collection := new_collection name_ now in
      Ok ({| filename := filename db;
             collections := set (collections db) name_ collection |}, collection)
  | _ => Err (BloobyError "COLLECTION_ALREADY_EXISTS")
  end.

(** [delete this.database.collections[name]] removes an own property and
    leaves an inherited member where it is. *)
Definition deleteCollection (db : BloobyDatabase) (name_ : string)
    : res BloobyDatabase :=
  match lookup (collections db) name_ with
  | Missing => Err (BloobyError "COLLECTION_NOT_FOUND")
  | _ => Ok {| filename := filename db;
               collections := remove (collections db) name_ |}
  end.

Definition listCollections (db : BloobyDatabase) : list string :=
  keys (collections db).

Definition collectionExists (db : BloobyDatabase) (name_ : string) : bool :=
  match lookup (collections db) name_ with
  | Missing => false
  | _ => true
  end.

(** A CRUD method starts with [this.getCollection(collectionName)] and
    works on that collection object, which stays in the database.  On an
    inherited member its first step, reading [collection.documents], finds
    undefined, and the next one throws. *)
Definition in_collection {R : Type} (db : BloobyDatabase) (collectionName : string)
    (method : Collection -> res (Collection * R)) : res (BloobyDatabase * R) :=
  found_ <- getCollection db collectionName ;;
  match found_ with
  | Some collection =>
      r <- method collection ;;
      Ok ({| filename := filename db;
             collections :=
               modify (collections db) collectionName (fun _ => fst r) |},
          snd r)
  | None => Err TypeError
  end.

(** ** Documents of the specification's examples *)

(** A document of the examples holds a data object of its own, at an
    address made of its identifier. *)
Definition example_document (id : string) (x : Z) (deleted_ : bool) : Document :=
  {| _id := id; data := [("x", VNum x)];
     data_ref := be_value (list_byte_of_string id);
     _meta := {| createdAt := 0; updatedAt := 0; version := 1;
                 deleted := deleted_ |} |}.

(** [{_id:"a",x:1}, {_id:"b",x:5}, {_id:"c",x:10,deleted:true}] *)
Definition example_collection : Collection :=
  {| name := "items";
     documents := [("a", example_document "a" 1 false);
                   ("b", example_document "b" 5 false);
                   ("c", example_document "c" 10 true)];
     collection_meta := {| collection_createdAt := 0; modifiedAt := 0;
                           documentCount := 3 |} |}.

(** [{where: {x: {$gte: 5}}}] *)
Definition example_query : FindQuery :=
  {| where_ := Some (VObj [("x", VObj [("$gte", VNum 5)])]); options := None |}.


(** [{$inc: {x: 3}}] *)
Definition inc_x_by_3 : obj := [("$inc", VObj [("x", VNum 3)])].

End Store.

(* ================================================================== *)
(** * utils.ts: further helpers *)

Module Utils.

Import Js.
Open Scope string_scope.

(** [{ ...obj }]: the own properties, copied in order. *)
Definition spread (o : obj) : obj :=
  fold_left (fun result kv => set result (fst kv) (snd kv)) o [].

Definition omit (o : obj) (keys : list string) : obj :=
  fold_left (fun result key => remove result key) keys (spread o).

(** The [for (const key of keys)] loop of [setNestedValue] and the final
    assignment, on the object [current]. *)
Fixpoint set_path (current : obj) (keys : list string) (lastKey : string)
    (val : value) : obj :=
  match keys with
  | [] => set current lastKey val
  | key :: rest =>
      let child :=
        match get current key with
        | Some (VObj fields) => fields
        | _ => []                         (* current[key] = {} *)
        end in
      set current key (VObj (set_path child rest lastKey val))
  end.

(** [keys.pop()] takes the last segment of the path. *)
Definition setNestedValue (o : obj) (path : string) (val : value) : obj :=
  let keys := split_dots path in
  set_path o (removelast keys) (last keys "") val.

(** The loop of [chunk], [for (let i = 0; i < arr.length; i += size)], run
    for at most [fuel] iterations from the position [i]; [None] when the
    loop has not ended by then. *)
Fixpoint chunk_loop {A : Type} (fuel : nat) (arr : list A) (size i : Z)
    : option (list (list A)) :=
  if (i <? Z.of_nat (length arr))%Z then
    match fuel with
    | O => None
    | S fuel' =>
        match chunk_loop fuel' arr size (i + size) with
        | Some chunks => Some (js_slice arr i (i + size) :: chunks)
        | None => None
        end
    end
  else Some [].

Definition chunk {A : Type} (fuel : nat) (arr : list A) (size : Z)
    : option (list (list A)) :=
  chunk_loop fuel arr size 0.

Section WithRuntime.

Context {node : Encryption.NodeRuntime}.

Definition alphabet : string :=
  "ABCDEFGHIJKLMNOPQRSTUVWXYZabcdefghijklmnopqrstuvwxyz0123456789".

(** A character of the alphabet. *)
Definition alphanumeric (c : ascii) : Prop :=
  In c (list_ascii_of_string alphabet).

(** [alphabet[bytes[i] % alphabet.length]]; past the end of [bytes] the
    index is NaN and the character [undefined]. *)
Definition id_character (bytes_ : bytes) (i : nat) : string :=
  match nth_error bytes_ i with
  | Some b =>
      String (Encryption.digit_of alphabet
                (Byte.to_N b mod N.of_nat (String.length alphabet))) ""
  | None => "undefined"
  end.

(** The [for (let i = 0; i < length; i++)] loop of [generateShortId],
    [n] iterations to go. *)
Fixpoint id_loop (n : nat) (i : nat) (bytes_ : bytes) (id : string) : string :=
  match n with
  | O => id
  | S n' => id_loop n' (S i) bytes_ (id ++ id_character bytes_ i)
  end.

Definition generateShortId (length : nat) (g : Encryption.rng) : string * Encryption.rng :=
  let (bytes_, g') := Encryption.randomBytes length g in
  (id_loop length 0 bytes_ "", g').

End WithRuntime.

End Utils.

(* ================================================================== *)
(** * A runtime to run the definitions on

    A small executable stand-in for Node's services: it satisfies
    [NodeRuntimeLaws] and lets the definitions above be evaluated on
    concrete buffers.  It makes no claim of secrecy. *)

Module Sample.

Import Encryption.

Definition pad (n : nat) (b : bytes) : bytes := firstn n (b ++ repeat x00 n).

Fixpoint bytes_eqb (a b : bytes) : bool :=
  match a, b with
  | [], [] => true
  | x :: a', y :: b' => Byte.eqb x y && bytes_eqb a' b'
  | _, _ => false
  end.

Definition checksum (b : bytes) : N :=
  fold_left (fun acc x => (acc + Byte.to_N x) mod 256)%N b 0%N.

Definition tag_of (key iv ciphertext : bytes) : bytes :=
  pad AUTH_TAG_LENGTH
      (byte_of_N (checksum (iv ++ ciphertext)) :: firstn 8 key).

Definition seal (key iv plaintext : bytes) : res (bytes * bytes) :=
  if (2 ^ 31 - 1 <=? blen plaintext)%N then Err RangeError
  else Ok (rev plaintext, tag_of key iv (rev plaintext)).

Definition open (key iv : bytes) (tag : option bytes) (ciphertext : bytes)
    : decipher_outcome :=
  if negb (length key =? KEY_LENGTH)%nat then Rejected
  else match tag with
       | Some t => if bytes_eqb t (tag_of key iv ciphertext)
                   then Opened (rev ciphertext) else Unauthenticated
       | None => Unauthenticated
       end.

Definition number_field (n : option Z) : bytes :=
  match n with
  | Some z => x01 :: be_bytes 8 (Z.to_N z)
  | None => x00 :: be_bytes 8 0
  end.

Definition read_number_field (b : bytes) : option Z :=
  match b with
  | x00 :: _ => None
  | _ :: digits => Some (Z.of_N (be_value digits))
  | [] => None
  end.

(** A fixed layout instead of JSON: salt(32) algorithm(1) chunkCount(9)
    chunkSize(9). *)
Definition stringify (m : EncryptionMetadata) : bytes :=
  salt m
  ++ [match algorithm m with aes_256_gcm => x00 | aes_256_cbc => x01 end]
  ++ number_field (chunkCount m) ++ number_field (chunkSize m).

Definition parse (b : bytes) : res EncryptionMetadata :=
  if (length b =? 51)%nat
  then Ok {| salt := firstn 32 b;
             algorithm := match nth 32 b x00 with
                          | x00 => aes_256_gcm
                          | _ => aes_256_cbc
                          end;
             chunkCount := read_number_field (firstn 9 (skipn 33 b));
             chunkSize := read_number_field (firstn 9 (skipn 42 b)) |}
  else Err SyntaxError.

#[export] Instance runtime : NodeRuntime := {
  rng := N;
  randomBytes := fun n g => (repeat (byte_of_N g) n, (g + 1)%N);
  sha256 := pad 32;
  pbkdf2Sync := fun password salt _ keylen =>
                  pad keylen (byte_of_N (checksum (password ++ salt)) :: password);
  gcm_encrypt := seal;
  gcm_decrypt := open;
  metadata_stringify := stringify;
  metadata_parse := parse
}.

Definition sample_plaintext : bytes := [x01; x02; x03; x04; x05; x06; x07].

(** Seven bytes in chunks of three: a container of three records. *)
Definition sample_container : EncryptedData :=
  match fst (encryptDataChunked sample_plaintext "correct horse" 3 0%N) with
  | Ok e => e
  | Err _ => {| metadata := {| salt := []; algorithm := ALGORITHM;
                               chunkCount := None; chunkSize := None |};
                chunks := [] |}
  end.

(** The record of index 1 with the low bit of its first ciphertext byte
    flipped. *)
Definition flip_first (b : bytes) : bytes :=
  match b with
  | [] => []
  | x :: rest => byte_of_N (N.lxor (Byte.to_N x) 1) :: rest
  end.

Definition tamper (c : EncryptedChunk) : EncryptedChunk :=
  if (index c =? 1)%N
  then {| index := index c; iv := iv c; data := flip_first (data c);
          authTag := authTag c |}
  else c.

Definition tampered_container : EncryptedData :=
  {| metadata := metadata sample_container;
     chunks := map tamper (chunks sample_container) |}.

(** A matcher for patterns without metacharacters: the pattern occurs in
    the subject. *)
Fixpoint occurs (pattern subject : string) : bool :=
  String.prefix pattern subject
  || match subject with
     | EmptyString => false
     | String _ rest => occurs pattern rest
     end.

#[export] Instance literal_regexp : Store.RegExp := {
  Store.regexp_test := fun pattern subject => Ok (occurs pattern subject)
}.

End Sample.

(* ================================================================== *)
(** * Theory *)

Unset Implicit Arguments.

(* ================================================================== *)
(** * Buffers: lemmas *)

Section BufferFacts.

Open Scope N_scope.

Lemma byte_of_N_to_N (n : N) : Byte.to_N (byte_of_N n) = n mod 256.
Proof.
  unfold byte_of_N.
  destruct (Byte.of_N (n mod 256)) as [b|] eqn:E.
  - now apply Byte.to_of_N.
  - apply Byte.of_N_None_iff in E.
    pose proof (N.mod_upper_bound n 256). lia.
Qed.

Lemma be_bytes_length (w : nat) (v : N) : length (be_bytes w v) = w.
Proof. induction w; simpl; congruence. Qed.

Lemma blen_app (a b : bytes) : blen (a ++ b) = blen a + blen b.
Proof. unfold blen. rewrite length_app. lia. Qed.

Lemma blen_be_bytes (w : nat) (v : N) : blen (be_bytes w v) = N.of_nat w.
Proof. unfold blen. now rewrite be_bytes_length. Qed.

Lemma be_value_app (a b : bytes) :
  be_value (a ++ b) = be_value a * 256 ^ blen b + be_value b.
Proof.
  unfold be_value.
  assert (G : forall (l : bytes) acc,
             fold_left (fun acc x => acc * 256 + Byte.to_N x) l acc
             = acc * 256 ^ blen l
               + fold_left (fun acc x => acc * 256 + Byte.to_N x) l 0).
  { induction l as [|x l IH]; intros acc.
    - unfold blen; simpl. lia.
    - cbn [fold_left]. rewrite IH. rewrite (IH (0 * 256 + Byte.to_N x)).
      replace (blen (x :: l)) with (N.succ (blen l)) by (unfold blen; simpl length; lia).
      rewrite N.pow_succ_r'. lia. }
  rewrite fold_left_app. rewrite G. reflexivity.
Qed.

Lemma be_value_be_bytes (w : nat) (v : N) :
  be_value (be_bytes w v) = v mod 256 ^ N.of_nat w.
Proof.
  induction w as [|w IH].
  - simpl. now rewrite N.mod_1_r.
  - change (be_bytes (S w) v) with ([byte_of_N (v / 256 ^ N.of_nat w)] ++ be_bytes w v).
    rewrite be_value_app, IH, blen_be_bytes.
    unfold be_value at 1. simpl fold_left.
    rewrite byte_of_N_to_N.
    rewrite Nat2N.inj_succ, N.pow_succ_r'.
    set (p := 256 ^ N.of_nat w).
    assert (Hp : p <> 0) by (apply N.pow_nonzero; lia).
    rewrite (N.mul_comm 256 p).
    rewrite N.Div0.mod_mul_r.
    lia.
Qed.

Lemma skipn_blen_app (pre rest : bytes) :
  skipn (N.to_nat (blen pre)) (pre ++ rest) = rest.
Proof.
  unfold blen. rewrite Nat2N.id.
  rewrite skipn_app, skipn_all, Nat.sub_diag. reflexivity.
Qed.

(** A field that follows [pre] is read back by [slice]. *)
Lemma slice_field (pre x suf : bytes) (off : N) :
  off = blen pre ->
  slice (pre ++ x ++ suf) off (off + blen x) = x.
Proof.
  intros ->. unfold slice.
  rewrite skipn_blen_app.
  replace (blen pre + blen x - blen pre) with (blen x) by lia.
  unfold blen. rewrite Nat2N.id.
  rewrite firstn_app, firstn_all, Nat.sub_diag. simpl. apply app_nil_r.
Qed.

Lemma readUIntBE_field (w : nat) (v : N) (pre suf : bytes) (off : N) :
  off = blen pre ->
  v < 256 ^ N.of_nat w ->
  readUIntBE w (pre ++ be_bytes w v ++ suf) off = Ok v.
Proof.
  intros Hoff Hv. unfold readUIntBE.
  rewrite !blen_app, blen_be_bytes.
  destruct (N.leb_spec (off + N.of_nat w) (blen pre + (N.of_nat w + blen suf))); [|lia].
  rewrite <- (blen_be_bytes w v) at 1.
  rewrite slice_field by assumption.
  rewrite be_value_be_bytes. now rewrite N.mod_small.
Qed.

Lemma writeUIntBE_ok (w : nat) (v : N) (b : bytes) :
  writeUIntBE w v = Ok b -> b = be_bytes w v /\ v < 256 ^ N.of_nat w.
Proof.
  unfold writeUIntBE. destruct (N.ltb_spec v (256 ^ N.of_nat w)); intros E; inversion E.
  auto.
Qed.

Lemma writeUIntBE_fits (w : nat) (v : N) :
  v < 256 ^ N.of_nat w -> writeUIntBE w v = Ok (be_bytes w v).
Proof.
  unfold writeUIntBE. intros H.
  destruct (N.ltb_spec v (256 ^ N.of_nat w)); [reflexivity | lia].
Qed.

Lemma writeUIntBE_overflow (w : nat) (v : N) :
  256 ^ N.of_nat w <= v -> writeUIntBE w v = Err RangeError.
Proof.
  unfold writeUIntBE. intros H.
  destruct (N.ltb_spec v (256 ^ N.of_nat w)); [lia | reflexivity].
Qed.

End BufferFacts.

(* ================================================================== *)
(** * The wire format *)

Section WireFormat.

Import Encryption.
Context {node : NodeRuntime}.
Open Scope N_scope.

Lemma bind_ok {A B : Type} (m : res A) (k : A -> res B) (b : B) :
  bind m k = Ok b -> exists a, m = Ok a /\ k a = Ok b.
Proof. destruct m; simpl; intros H; [eauto | discriminate]. Qed.

(** The fields of a chunk record and the ranges its lengths are in. *)
Lemma serialize_chunk_ok (c : EncryptedChunk) (b : bytes) :
  serialize_chunk c = Ok b ->
  index c < 2 ^ 32 /\ blen (iv c) < 2 ^ 16 /\ blen (data c) < 2 ^ 32
  /\ (forall tag, authTag c = Some tag -> blen tag < 2 ^ 16)
  /\ b = be_bytes 4 (index c) ++ be_bytes 2 (blen (iv c)) ++ iv c
         ++ (match authTag c with
             | Some tag => be_bytes 2 (blen tag) ++ tag
             | None => be_bytes 2 0
             end)
         ++ be_bytes 4 (blen (data c)) ++ data c.
Proof.
  unfold serialize_chunk, writeUInt32BE, writeUInt16BE. intros H.
  apply bind_ok in H as (b1 & E1 & H). apply writeUIntBE_ok in E1 as [-> R1].
  apply bind_ok in H as (b2 & E2 & H). apply writeUIntBE_ok in E2 as [-> R2].
  apply bind_ok in H as (b3 & E3 & H).
  apply bind_ok in H as (b4 & E4 & H). apply writeUIntBE_ok in E4 as [-> R4].
  inversion H; subst b; clear H.
  change (256 ^ N.of_nat 4) with (2 ^ 32) in *.
  change (256 ^ N.of_nat 2) with (2 ^ 16) in *.
  destruct (authTag c) as [tag|].
  - apply bind_ok in E3 as (b5 & E5 & E3). apply writeUIntBE_ok in E5 as [-> R5].
    inversion E3; subst b3.
    repeat split; auto. intros t Ht; inversion Ht; subst; assumption.
  - apply writeUIntBE_ok in E3 as [-> _].
    repeat split; auto. discriminate.
Qed.

Lemma serialize_chunk_fits (c : EncryptedChunk) :
  fits_record c -> exists b, serialize_chunk c = Ok b.
Proof.
  intros (R1 & R2 & R4 & R3).
  unfold serialize_chunk, writeUInt32BE, writeUInt16BE.
  rewrite (writeUIntBE_fits 4 (index c)) by exact R1.
  rewrite (writeUIntBE_fits 2 (blen (iv c))) by exact R2.
  rewrite (writeUIntBE_fits 4 (blen (data c))) by exact R4.
  destruct (authTag c) as [tag|].
  - rewrite (writeUIntBE_fits 2 (blen tag)) by (apply R3; reflexivity).
    simpl. eauto.
  - rewrite (writeUIntBE_fits 2 0) by (simpl; lia).
    simpl. eauto.
Qed.

Lemma read_chunks_step (c : EncryptedChunk) (b pre suf : bytes) (n : nat) (off : N) :
  serialize_chunk c = Ok b -> tag_readable c -> off = blen pre ->
  read_chunks (S n) (pre ++ b ++ suf) off
  = (rest <- read_chunks n (pre ++ b ++ suf) (off + blen b) ;; Ok (c :: rest)).
Proof.
  intros Hs Ht Hoff.
  apply serialize_chunk_ok in Hs as (R1 & R2 & R4 & R3 & ->).
  set (tagpart := match authTag c with
                  | Some tag => be_bytes 2 (blen tag) ++ tag
                  | None => be_bytes 2 0
                  end).
  set (taglen := match authTag c with Some tag => blen tag | None => 0 end).
  assert (Etag : tagpart = be_bytes 2 taglen
                           ++ match authTag c with Some tag => tag | None => [] end).
  { unfold tagpart, taglen. destruct (authTag c); [reflexivity | now rewrite app_nil_r]. }
  assert (Rtag : taglen < 2 ^ 16).
  { unfold taglen. destruct (authTag c) as [tag|]; [now apply R3 | simpl; lia]. }
  set (buffer := pre ++ (be_bytes 4 (index c) ++ be_bytes 2 (blen (iv c)) ++ iv c
                           ++ tagpart ++ be_bytes 4 (blen (data c)) ++ data c) ++ suf).
  cbn [read_chunks]. unfold readUInt32BE, readUInt16BE.
  (* index *)
  assert (E1 : readUIntBE 4 buffer off = Ok (index c)).
  { unfold buffer. rewrite <- !app_assoc.
    apply readUIntBE_field; assumption. }
  rewrite E1. cbn [bind].
  (* iv length *)
  assert (E2 : readUIntBE 2 buffer (off + 4) = Ok (blen (iv c))).
  { unfold buffer. rewrite <- !app_assoc.
    rewrite (app_assoc pre (be_bytes 4 (index c))).
    apply readUIntBE_field; [|assumption].
    rewrite blen_app, blen_be_bytes. subst off. reflexivity. }
  rewrite E2. cbn [bind].
  (* iv *)
  assert (E3 : slice buffer (off + 4 + 2) (off + 4 + 2 + blen (iv c)) = iv c).
  { unfold buffer. rewrite <- !app_assoc.
    rewrite (app_assoc pre (be_bytes 4 (index c))).
    rewrite (app_assoc (pre ++ _) (be_bytes 2 _)).
    apply slice_field.
    rewrite !blen_app, !blen_be_bytes. subst off. reflexivity. }
  rewrite E3.
  (* tag length *)
  assert (E4 : readUIntBE 2 buffer (off + 4 + 2 + blen (iv c)) = Ok taglen).
  { unfold buffer. rewrite Etag. rewrite <- !app_assoc.
    rewrite (app_assoc pre (be_bytes 4 (index c))).
    rewrite (app_assoc (pre ++ _) (be_bytes 2 _)).
    rewrite (app_assoc ((pre ++ _) ++ _) (iv c)).
    apply readUIntBE_field; [|assumption].
    rewrite !blen_app, !blen_be_bytes. subst off. reflexivity. }
  rewrite E4. cbn [bind].
  (* tag *)
  assert (E5 : (if 0 <? taglen
                then Some (slice buffer (off + 4 + 2 + blen (iv c) + 2)
                                 (off + 4 + 2 + blen (iv c) + 2 + taglen))
                else None) = authTag c).
  { unfold taglen. destruct (authTag c) as [tag|] eqn:Ec.
    - destruct (N.ltb_spec 0 (blen tag)) as [Hpos|Hz].
      + f_equal. unfold buffer, tagpart. rewrite <- !app_assoc.
        rewrite (app_assoc pre (be_bytes 4 (index c))).
        rewrite (app_assoc (pre ++ _) (be_bytes 2 _)).
        rewrite (app_assoc ((pre ++ _) ++ _) (iv c)).
        rewrite (app_assoc (((pre ++ _) ++ _) ++ _) (be_bytes 2 _)).
        apply slice_field.
        rewrite !blen_app, !blen_be_bytes. subst off. reflexivity.
      + exfalso. apply Ht. rewrite Ec. f_equal.
        destruct tag; [reflexivity | unfold blen in Hz; simpl in Hz; lia].
    - reflexivity. }
  rewrite E5.
  set (off5 := if 0 <? taglen then off + 4 + 2 + blen (iv c) + 2 + taglen
               else off + 4 + 2 + blen (iv c) + 2).
  assert (Eoff5 : off5 = off + 4 + 2 + blen (iv c) + 2 + taglen).
  { unfold off5. destruct (N.ltb_spec 0 taglen); lia. }
  assert (Btag : blen tagpart = 2 + taglen).
  { unfold tagpart, taglen. destruct (authTag c).
    - now rewrite blen_app, blen_be_bytes.
    - rewrite blen_be_bytes. reflexivity. }
  (* data length *)
  assert (E6 : readUIntBE 4 buffer off5 = Ok (blen (data c))).
  { unfold buffer. rewrite <- !app_assoc.
    rewrite (app_assoc pre (be_bytes 4 (index c))).
    rewrite (app_assoc (pre ++ _) (be_bytes 2 _)).
    rewrite (app_assoc ((pre ++ _) ++ _) (iv c)).
    rewrite (app_assoc (((pre ++ _) ++ _) ++ _) tagpart).
    apply readUIntBE_field; [|assumption].
    rewrite !blen_app, !blen_be_bytes, Btag, Eoff5. subst off. simpl N.of_nat. lia. }
  rewrite E6. cbn [bind].
  (* data *)
  assert (E7 : slice buffer (off5 + 4) (off5 + 4 + blen (data c)) = data c).
  { unfold buffer. rewrite <- !app_assoc.
    rewrite (app_assoc pre (be_bytes 4 (index c))).
    rewrite (app_assoc (pre ++ _) (be_bytes 2 _)).
    rewrite (app_assoc ((pre ++ _) ++ _) (iv c)).
    rewrite (app_assoc (((pre ++ _) ++ _) ++ _) tagpart).
    rewrite (app_assoc ((((pre ++ _) ++ _) ++ _) ++ _) (be_bytes 4 _)).
    apply slice_field.
    rewrite !blen_app, !blen_be_bytes, Btag, Eoff5. subst off. simpl N.of_nat. lia. }
  rewrite E7.
  replace (off5 + 4 + blen (data c))
    with (off + blen (be_bytes 4 (index c) ++ be_bytes 2 (blen (iv c)) ++ iv c
                        ++ tagpart ++ be_bytes 4 (blen (data c)) ++ data c)).
  2:{ rewrite !blen_app, !blen_be_bytes, Btag, Eoff5. simpl N.of_nat. lia. }
  destruct c; reflexivity.
Qed.

Lemma read_chunks_serialized (cs : list EncryptedChunk) :
  forall (b pre suf : bytes) (off : N),
    serialize_chunks cs = Ok b -> Forall tag_readable cs -> off = blen pre ->
    read_chunks (length cs) (pre ++ b ++ suf) off = Ok cs.
Proof.
  induction cs as [|c cs IH]; intros b pre suf off Hs Ht Hoff.
  - reflexivity.
  - cbn [serialize_chunks] in Hs.
    apply bind_ok in Hs as (part & Ep & Hs).
    apply bind_ok in Hs as (parts & Eps & Hs).
    inversion Hs; subst b; clear Hs.
    inversion Ht as [|? ? Hc Hcs]; subst.
    cbn [length]. rewrite <- app_assoc.
    rewrite (read_chunks_step c part pre (parts ++ suf) (length cs) (blen pre) Ep Hc eq_refl).
    rewrite (app_assoc pre part).
    rewrite (IH parts (pre ++ part) suf (blen pre + blen part) Eps Hcs).
    + reflexivity.
    + now rewrite blen_app.
Qed.

Lemma read_chunks_length (n : nat) :
  forall (buffer : bytes) (off : N) (cs : list EncryptedChunk),
    read_chunks n buffer off = Ok cs -> length cs = n.
Proof.
  induction n as [|n IH]; intros buffer off cs H.
  - inversion H. reflexivity.
  - cbn [read_chunks] in H.
    do 4 (apply bind_ok in H as (? & _ & H)).
    apply bind_ok in H as (rest & Hrest & H).
    inversion H; subst. cbn [length]. f_equal. eapply IH; eassumption.
Qed.

Context {laws : NodeRuntimeLaws node}.

(** A container whose metadata is well formed and announces as many
    records as it has survives the wire format. *)
Lemma deserialize_serialize (e : EncryptedData) (b : bytes) :
  metadata_wf (metadata e) ->
  Z.to_nat (chunkCount_or_1 (metadata e)) = length (chunks e) ->
  Forall tag_readable (chunks e) ->
  serializeEncryptedData e = Ok b ->
  deserializeEncryptedData b = Ok e.
Proof.
  intros Hwf Hcount Htags Hs.
  unfold serializeEncryptedData, writeUInt32BE in Hs.
  apply bind_ok in Hs as (ml & Eml & Hs). apply writeUIntBE_ok in Eml as [-> Rml].
  apply bind_ok in Hs as (parts & Eparts & Hs).
  assert (Hb : b = be_bytes 4 (blen (metadata_stringify (metadata e)))
                     ++ metadata_stringify (metadata e) ++ parts) by congruence.
  subst b. clear Hs.
  unfold deserializeEncryptedData, readUInt32BE.
  set (mb := metadata_stringify (metadata e)) in *.
  assert (E1 : readUIntBE 4 (be_bytes 4 (blen mb) ++ mb ++ parts) 0 = Ok (blen mb)).
  { apply (readUIntBE_field 4 (blen mb) [] (mb ++ parts) 0 eq_refl Rml). }
  rewrite E1. cbn [bind].
  assert (E2 : slice (be_bytes 4 (blen mb) ++ mb ++ parts) 4 (4 + blen mb) = mb).
  { apply slice_field. now rewrite blen_be_bytes. }
  rewrite E2. unfold mb at 1.
  rewrite metadata_parse_stringify by assumption. cbn [bind].
  rewrite Hcount.
  assert (E3 : read_chunks (length (chunks e)) (be_bytes 4 (blen mb) ++ mb ++ parts)
                           (4 + blen mb) = Ok (chunks e)).
  { rewrite (app_assoc (be_bytes 4 _) mb parts).
    rewrite <- (app_nil_r parts) at 1.
    apply (read_chunks_serialized (chunks e) parts _ [] _ Eparts Htags).
    now rewrite blen_app, blen_be_bytes. }
  rewrite E3. destruct e; reflexivity.
Qed.

End WireFormat.

(* ================================================================== *)
(** * Slices and chunks *)

Section Slices.

Open Scope N_scope.

Lemma firstn_firstn_skipn {A : Type} (m k : nat) (l : list A) :
  firstn m l ++ firstn k (skipn m l) = firstn (m + k) l.
Proof.
  revert l. induction m as [|m IH]; intros l.
  - reflexivity.
  - destruct l as [|x l]; simpl.
    + now rewrite firstn_nil.
    + now rewrite IH.
Qed.

Lemma slice_adjacent (d : bytes) (a b c : N) :
  a <= b -> b <= c -> slice d a b ++ slice d b c = slice d a c.
Proof.
  intros Hab Hbc. unfold slice.
  replace (skipn (N.to_nat b) d)
    with (skipn (N.to_nat (b - a)) (skipn (N.to_nat a) d))
    by (rewrite skipn_skipn; f_equal; lia).
  rewrite firstn_firstn_skipn. f_equal. lia.
Qed.

Lemma slice_clamp (d : bytes) (a c : N) :
  slice d a (N.min c (blen d)) = slice d a c.
Proof.
  unfold slice.
  destruct (N.le_gt_cases c (blen d)) as [H|H].
  - now rewrite N.min_l.
  - rewrite N.min_r by lia.
    rewrite !firstn_all2; try reflexivity;
      rewrite length_skipn; unfold blen in *; lia.
Qed.

Lemma slice_whole (d : bytes) (c : N) : blen d <= c -> slice d 0 c = d.
Proof.
  intros H. unfold slice. simpl skipn.
  apply firstn_all2. unfold blen in H. lia.
Qed.

Lemma slice_length_le (d : bytes) (a b : N) : (length (slice d a b) <= length d)%nat.
Proof.
  unfold slice. rewrite length_firstn, length_skipn. lia.
Qed.

Lemma concat_chunk_plain (d : bytes) (s : N) (n : nat) :
  forall i, concat (map (Encryption.chunk_plain d s) (Encryption.Nseq n i))
            = slice d (i * s) ((i + N.of_nat n) * s).
Proof.
  induction n as [|n IH]; intros i.
  - simpl. unfold slice. replace ((i + 0) * s - i * s) with 0 by lia. reflexivity.
  - cbn [Encryption.Nseq map concat]. rewrite IH.
    unfold Encryption.chunk_plain. rewrite slice_clamp.
    replace (i * s + s) with ((i + 1) * s) by lia.
    rewrite slice_adjacent by nia.
    f_equal. lia.
Qed.

Lemma totalChunks_covers (d : bytes) (s : positive) :
  blen d <= Encryption.totalChunks d s * N.pos s.
Proof.
  unfold Encryption.totalChunks.
  pose proof (N.div_mod (blen d + N.pos s - 1) (N.pos s) ltac:(lia)) as E.
  pose proof (N.mod_lt (blen d + N.pos s - 1) (N.pos s) ltac:(lia)) as L.
  rewrite (N.mul_comm _ (N.pos s)). lia.
Qed.

Lemma totalChunks_le (d : bytes) (s : positive) :
  Encryption.totalChunks d s <= blen d.
Proof.
  unfold Encryption.totalChunks.
  destruct (N.eq_dec (blen d) 0) as [Z|NZ].
  - rewrite Z. rewrite N.div_small; lia.
  - apply N.Div0.div_le_upper_bound.
    assert (H : exists k, blen d = k + 1) by (exists (blen d - 1); lia).
    destruct H as [k ->]. rewrite N.mul_add_distr_l.
    assert (1 * k <= N.pos s * k) by (apply N.mul_le_mono_r; lia). lia.
Qed.

Lemma totalChunks_many (d : bytes) (s : positive) :
  N.pos s < blen d -> 2 <= Encryption.totalChunks d s.
Proof.
  intros H. unfold Encryption.totalChunks.
  apply N.div_le_lower_bound; lia.
Qed.

End Slices.

(* ================================================================== *)
(** * Sorting chunks by index *)

Section SortByIndex.

Import Encryption.
Open Scope N_scope.

Lemma insert_by_index_perm (c : EncryptedChunk) (l : list EncryptedChunk) :
  Permutation (insert_by_index c l) (c :: l).
Proof.
  induction l as [|h t IH]; simpl.
  - apply Permutation_refl.
  - destruct (index c <=? index h).
    + apply Permutation_refl.
    + eapply perm_trans; [apply perm_skip, IH | apply perm_swap].
Qed.

Lemma sort_by_index_perm (l : list EncryptedChunk) :
  Permutation (sort_by_index l) l.
Proof.
  induction l as [|c l IH]; simpl.
  - apply perm_nil.
  - eapply perm_trans; [apply insert_by_index_perm | now apply perm_skip].
Qed.

Lemma insert_by_index_sorted (c : EncryptedChunk) (l : list EncryptedChunk) :
  StronglySorted index_lt l ->
  ~ In (index c) (map index l) ->
  StronglySorted index_lt (insert_by_index c l).
Proof.
  induction 1 as [|h t Ht IH Hh]; intros Hfresh; simpl.
  - repeat constructor.
  - destruct (N.leb_spec (index c) (index h)) as [Hle|Hgt].
    + assert (Hlt : index c < index h).
      { destruct (N.eq_dec (index c) (index h)) as [E|NE]; [|lia].
        exfalso. apply Hfresh. simpl. now left. }
      constructor; [now constructor|].
      constructor; [exact Hlt|].
      eapply Forall_impl; [|exact Hh].
      intros x Hx. unfold index_lt in *. lia.
    + constructor.
      * apply IH. intros Hin. apply Hfresh. simpl. now right.
      * eapply Permutation_Forall.
        -- apply Permutation_sym, insert_by_index_perm.
        -- constructor; [exact Hgt | exact Hh].
Qed.

Lemma sort_by_index_sorted (l : list EncryptedChunk) :
  NoDup (map index l) -> StronglySorted index_lt (sort_by_index l).
Proof.
  induction l as [|c l IH]; simpl; intros Hnd.
  - constructor.
  - inversion Hnd as [|? ? Hnotin Hnd']; subst.
    apply insert_by_index_sorted; [now apply IH|].
    intros Hin. apply Hnotin.
    eapply Permutation_in; [|exact Hin].
    apply Permutation_map, sort_by_index_perm.
Qed.

Lemma sorted_by_index_unique (l1 : list EncryptedChunk) :
  forall l2, StronglySorted index_lt l1 -> StronglySorted index_lt l2 ->
             Permutation l1 l2 -> l1 = l2.
Proof.
  induction l1 as [|a t1 IH]; intros l2 S1 S2 HP.
  - apply Permutation_nil in HP. now subst.
  - destruct l2 as [|b t2].
    + apply Permutation_sym, Permutation_nil in HP. discriminate.
    + inversion S1 as [|? ? S1' F1]; subst.
      inversion S2 as [|? ? S2' F2]; subst.
      assert (Eab : a = b).
      { assert (Ha : In a (b :: t2))
          by (eapply Permutation_in; [exact HP | now left]).
        assert (Hb : In b (a :: t1))
          by (eapply Permutation_in; [apply Permutation_sym, HP | now left]).
        destruct Ha as [Ha|Ha]; [now symmetry|].
        destruct Hb as [Hb|Hb]; [assumption|].
        rewrite Forall_forall in F1, F2.
        specialize (F1 _ Hb). specialize (F2 _ Ha).
        unfold index_lt in *. lia. }
      subst b. f_equal. apply IH; try assumption.
      now apply Permutation_cons_inv in HP.
Qed.

(** The order in which the records are stored does not matter to the
    sort, as long as no two records carry the same index. *)
Lemma sort_by_index_permuted (l l' : list EncryptedChunk) :
  NoDup (map index l) -> Permutation l' l ->
  sort_by_index l' = sort_by_index l.
Proof.
  intros Hnd HP.
  apply sorted_by_index_unique.
  - apply sort_by_index_sorted.
    eapply Permutation_NoDup; [|exact Hnd].
    apply Permutation_map, Permutation_sym, HP.
  - now apply sort_by_index_sorted.
  - eapply perm_trans; [apply sort_by_index_perm|].
    eapply perm_trans; [exact HP|].
    apply Permutation_sym, sort_by_index_perm.
Qed.

Lemma sort_by_index_id (l : list EncryptedChunk) :
  StronglySorted index_lt l -> sort_by_index l = l.
Proof.
  induction 1 as [|h t Ht IH Hh]; simpl.
  - reflexivity.
  - rewrite IH. destruct t as [|h' t']; simpl.
    + reflexivity.
    + inversion Hh as [|? ? H1 _]; subst. unfold index_lt in H1.
      destruct (N.leb_spec (index h) (index h')); [reflexivity | lia].
Qed.

Lemma Nseq_lower (n : nat) : forall i x, In x (Nseq n i) -> i <= x.
Proof.
  induction n as [|n IH]; simpl; intros i x H.
  - contradiction.
  - destruct H as [<-|H]; [lia|]. apply IH in H. lia.
Qed.

Lemma Nseq_upper (n : nat) : forall i x, In x (Nseq n i) -> x < i + N.of_nat n.
Proof.
  induction n as [|n IH]; simpl Nseq; intros i x H.
  - contradiction.
  - destruct H as [<-|H]; [lia|]. apply IH in H. lia.
Qed.

Lemma Nseq_length (n : nat) : forall i, length (Nseq n i) = n.
Proof. induction n; simpl; intros; [reflexivity | now rewrite IHn]. Qed.

Lemma indexed_by_Nseq_sorted (cs : list EncryptedChunk) :
  forall n i, map index cs = Nseq n i -> StronglySorted index_lt cs.
Proof.
  induction cs as [|c cs IH]; intros n i H.
  - constructor.
  - destruct n as [|n]; [discriminate|]. simpl in H.
    injection H as Hc Hcs.
    constructor; [eapply IH; eassumption|].
    rewrite Forall_forall. intros x Hx.
    assert (Hin : In (index x) (Nseq n (i + 1))).
    { rewrite <- Hcs. now apply in_map. }
    apply Nseq_lower in Hin. unfold index_lt. lia.
Qed.

Lemma sorted_by_index_NoDup (cs : list EncryptedChunk) :
  StronglySorted index_lt cs -> NoDup (map index cs).
Proof.
  induction 1 as [|h t Ht IH Hh]; simpl; constructor; [|assumption].
  intros Hin. apply in_map_iff in Hin as (x & Ex & Hx).
  rewrite Forall_forall in Hh. specialize (Hh _ Hx).
  unfold index_lt in Hh. lia.
Qed.

End SortByIndex.

(* ================================================================== *)
(** * Encrypting and decrypting *)

Section Containers.

Import Encryption.
Context {node : NodeRuntime}.
Open Scope N_scope.

(** What [encryptData] returns when the cipher accepts the buffer. *)
Lemma encryptData_ok (d : bytes) (masterKey : string) (g : rng) (e : EncryptedData) :
  fst (encryptData d masterKey g) = Ok e ->
  exists ct tag,
    gcm_encrypt (deriveKey masterKey (fst (randomBytes SALT_LENGTH g)) "")
                (fst (randomBytes IV_LENGTH (snd (randomBytes SALT_LENGTH g)))) d
    = Ok (ct, tag)
    /\ e = {| metadata := {| salt := fst (randomBytes SALT_LENGTH g);
                             algorithm := ALGORITHM;
                             chunkCount := None; chunkSize := None |};
              chunks := [ {| index := 0;
                             iv := fst (randomBytes IV_LENGTH
                                          (snd (randomBytes SALT_LENGTH g)));
                             data := ct; authTag := Some tag |} ] |}.
Proof.
  unfold encryptData.
  destruct (randomBytes SALT_LENGTH g) as [salt0 g1]. cbn [fst snd].
  destruct (randomBytes IV_LENGTH g1) as [iv0 g2]. cbn [fst snd].
  destruct (gcm_encrypt (deriveKey masterKey salt0 "") iv0 d) as [[ct tag]|err];
    cbn [bind fst snd]; intros H; [|discriminate].
  injection H as <-. exists ct, tag. split; reflexivity.
Qed.

(** What [encryptDataChunked] returns when the cipher accepts every
    chunk. *)
Lemma encryptDataChunked_ok (d : bytes) (masterKey : string) (s : positive)
    (g : rng) (e : EncryptedData) :
  fst (encryptDataChunked d masterKey s g) = Ok e ->
  metadata e = {| salt := fst (randomBytes SALT_LENGTH g); algorithm := ALGORITHM;
                  chunkCount := Some (Z.of_N (totalChunks d s));
                  chunkSize := Some (Z.pos s) |}
  /\ fst (encrypt_chunks (N.to_nat (totalChunks d s)) 0 d masterKey
                         (fst (randomBytes SALT_LENGTH g)) (N.pos s)
                         (snd (randomBytes SALT_LENGTH g)))
     = Ok (chunks e).
Proof.
  unfold encryptDataChunked.
  destruct (randomBytes SALT_LENGTH g) as [salt0 g1]. cbn [fst snd].
  destruct (encrypt_chunks (N.to_nat (totalChunks d s)) 0 d masterKey salt0
              (N.pos s) g1) as [[cs|err] g2];
    cbn [bind fst]; intros H; [|discriminate].
  injection H as <-. split; reflexivity.
Qed.

Lemma encryptAuto_simple (d : bytes) (masterKey : string) (s : positive) (g : rng) :
  blen d <= N.pos s ->
  fst (encryptAuto d masterKey s g)
  = (e <- fst (encryptData d masterKey g) ;; serializeEncryptedData e).
Proof.
  intros H. unfold encryptAuto.
  destruct (N.leb_spec (blen d) (N.pos s)); [|lia].
  now destruct (encryptData d masterKey g).
Qed.


End Containers.

Section RoundTrip.

Import Encryption.
Context {node : NodeRuntime} {laws : NodeRuntimeLaws node}.
Open Scope N_scope.

Lemma deriveKey_length (masterKey : string) (salt0 : bytes) (context : string) :
  length (deriveKey masterKey salt0 context) = KEY_LENGTH.
Proof. unfold deriveKey. apply pbkdf2Sync_length. Qed.

Lemma fresh_record_readable (d : bytes) (c : EncryptedChunk) :
  fresh_record d c -> tag_readable c.
Proof.
  intros (_ & (tag & Ht & Hl) & _). unfold tag_readable. rewrite Ht.
  intros E. injection E as ->. discriminate.
Qed.

Lemma fresh_record_fits (d : bytes) (c : EncryptedChunk) :
  blen d < 2 ^ 32 -> index c < 2 ^ 32 -> fresh_record d c -> fits_record c.
Proof.
  intros Hd Hi (Hiv & (tag & Ht & Hl) & Hdata).
  unfold fits_record, blen in *. rewrite Hiv.
  split; [exact Hi|]. split; [reflexivity|]. split; [lia|].
  intros t E. rewrite Ht in E. injection E as <-. rewrite Hl. reflexivity.
Qed.

(** The records of the chunks the cipher accepted. *)
Lemma encrypt_chunks_spec (d : bytes) (masterKey : string) (salt0 : bytes)
    (s : N) (n : nat) :
  forall (i : N) (g : rng) (cs : list EncryptedChunk),
    fst (encrypt_chunks n i d masterKey salt0 s g) = Ok cs ->
    map index cs = Nseq n i
    /\ decrypt_chunks cs salt0 masterKey = Ok (map (chunk_plain d s) (Nseq n i))
    /\ Forall (fresh_record d) cs.
Proof.
  induction n as [|n IH]; intros i g cs H.
  - cbn in H. injection H as <-. repeat split; constructor.
  - cbn [encrypt_chunks] in H.
    pose proof (randomBytes_length IV_LENGTH g) as Hiv.
    destruct (randomBytes IV_LENGTH g) as [iv0 g1]. cbn [fst] in Hiv.
    set (key := deriveKey masterKey salt0 ("chunk_" ++ dec i)) in *.
    set (plain := slice d (i * s) (N.min (i * s + s) (blen d))) in *.
    destruct (gcm_encrypt key iv0 plain) as [[ct tag]|err] eqn:E;
      [|discriminate].
    pose proof (gcm_decrypt_encrypt key iv0 plain
                  (deriveKey_length _ _ _) Hiv E) as Hdec.
    pose proof (gcm_ciphertext_length key iv0 plain
                  (deriveKey_length _ _ _) Hiv E) as Hlen.
    pose proof (gcm_tag_length key iv0 plain
                  (deriveKey_length _ _ _) Hiv E) as Htag.
    specialize (IH (i + 1) g1).
    destruct (encrypt_chunks n (i + 1) d masterKey salt0 s g1) as [[rest|err] g2];
      cbn [fst bind] in *; [|discriminate].
    injection H as <-.
    destruct (IH rest eq_refl) as (IHi & IHd & IHf).
    cbn [map Nseq decrypt_chunks index iv data authTag].
    repeat split.
    + now rewrite IHi.
    + fold key. rewrite Hdec, IHd. reflexivity.
    + constructor; [|exact IHf].
      repeat split; cbn [iv authTag data]; try assumption.
      * eauto.
      * rewrite Hlen. apply slice_length_le.
Qed.

(** The cipher accepts every chunk of a buffer it accepts as a whole. *)
Lemma encrypt_chunks_returns (d : bytes) (masterKey : string) (salt0 : bytes)
    (s : N) (n : nat) :
  blen d < 2 ^ 31 - 1 ->
  forall (i : N) (g : rng),
    exists cs, fst (encrypt_chunks n i d masterKey salt0 s g) = Ok cs.
Proof.
  intros Hd. induction n as [|n IH]; intros i g.
  - exists []. reflexivity.
  - cbn [encrypt_chunks].
    pose proof (randomBytes_length IV_LENGTH g) as Hiv.
    destruct (randomBytes IV_LENGTH g) as [iv0 g1]. cbn [fst] in Hiv.
    set (key := deriveKey masterKey salt0 ("chunk_" ++ dec i)).
    set (plain := slice d (i * s) (N.min (i * s + s) (blen d))).
    destruct (gcm_encrypt_accepts key iv0 plain (deriveKey_length _ _ _) Hiv)
      as [[ct tag] ->].
    { pose proof (slice_length_le d (i * s) (N.min (i * s + s) (blen d))).
      unfold blen in *. fold plain in H. lia. }
    destruct (IH (i + 1) g1) as [rest Hrest].
    destruct (encrypt_chunks n (i + 1) d masterKey salt0 s g1) as [r g2].
    cbn [fst] in *. rewrite Hrest. cbn [bind]. eauto.
Qed.

Lemma encryptData_returns (d : bytes) (masterKey : string) (g : rng) :
  blen d < 2 ^ 31 - 1 -> exists e, fst (encryptData d masterKey g) = Ok e.
Proof.
  intros Hd. unfold encryptData.
  pose proof (randomBytes_length SALT_LENGTH g) as Hsalt.
  destruct (randomBytes SALT_LENGTH g) as [salt0 g1].
  pose proof (randomBytes_length IV_LENGTH g1) as Hiv.
  destruct (randomBytes IV_LENGTH g1) as [iv0 g2]. cbn [fst] in *.
  destruct (gcm_encrypt_accepts (deriveKey masterKey salt0 "") iv0 d
              (deriveKey_length _ _ _) Hiv Hd) as [sealed ->].
  cbn [bind]. eauto.
Qed.

Lemma encryptDataChunked_returns (d : bytes) (masterKey : string) (s : positive)
    (g : rng) :
  blen d < 2 ^ 31 - 1 -> exists e, fst (encryptDataChunked d masterKey s g) = Ok e.
Proof.
  intros Hd. unfold encryptDataChunked.
  destruct (randomBytes SALT_LENGTH g) as [salt0 g1].
  destruct (encrypt_chunks_returns d masterKey salt0 (N.pos s)
              (N.to_nat (totalChunks d s)) Hd 0 g1) as [cs Hcs].
  destruct (encrypt_chunks (N.to_nat (totalChunks d s)) 0 d masterKey salt0
              (N.pos s) g1) as [r g2].
  cbn [fst] in *. rewrite Hcs. cbn [bind]. eauto.
Qed.

(** [encryptData] throws on a buffer the cipher refuses. *)
Lemma encryptData_refused (d : bytes) (masterKey : string) (g : rng) :
  2 ^ 31 - 1 <= blen d -> exists err, fst (encryptData d masterKey g) = Err err.
Proof.
  intros Hd. unfold encryptData.
  destruct (randomBytes SALT_LENGTH g) as [salt0 g1].
  destruct (randomBytes IV_LENGTH g1) as [iv0 g2]. cbn [fst].
  destruct (gcm_encrypt_refuses (deriveKey masterKey salt0 "") iv0 d Hd)
    as [err ->].
  cbn [bind]. eauto.
Qed.

Lemma serialize_chunks_fits (cs : list EncryptedChunk) :
  Forall fits_record cs -> exists b, serialize_chunks cs = Ok b.
Proof.
  induction 1 as [|c cs Hc _ IH]; cbn [serialize_chunks].
  - eauto.
  - destruct (serialize_chunk_fits c Hc) as [part ->].
    destruct IH as [parts ->]. simpl. eauto.
Qed.

Lemma serializeEncryptedData_fits (e : EncryptedData) :
  metadata_wf (metadata e) -> Forall fits_record (chunks e) ->
  exists b, serializeEncryptedData e = Ok b.
Proof.
  intros Hwf Hfit. unfold serializeEncryptedData, writeUInt32BE.
  rewrite writeUIntBE_fits by (apply metadata_stringify_length; assumption).
  destruct (serialize_chunks_fits _ Hfit) as [parts ->]. simpl. eauto.
Qed.

(** The record of a container of [encryptData]. *)
Lemma encryptData_fresh (d : bytes) (masterKey : string) (g : rng)
    (e : EncryptedData) :
  fst (encryptData d masterKey g) = Ok e ->
  metadata_wf (metadata e)
  /\ chunkCount (metadata e) = None
  /\ Forall (fresh_record d) (chunks e)
  /\ map index (chunks e) = [0]
  /\ payload_size (chunks e) = blen d
  /\ decryptData e masterKey = Ok d.
Proof.
  intros H. apply encryptData_ok in H as (ct & tag & E & ->).
  pose proof (randomBytes_length SALT_LENGTH g) as Hsalt.
  pose proof (randomBytes_length IV_LENGTH (snd (randomBytes SALT_LENGTH g))) as Hiv.
  set (salt0 := fst (randomBytes SALT_LENGTH g)) in *.
  set (iv0 := fst (randomBytes IV_LENGTH (snd (randomBytes SALT_LENGTH g)))) in *.
  pose proof (gcm_decrypt_encrypt _ iv0 d (deriveKey_length _ _ _) Hiv E) as Hdec.
  pose proof (gcm_ciphertext_length _ iv0 d (deriveKey_length _ _ _) Hiv E) as Hlen.
  pose proof (gcm_tag_length _ iv0 d (deriveKey_length _ _ _) Hiv E) as Htag.
  cbn [metadata chunks chunkCount].
  split.
  { unfold metadata_wf. cbn. split; [exact Hsalt|]. split; intros ? F; discriminate. }
  split; [reflexivity|].
  split.
  { constructor; [|constructor]. unfold fresh_record. cbn [iv authTag data].
    split; [exact Hiv|]. split; [eauto | lia]. }
  split; [reflexivity|].
  split.
  { cbn [payload_size fold_right data]. unfold blen. rewrite Hlen. lia. }
  unfold decryptData. cbn [chunks metadata salt iv authTag data]. now rewrite Hdec.
Qed.


End RoundTrip.

Section RoundTripChunked.

Import Encryption.
Context {node : NodeRuntime} {laws : NodeRuntimeLaws node}.
Open Scope N_scope.

(** The records of a container of [encryptDataChunked]. *)
Lemma encryptDataChunked_fresh (d : bytes) (masterKey : string) (s : positive)
    (g : rng) (e : EncryptedData) :
  fst (encryptDataChunked d masterKey s g) = Ok e ->
  length (salt (metadata e)) = SALT_LENGTH
  /\ chunkCount (metadata e) = Some (Z.of_N (totalChunks d s))
  /\ chunkSize (metadata e) = Some (Z.pos s)
  /\ map index (chunks e) = Nseq (N.to_nat (totalChunks d s)) 0
  /\ decrypt_chunks (chunks e) (salt (metadata e)) masterKey
     = Ok (map (chunk_plain d (N.pos s)) (Nseq (N.to_nat (totalChunks d s)) 0))
  /\ Forall (fresh_record d) (chunks e).
Proof.
  intros H. apply encryptDataChunked_ok in H as (Hm & Hcs).
  apply encrypt_chunks_spec in Hcs as (Hidx & Hdec & Hfresh).
  rewrite Hm. cbn [salt chunkCount chunkSize].
  split; [apply randomBytes_length|]. auto.
Qed.

(** The chunked path, with the records stored in any order. *)
Lemma chunked_roundtrip (d : bytes) (masterKey : string) (s : positive) (g : rng)
    (e : EncryptedData) (stored : list EncryptedChunk) :
  fst (encryptDataChunked d masterKey s g) = Ok e ->
  blen d < 2 ^ 32 ->
  N.pos s < blen d ->
  Permutation stored (chunks e) ->
  exists buffer,
    serializeEncryptedData {| metadata := metadata e; chunks := stored |} = Ok buffer
    /\ decryptAuto buffer masterKey = Ok d.
Proof.
  intros He Hd Hs HP.
  destruct (encryptDataChunked_fresh d masterKey s g e He)
    as (Hsalt & Hcc & Hcsz & Hidx & Hdec & Hfresh).
  pose proof (totalChunks_le d s) as Hle.
  pose proof (totalChunks_many d s Hs) as Hmany.
  pose proof (totalChunks_covers d s) as Hcov.
  set (total := totalChunks d s) in *.
  set (cs := chunks e) in *.
  set (e' := {| metadata := metadata e; chunks := stored |}).
  assert (Hwf : metadata_wf (metadata e')).
  { unfold metadata_wf. cbn [e' metadata]. split; [assumption|].
    rewrite Hcc, Hcsz. split; intros n E; injection E as <-; lia. }
  assert (Hfit_cs : Forall fits_record cs).
  { rewrite Forall_forall in *. intros c Hc.
    apply (fresh_record_fits d); [assumption| |now apply Hfresh].
    assert (Hin : In (index c) (Nseq (N.to_nat total) 0)).
    { rewrite <- Hidx. now apply in_map. }
    apply Nseq_upper in Hin. lia. }
  assert (Hfit : Forall fits_record (chunks e')).
  { cbn [e' chunks].
    eapply Permutation_Forall; [apply Permutation_sym, HP | exact Hfit_cs]. }
  assert (Htags : Forall tag_readable (chunks e')).
  { cbn [e' chunks]. eapply Permutation_Forall; [apply Permutation_sym, HP |].
    eapply Forall_impl; [|exact Hfresh]. apply fresh_record_readable. }
  assert (Hlen : length cs = N.to_nat total).
  { rewrite <- (length_map index), Hidx. apply Nseq_length. }
  assert (Hcount : Z.to_nat (chunkCount_or_1 (metadata e')) = length (chunks e')).
  { cbn [e' metadata chunks]. unfold chunkCount_or_1. rewrite Hcc.
    destruct (Z.eqb_spec (Z.of_N total) 0) as [E|_]; [lia|].
    rewrite (Permutation_length HP), Hlen. lia. }
  destruct (serializeEncryptedData_fits e' Hwf Hfit) as [buffer Hbuf].
  exists buffer. split; [exact Hbuf|].
  unfold decryptAuto.
  rewrite (deserialize_serialize e' buffer Hwf Hcount Htags Hbuf). cbn [bind].
  assert (Hch : is_chunked (metadata e') = true).
  { unfold is_chunked. cbn [e' metadata]. rewrite Hcc. apply Z.ltb_lt. lia. }
  rewrite Hch. unfold decryptDataChunked. cbn [e' chunks metadata].
  assert (Hsorted : StronglySorted index_lt cs)
    by (eapply indexed_by_Nseq_sorted; exact Hidx).
  rewrite (sort_by_index_permuted cs stored (sorted_by_index_NoDup cs Hsorted) HP).
  rewrite (sort_by_index_id cs Hsorted).
  rewrite Hdec. cbn [bind].
  rewrite concat_chunk_plain.
  rewrite N.mul_0_l, N.add_0_l, N2Nat.id.
  now rewrite slice_whole.
Qed.


End RoundTripChunked.

(* ================================================================== *)
(** * The sample runtime obeys the laws *)

Section SampleLaws.

Import Encryption.

Lemma pad_length (n : nat) (b : bytes) : length (Sample.pad n b) = n.
Proof.
  unfold Sample.pad. rewrite length_firstn, length_app, repeat_length. lia.
Qed.

Lemma bytes_eqb_refl (b : bytes) : Sample.bytes_eqb b b = true.
Proof.
  induction b as [|x b IH]; simpl; [reflexivity|].
  rewrite IH, andb_true_r. now apply Byte.byte_dec_lb.
Qed.

Lemma firstn_prefix {A : Type} (pre rest : list A) (n : nat) :
  length pre = n -> firstn n (pre ++ rest) = pre.
Proof.
  intros <-. rewrite firstn_app, firstn_all, Nat.sub_diag. simpl. apply app_nil_r.
Qed.

Lemma skipn_prefix {A : Type} (pre rest : list A) (n : nat) :
  length pre = n -> skipn n (pre ++ rest) = rest.
Proof.
  intros <-. rewrite skipn_app, skipn_all, Nat.sub_diag. reflexivity.
Qed.

Lemma number_field_length (n : option Z) : length (Sample.number_field n) = 9%nat.
Proof. destruct n; reflexivity. Qed.

Lemma read_number_field_inv (n : option Z) :
  (forall z, n = Some z -> (0 <= z < 2 ^ 53)%Z) ->
  Sample.read_number_field (Sample.number_field n) = n.
Proof.
  intros H. destruct n as [z|]; [|reflexivity].
  specialize (H z eq_refl).
  unfold Sample.number_field, Sample.read_number_field.
  rewrite be_value_be_bytes. f_equal.
  rewrite N.mod_small.
  - lia.
  - change (256 ^ N.of_nat 8)%N with (2 ^ 64)%N.
    assert (Z.of_N (Z.to_N z) < Z.of_N (2 ^ 64))%Z; [|lia].
    rewrite Z2N.id by lia. change (Z.of_N (2 ^ 64)) with (2 ^ 64)%Z. lia.
Qed.

Lemma sample_parse_stringify (m : EncryptionMetadata) :
  metadata_wf m -> Sample.parse (Sample.stringify m) = Ok m.
Proof.
  intros (Hsalt & Hcount & Hsize).
  unfold Sample.parse, Sample.stringify.
  set (a := match algorithm m with aes_256_gcm => x00 | aes_256_cbc => x01 end).
  assert (Hlen : length (salt m ++ [a] ++ Sample.number_field (chunkCount m)
                         ++ Sample.number_field (chunkSize m)) = 51%nat).
  { rewrite !length_app, !number_field_length, Hsalt. reflexivity. }
  rewrite Hlen. cbn [Nat.eqb].
  set (f1 := Sample.number_field (chunkCount m)) in *.
  set (f2 := Sample.number_field (chunkSize m)) in *.
  assert (E1 : firstn 32 (salt m ++ [a] ++ f1 ++ f2) = salt m)
    by (apply firstn_prefix; exact Hsalt).
  assert (E2 : nth 32 (salt m ++ [a] ++ f1 ++ f2) x00 = a).
  { rewrite app_nth2 by (rewrite Hsalt; unfold SALT_LENGTH; lia).
    rewrite Hsalt. reflexivity. }
  assert (E3 : firstn 9 (skipn 33 (salt m ++ [a] ++ f1 ++ f2)) = f1).
  { rewrite (app_assoc (salt m) [a]).
    rewrite (skipn_prefix (salt m ++ [a]) _ 33)
      by (rewrite length_app, Hsalt; reflexivity).
    apply firstn_prefix, number_field_length. }
  assert (E4 : firstn 9 (skipn 42 (salt m ++ [a] ++ f1 ++ f2)) = f2).
  { rewrite (app_assoc (salt m) [a]), (app_assoc (salt m ++ [a]) f1).
    rewrite (skipn_prefix ((salt m ++ [a]) ++ f1) _ 42)
      by (rewrite !length_app, Hsalt; unfold f1; rewrite number_field_length;
          reflexivity).
    apply firstn_all2. unfold f2. rewrite number_field_length. lia. }
  rewrite E1, E2, E3, E4. unfold f1, f2.
  rewrite !read_number_field_inv by assumption.
  destruct m as [sl al cc cs]. simpl. f_equal. f_equal.
  unfold a. simpl. now destruct al.
Qed.

Lemma sample_runtime_laws : NodeRuntimeLaws Sample.runtime.
Proof.
  constructor.
  - intros n g. apply repeat_length.
  - intros password salt0 iterations keylen. apply pad_length.
  - intros key iv0 plaintext _ _ Hshort.
    change (exists sealed, Sample.seal key iv0 plaintext = Ok sealed).
    unfold Sample.seal.
    destruct (N.leb_spec (2 ^ 31 - 1) (blen plaintext)); [lia | eauto].
  - intros key iv0 plaintext Hlong.
    change (exists err, Sample.seal key iv0 plaintext = Err err).
    unfold Sample.seal.
    destruct (N.leb_spec (2 ^ 31 - 1) (blen plaintext)); [eauto | lia].
  - intros key iv0 plaintext ct tag _ _ E.
    change (Sample.seal key iv0 plaintext = Ok (ct, tag)) in E.
    unfold Sample.seal in E.
    destruct (2 ^ 31 - 1 <=? blen plaintext)%N; [discriminate|].
    injection E as <- _. apply length_rev.
  - intros key iv0 plaintext ct tag _ _ E.
    change (Sample.seal key iv0 plaintext = Ok (ct, tag)) in E.
    unfold Sample.seal in E.
    destruct (2 ^ 31 - 1 <=? blen plaintext)%N; [discriminate|].
    injection E as _ <-. apply pad_length.
  - intros key iv0 plaintext ct tag Hkey Hiv E.
    change (Sample.seal key iv0 plaintext = Ok (ct, tag)) in E.
    unfold Sample.seal in E.
    destruct (2 ^ 31 - 1 <=? blen plaintext)%N; [discriminate|].
    injection E as <- <-.
    change (Sample.open key iv0 (Some (Sample.tag_of key iv0 (rev plaintext)))
                        (rev plaintext) = Opened plaintext).
    unfold Sample.open. rewrite Hkey, Nat.eqb_refl. cbn [negb].
    rewrite bytes_eqb_refl. now rewrite rev_involutive.
  - apply sample_parse_stringify.
  - intros m (Hsalt & _).
    change (blen (Sample.stringify m) < 2 ^ 32)%N.
    unfold blen, Sample.stringify.
    rewrite !length_app, !number_field_length, Hsalt. reflexivity.
Qed.

End SampleLaws.

(* ================================================================== *)
(** * Claims about the container *)

Section ContainerClaims.

Import Encryption.
Context {node : NodeRuntime}.
Open Scope N_scope.

Lemma decrypt_chunks_ok (m : EncryptionMetadata) (masterKey : string)
    (cs : list EncryptedChunk) :
  forall parts,
    decrypt_chunks cs (salt m) masterKey = Ok parts ->
    Forall2 (fun c p => outcome true m masterKey c = Opened p) cs parts.
Proof.
  induction cs as [|c cs IH]; intros parts H.
  - injection H as <-. constructor.
  - cbn [decrypt_chunks] in H.
    destruct (gcm_decrypt (deriveKey masterKey (salt m) ("chunk_" ++ dec (index c)))
                          (iv c) (authTag c) (data c)) as [p| |] eqn:E;
      try discriminate.
    apply bind_ok in H as (rest & Hrest & H). injection H as <-.
    constructor; [exact E | now apply IH].
Qed.

Lemma decrypt_chunks_err (m : EncryptionMetadata) (masterKey : string)
    (cs : list EncryptedChunk) (c : EncryptedChunk) :
  In c cs ->
  (forall p, outcome true m masterKey c <> Opened p) ->
  exists err, decrypt_chunks cs (salt m) masterKey = Err err.
Proof.
  intros Hin Hbad.
  destruct (decrypt_chunks cs (salt m) masterKey) as [parts|err] eqn:E; [|eauto].
  exfalso. apply decrypt_chunks_ok in E.
  revert Hin. induction E as [|c' p cs' ps Hc _ IH]; intros Hin.
  - contradiction.
  - destruct Hin as [->|Hin]; [now apply (Hbad p) | now apply IH].
Qed.

Lemma decrypt_chunks_unauthenticated (m : EncryptionMetadata) (masterKey : string)
    (cs : list EncryptedChunk) :
  (exists c, In c cs /\ outcome true m masterKey c = Unauthenticated) ->
  (forall c, In c cs -> outcome true m masterKey c <> Rejected) ->
  exists i, decrypt_chunks cs (salt m) masterKey = Err (DecryptionFailed (Some i)).
Proof.
  induction cs as [|c cs IH]; intros (bad & Hin & Hbad) Hrej.
  - contradiction.
  - cbn [decrypt_chunks].
    pose proof (Hrej c (or_introl eq_refl)) as Hc. unfold outcome in Hc.
    cbn [chunk_context] in Hc.
    destruct (gcm_decrypt (deriveKey masterKey (salt m) ("chunk_" ++ dec (index c)))
                          (iv c) (authTag c) (data c)) as [p| |] eqn:E.
    + destruct Hin as [->|Hin].
      * unfold outcome in Hbad. cbn [chunk_context] in Hbad. congruence.
      * destruct IH as [i ->]; [eauto | intros; apply Hrej; now right |].
        simpl. eauto.
    + eauto.
    + congruence.
Qed.

(** C4.  Decryption is all or nothing.  When [decryptDataChunked] returns,
    every record of the container was opened by the decipher under the
    key of its index, and the result is the concatenation of what the
    decipher returned, in index order; a record the decipher refuses makes
    it throw, "Decryption failed for chunk i" when the tag does not
    verify.  [decryptData] returns only what the decipher opened of its
    record, and throws "Decryption failed" otherwise.  [decryptAuto]
    returns only a plaintext every record of which was opened. *)
Theorem decryption_is_all_or_nothing (masterKey : string) :
  (forall e plaintext,
      decryptDataChunked e masterKey = Ok plaintext ->
      exists parts,
        Forall2 (fun c p => outcome true (metadata e) masterKey c = Opened p)
                (sort_by_index (chunks e)) parts
        /\ plaintext = concat parts)
  /\ (forall e c,
         In c (chunks e) ->
         (forall p, outcome true (metadata e) masterKey c <> Opened p) ->
         exists err, decryptDataChunked e masterKey = Err err)
  /\ (forall e c,
         In c (chunks e) ->
         outcome true (metadata e) masterKey c = Unauthenticated ->
         (forall c', In c' (chunks e) ->
                     outcome true (metadata e) masterKey c' <> Rejected) ->
         exists i, decryptDataChunked e masterKey = Err (DecryptionFailed (Some i)))
  /\ (forall e plaintext,
         decryptData e masterKey = Ok plaintext ->
         exists c rest,
           chunks e = c :: rest
           /\ outcome false (metadata e) masterKey c = Opened plaintext)
  /\ (forall e c rest,
         chunks e = c :: rest ->
         outcome false (metadata e) masterKey c = Unauthenticated ->
         decryptData e masterKey = Err (DecryptionFailed None))
  /\ (forall buffer plaintext,
         decryptAuto buffer masterKey = Ok plaintext ->
         exists e parts,
           deserializeEncryptedData buffer = Ok e
           /\ Forall2 (fun c p => outcome (is_chunked (metadata e)) (metadata e)
                                          masterKey c = Opened p)
                      (sort_by_index (chunks e)) parts
           /\ plaintext = concat parts).
Proof.
  assert (Chunked : forall e plaintext,
             decryptDataChunked e masterKey = Ok plaintext ->
             exists parts,
               Forall2 (fun c p => outcome true (metadata e) masterKey c = Opened p)
                       (sort_by_index (chunks e)) parts
               /\ plaintext = concat parts).
  { intros e plaintext H. unfold decryptDataChunked in H.
    apply bind_ok in H as (parts & Hparts & H). injection H as <-.
    exists parts. split; [now apply decrypt_chunks_ok | reflexivity]. }
  assert (Simple : forall e plaintext,
             decryptData e masterKey = Ok plaintext ->
             exists c rest,
               chunks e = c :: rest
               /\ outcome false (metadata e) masterKey c = Opened plaintext).
  { intros e plaintext H. unfold decryptData in H.
    destruct (chunks e) as [|c rest]; [discriminate|].
    exists c, rest. split; [reflexivity|]. unfold outcome. cbn [chunk_context].
    destruct (gcm_decrypt _ _ _ _); congruence. }
  split; [exact Chunked|].
  split.
  { intros e c Hin Hbad. unfold decryptDataChunked.
    destruct (decrypt_chunks_err (metadata e) masterKey (sort_by_index (chunks e)) c)
      as [err ->]; [|exact Hbad|simpl; eauto].
    eapply Permutation_in; [apply Permutation_sym, sort_by_index_perm | exact Hin]. }
  split.
  { intros e c Hin Hbad Hrej. unfold decryptDataChunked.
    destruct (decrypt_chunks_unauthenticated (metadata e) masterKey
                (sort_by_index (chunks e))) as [i ->].
    - exists c. split; [|exact Hbad].
      eapply Permutation_in; [apply Permutation_sym, sort_by_index_perm | exact Hin].
    - intros c' Hc'. apply Hrej.
      eapply Permutation_in; [apply sort_by_index_perm | exact Hc'].
    - simpl. eauto. }
  split; [exact Simple|].
  split.
  { intros e c rest Hc Hbad. unfold decryptData. rewrite Hc.
    unfold outcome in Hbad. cbn [chunk_context] in Hbad. now rewrite Hbad. }
  intros buffer plaintext H. unfold decryptAuto in H.
  apply bind_ok in H as (e & He & H).
  exists e. destruct (is_chunked (metadata e)) eqn:Hch.
  - apply Chunked in H as (parts & Hparts & ->). exists parts. auto.
  - apply Simple in H as (c & rest & Hc & Hopen).
    assert (Hlen : length (chunks e) = Z.to_nat (chunkCount_or_1 (metadata e))).
    { unfold deserializeEncryptedData in He.
      apply bind_ok in He as (ml & _ & He).
      apply bind_ok in He as (m & _ & He).
      apply bind_ok in He as (cs & Hcs & He).
      injection He as <-. simpl. eapply read_chunks_length; eassumption. }
    assert (Hone : (Z.to_nat (chunkCount_or_1 (metadata e)) <= 1)%nat).
    { unfold is_chunked in Hch. unfold chunkCount_or_1.
      destruct (chunkCount (metadata e)) as [n|]; [|simpl; lia].
      apply Z.ltb_ge in Hch. destruct (Z.eqb_spec n 0); lia. }
    rewrite Hc in Hlen. destruct rest as [|? ?]; [|simpl in Hlen; lia].
    exists [plaintext]. rewrite Hc. simpl.
    split; [exact He|]. split; [|now rewrite app_nil_r].
    constructor; [exact Hopen | constructor].
Qed.

Context {laws : NodeRuntimeLaws node}.


(** C9.  Decryption does not depend on the order in which the records of
    a chunked container are stored: for a container whose records carry
    distinct indices, [decryptDataChunked] returns the same on every
    permutation of the records; and the container that [encryptDataChunked]
    makes of a buffer, serialized with its records in any order, is
    decrypted by [decryptAuto] to that buffer.  [encryptDataChunked] makes
    a container of every buffer shorter than 2^31 - 1 bytes. *)
Theorem decryption_ignores_stored_order :
  (forall e stored masterKey,
      NoDup (map index (chunks e)) ->
      Permutation stored (chunks e) ->
      decryptDataChunked {| metadata := metadata e; chunks := stored |} masterKey
      = decryptDataChunked e masterKey)
  /\ (forall d masterKey chunkSize g e stored,
         fst (encryptDataChunked d masterKey chunkSize g) = Ok e ->
         blen d < 2 ^ 32 ->
         N.pos chunkSize < blen d ->
         Permutation stored (chunks e) ->
         exists buffer,
           serializeEncryptedData {| metadata := metadata e; chunks := stored |}
           = Ok buffer
           /\ decryptAuto buffer masterKey = Ok d)
  /\ (forall d masterKey chunkSize g,
         blen d < 2 ^ 31 - 1 ->
         exists e, fst (encryptDataChunked d masterKey chunkSize g) = Ok e).
Proof.
  split; [|split].
  - intros e stored masterKey Hnd HP. unfold decryptDataChunked. simpl.
    now rewrite (sort_by_index_permuted (chunks e) stored Hnd HP).
  - intros d masterKey chunkSize g e stored He Hd Hs HP.
    now apply (chunked_roundtrip d masterKey chunkSize g e stored).
  - intros d masterKey chunkSize g Hd. now apply encryptDataChunked_returns.
Qed.

End ContainerClaims.

Section ContainerWitnesses.

Import Encryption Sample.
Open Scope N_scope.

Lemma sample_container_made :
  fst (encryptDataChunked (node := Sample.runtime) sample_plaintext
                          "correct horse" 3 0)
  = Ok sample_container.
Proof. reflexivity. Qed.



Lemma decryption_ignores_stored_order_witness :
  exists buffer,
    serializeEncryptedData (node := Sample.runtime)
      {| metadata := metadata sample_container;
         chunks := rev (chunks sample_container) |}
    = Ok buffer
    /\ decryptAuto (node := Sample.runtime) buffer "correct horse"
       = Ok sample_plaintext.
Proof.
  apply (proj1 (proj2 (decryption_ignores_stored_order (laws := sample_runtime_laws)))
           sample_plaintext "correct horse"%string 3%positive 0 sample_container).
  - exact sample_container_made.
  - reflexivity.
  - reflexivity.
  - apply Permutation_sym, Permutation_rev.
Defined.

Lemma decryption_is_all_or_nothing_witness :
  exists i,
    decryptDataChunked (node := Sample.runtime) tampered_container "correct horse"
    = Err (DecryptionFailed (Some i)).
Proof.
  apply (proj1 (proj2 (proj2 (decryption_is_all_or_nothing (node := Sample.runtime)
                                "correct horse")))
           tampered_container (tamper (nth 1 (chunks sample_container)
                                           (nth 0 (chunks sample_container)
                                                {| index := 0; iv := [];
                                                   data := []; authTag := None |})))).
  - vm_compute. right. left. reflexivity.
  - vm_compute. reflexivity.
  - intros c' Hin. vm_compute in Hin.
    destruct Hin as [<-|[<-|[<-|[]]]]; vm_compute; discriminate.
Defined.

End ContainerWitnesses.

(* ================================================================== *)
(** * Property lists *)

Section PropsFacts.

Import Js.
Context {A : Type}.
Implicit Types (o : props A) (k : string) (v : A).

Lemma lookup_own o k (a : A) :
  get o k = Some a -> lookup o k = Own a.
Proof. unfold lookup. now intros ->. Qed.

Lemma lookup_missing o k :
  get o k = None -> inherited k = false -> lookup o k = Missing.
Proof. unfold lookup. now intros -> ->. Qed.

Lemma lookup_inherited o k :
  get o k = None -> inherited k = true -> lookup o k = Inherited.
Proof. unfold lookup. now intros -> ->. Qed.

Lemma has_true_iff o k : has o k = true <-> In k (keys o).
Proof.
  unfold has. induction o as [|[k' v'] o IH]; simpl.
  - split; [discriminate | contradiction].
  - destruct (String.eqb_spec k' k) as [->|NE].
    + split; auto.
    + rewrite IH. split; [auto | intros [E|H]; [contradiction | assumption]].
Qed.

Lemma has_false_iff o k : has o k = false <-> ~ In k (keys o).
Proof.
  rewrite <- has_true_iff. destruct (has o k); split; congruence.
Qed.

Lemma get_some_in o k v : get o k = Some v -> In (k, v) o.
Proof.
  induction o as [|[k' v'] o IH]; simpl; [discriminate|].
  destruct (String.eqb_spec k' k) as [->|NE].
  - intros E. injection E as ->. now left.
  - intros H. right. now apply IH.
Qed.

Lemma in_get_some o k v : NoDup (keys o) -> In (k, v) o -> get o k = Some v.
Proof.
  induction o as [|[k' v'] o IH]; simpl; intros Hnd Hin; [contradiction|].
  inversion Hnd as [|? ? Hnotin Hnd']; subst.
  destruct Hin as [E|Hin].
  - injection E as -> ->. now rewrite String.eqb_refl.
  - destruct (String.eqb_spec k' k) as [->|NE].
    + exfalso. apply Hnotin. change k with (fst (k, v)). now apply in_map.
    + now apply IH.
Qed.

Lemma keys_modify o k (f : A -> A) : keys (modify o k f) = keys o.
Proof.
  induction o as [|[k' v'] o IH]; simpl; [reflexivity|].
  destruct (k' =? k)%string; simpl; [reflexivity | now rewrite IH].
Qed.

Lemma length_modify o k (f : A -> A) : length (modify o k f) = length o.
Proof.
  rewrite <- (length_map fst (modify o k f)), <- (length_map fst o).
  change (length (keys (modify o k f)) = length (keys o)).
  now rewrite keys_modify.
Qed.

Lemma get_modify_same o k (f : A -> A) :
  get (modify o k f) k = option_map f (get o k).
Proof.
  induction o as [|[k' v'] o IH]; simpl; [reflexivity|].
  destruct (String.eqb_spec k' k) as [->|NE]; simpl.
  - now rewrite String.eqb_refl.
  - destruct (String.eqb_spec k' k); [contradiction | exact IH].
Qed.

Lemma get_modify_other o k k' (f : A -> A) :
  k' <> k -> get (modify o k f) k' = get o k'.
Proof.
  intros NE. induction o as [|[k0 v0] o IH]; simpl; [reflexivity|].
  destruct (String.eqb_spec k0 k) as [->|NE0]; simpl.
  - destruct (String.eqb_spec k k'); [congruence | reflexivity].
  - destruct (String.eqb_spec k0 k'); [reflexivity | exact IH].
Qed.

Lemma Forall_modify (P : string * A -> Prop) o k (f : A -> A) :
  (forall k0 v0, P (k0, v0) -> P (k0, f v0)) ->
  Forall P o -> Forall P (modify o k f).
Proof.
  intros Hf. induction 1 as [|[k0 v0] o H0 Ho IH]; simpl; [constructor|].
  destruct (k0 =? k)%string; constructor; auto.
Qed.

Lemma remove_absent o k : ~ In k (keys o) -> remove o k = o.
Proof.
  induction o as [|[k' v'] o IH]; simpl; intros H; [reflexivity|].
  destruct (String.eqb_spec k' k) as [->|NE].
  - exfalso. apply H. now left.
  - f_equal. apply IH. intros Hin. apply H. now right.
Qed.

Lemma length_remove o k :
  In k (keys o) -> S (length (remove o k)) = length o.
Proof.
  induction o as [|[k' v'] o IH]; simpl; intros H; [contradiction|].
  destruct (String.eqb_spec k' k) as [->|NE]; [reflexivity|].
  simpl. f_equal. apply IH. destruct H as [E|H]; [contradiction | assumption].
Qed.

Lemma in_remove o k kv : In kv (remove o k) -> In kv o.
Proof.
  induction o as [|[k' v'] o IH]; simpl; [auto|].
  destruct (k' =? k)%string; simpl; [auto|].
  intros [E|H]; [now left | right; now apply IH].
Qed.

Lemma in_keys_remove o k k' : In k' (keys (remove o k)) -> In k' (keys o).
Proof.
  unfold keys. intros H. apply in_map_iff in H as ([k0 v0] & E & Hin).
  apply in_map_iff. exists (k0, v0). split; [assumption | eapply in_remove; eassumption].
Qed.

Lemma in_keys_remove_other o k k' :
  k' <> k -> In k' (keys o) -> In k' (keys (remove o k)).
Proof.
  intros NE. induction o as [|[k0 v0] o IH]; simpl; [auto|].
  destruct (String.eqb_spec k0 k) as [->|NE0]; simpl.
  - intros [E|H]; [congruence | assumption].
  - intros [E|H]; [now left | right; now apply IH].
Qed.

Lemma NoDup_keys_remove o k : NoDup (keys o) -> NoDup (keys (remove o k)).
Proof.
  induction o as [|[k' v'] o IH]; simpl; intros Hnd; [constructor|].
  inversion Hnd as [|? ? Hnotin Hnd']; subst.
  destruct (k' =? k)%string; simpl; [assumption|].
  constructor; [|now apply IH].
  intros Hin. apply Hnotin. eapply in_keys_remove; eassumption.
Qed.

Lemma not_in_keys_remove o k : NoDup (keys o) -> ~ In k (keys (remove o k)).
Proof.
  induction o as [|[k' v'] o IH]; simpl; intros Hnd; [auto|].
  inversion Hnd as [|? ? Hnotin Hnd']; subst.
  destruct (String.eqb_spec k' k) as [->|NE]; simpl; [assumption|].
  intros [E|H]; [contradiction | now apply IH in H].
Qed.

Lemma get_remove_other o k k' : k' <> k -> get (remove o k) k' = get o k'.
Proof.
  intros NE. induction o as [|[k0 v0] o IH]; simpl; [reflexivity|].
  destruct (String.eqb_spec k0 k) as [->|NE0]; simpl.
  - destruct (String.eqb_spec k k'); [congruence | reflexivity].
  - destruct (String.eqb_spec k0 k'); [reflexivity | exact IH].
Qed.

Lemma Forall_remove (P : string * A -> Prop) o k :
  Forall P o -> Forall P (remove o k).
Proof.
  intros H. rewrite Forall_forall in *. intros kv Hin. apply H.
  eapply in_remove; eassumption.
Qed.

Lemma place_index_perm n k v o : Permutation (place_index n k v o) ((k, v) :: o).
Proof.
  induction o as [|[k' v'] o IH]; simpl.
  - apply Permutation_refl.
  - destruct (array_index k') as [m|]; [|apply Permutation_refl].
    destruct (m <? n)%N; [|apply Permutation_refl].
    eapply perm_trans; [apply perm_skip, IH | apply perm_swap].
Qed.

(** Setting a key the object does not have adds one property. *)
Lemma set_new_perm o k v : has o k = false -> Permutation (set o k v) ((k, v) :: o).
Proof.
  intros H. unfold set. rewrite H.
  destruct (array_index k) as [n|].
  - apply place_index_perm.
  - apply Permutation_sym, Permutation_cons_append.
Qed.

Lemma replace_prop_modify o k v : replace_prop o k v = modify o k (fun _ => v).
Proof.
  induction o as [|[k' v'] o IH]; simpl; [reflexivity|].
  destruct (k' =? k)%string; [reflexivity | now rewrite IH].
Qed.


Lemma set_length_old o k v : has o k = true -> length (set o k v) = length o.
Proof.
  intros H. unfold set. rewrite H, replace_prop_modify. apply length_modify.
Qed.

Lemma keys_set_new_perm o k v :
  has o k = false -> Permutation (keys (set o k v)) (k :: keys o).
Proof.
  intros H. unfold keys.
  change (k :: map fst o) with (map fst ((k, v) :: o)).
  now apply Permutation_map, set_new_perm.
Qed.


End PropsFacts.

(* ================================================================== *)
(** * find *)

Section FindFacts.

Import Js Store.
Context {engine : RegExp}.
Open Scope Z_scope.

Lemma filter_res_ok {A : Type} (f : A -> res bool) (l : list A) :
  forall kept, filter_res f l = Ok kept ->
               kept = filter (fun x => match f x with Ok true => true | _ => false end) l.
Proof.
  induction l as [|x l IH]; intros kept H.
  - injection H as <-. reflexivity.
  - cbn [filter_res] in H.
    apply bind_ok in H as (keep & Hk & H).
    apply bind_ok in H as (rest & Hr & H).
    injection H as <-. simpl. rewrite Hk, (IH rest Hr).
    now destruct keep.
Qed.

Lemma filter_res_total {A : Type} (f : A -> res bool) (l : list A) :
  (forall x, In x l -> is_ok (f x) = true) ->
  exists kept, filter_res f l = Ok kept.
Proof.
  induction l as [|x l IH]; intros H.
  - simpl. eauto.
  - cbn [filter_res].
    pose proof (H x (or_introl eq_refl)) as Hx.
    destruct (f x) as [keep|]; [|discriminate].
    destruct IH as [kept ->]; [intros; apply H; now right|].
    simpl. eauto.
Qed.

Lemma filter_res_err {A : Type} (f : A -> res bool) (l : list A) (e : error) :
  filter_res f l = Err e -> exists x, In x l /\ f x = Err e.
Proof.
  induction l as [|x l IH]; intros H; [discriminate|].
  cbn [filter_res] in H.
  destruct (f x) as [keep|e'] eqn:Ex.
  - simpl in H. destruct (filter_res f l) as [kept|e''] eqn:El.
    + discriminate.
    + simpl in H. injection H as ->. destruct IH as (y & Hy & Ey); [reflexivity|].
      exists y. split; [now right | assumption].
  - simpl in H. injection H as ->. exists x. split; [now left | assumption].
Qed.

Lemma in_firstn {A : Type} (n : nat) (l : list A) (x : A) :
  In x (firstn n l) -> In x l.
Proof.
  intros H. rewrite <- (firstn_skipn n l). apply in_or_app. now left.
Qed.

Lemma in_skipn {A : Type} (n : nat) (l : list A) (x : A) :
  In x (skipn n l) -> In x l.
Proof.
  intros H. rewrite <- (firstn_skipn n l). apply in_or_app. now right.
Qed.

Lemma incl_js_slice {A : Type} (l : list A) (a b : Z) : incl (js_slice l a b) l.
Proof.
  unfold js_slice. intros x H.
  apply in_firstn in H. eapply in_skipn; eassumption.
Qed.

Lemma sort_insert_perm (cmp : Document -> Document -> Z) (x : Document)
    (l : list Document) : Permutation (sort_insert cmp x l) (x :: l).
Proof.
  induction l as [|y l IH]; simpl.
  - apply Permutation_refl.
  - destruct (0 <? cmp x y).
    + eapply perm_trans; [apply perm_skip, IH | apply perm_swap].
    + apply Permutation_refl.
Qed.

Lemma sortDocuments_perm (l : list Document) (s : list (string * Z)) :
  Permutation (sortDocuments l s) l.
Proof.
  unfold sortDocuments. induction l as [|x l IH]; simpl.
  - apply perm_nil.
  - eapply perm_trans; [apply sort_insert_perm | now apply perm_skip].
Qed.

Lemma applyProjection_length (results : list obj) (p : Projection) :
  length (applyProjection results p) = length results.
Proof. destruct p; simpl; apply length_map. Qed.

Lemma query_projection_length (query : option FindQuery) (results : list obj) :
  length (query_projection query results) = length results.
Proof.
  unfold query_projection.
  destruct (query_options query) as [[? ? ? [p|] ?]|]; try reflexivity.
  apply applyProjection_length.
Qed.

Lemma page_of_incl (query : option FindQuery) (kept : list Document) :
  incl (page_of query kept) kept.
Proof.
  unfold page_of.
  set (sorted := match query_options query with
                 | Some {| sort := Some s |} => sortDocuments kept s
                 | _ => kept
                 end).
  assert (Hs : incl sorted kept).
  { unfold sorted. destruct (query_options query) as [[[s|] ? ? ? ?]|];
      try apply incl_refl.
    intros x Hx. eapply Permutation_in; [apply sortDocuments_perm | exact Hx]. }
  set (skipped := if 0 <? query_skip query
                  then js_slice sorted (query_skip query) (Z.of_nat (length sorted))
                  else sorted).
  assert (Hk : incl skipped kept).
  { unfold skipped. destruct (0 <? query_skip query); [|assumption].
    eapply incl_tran; [apply incl_js_slice | assumption]. }
  destruct (query_options query) as [[? [n|] ? ? ?]|]; try assumption.
  destruct (n =? 0); [assumption|].
  eapply incl_tran; [apply incl_js_slice | assumption].
Qed.

Lemma find_unfold (collection : Collection) (query : option FindQuery) :
  find collection query
  = (matched <- filter_res (selects (query_where query))
                           (values (documents collection)) ;;
     let kept := filter (visible query) matched in
     let page := page_of query kept in
     Ok {| find_success := true;
           find_data := query_projection query (map result_of page);
           totalCount := Z.of_nat (length kept);
           hasMore := (query_skip query + Z.of_nat (length page)
                       <? Z.of_nat (length kept)) |}).
Proof.
  unfold find, page_of, query_projection, query_skip, visible, query_includeDeleted,
    query_options, query_where, selects.
  destruct query as [[w o]|]; cbn [where_ options].
  - assert (E : forall docs : list Document,
               match w with
               | Some w0 =>
                   if truthy w0
                   then filter_res (fun doc => matchesQuery (VObj (data doc)) w0) docs
                   else Ok docs
               | None => Ok docs
               end
               = filter_res (fun doc =>
                               match w with
                               | Some w0 => if truthy w0
                                            then matchesQuery (VObj (data doc)) w0
                                            else Ok true
                               | None => Ok true
                               end) docs).
    { intros docs. destruct w as [w0|].
      - destruct (truthy w0); [reflexivity|].
        induction docs as [|d docs IH]; [reflexivity|].
        cbn [filter_res bind]. now rewrite <- IH.
      - induction docs as [|d docs IH]; [reflexivity|].
        cbn [filter_res bind]. now rewrite <- IH. }
    rewrite E.
    destruct (filter_res _ (values (documents collection))) as [matched|e];
      [|reflexivity].
    cbn [bind].
    destruct o as [[so li sk pr inc]|]; cbn [sort limit skip projection includeDeleted].
    + destruct (flag inc) eqn:Hinc; cbn [orb].
      * assert (Ef : filter (fun _ : Document => true) matched = matched).
        { clear. induction matched; simpl; congruence. }
        rewrite Ef. reflexivity.
      * reflexivity.
    + cbn [flag orb]. reflexivity.
  - assert (E : forall docs : list Document,
               filter_res (fun _ : Document => Ok true) docs = Ok docs).
    { induction docs as [|d docs IH]; [reflexivity|].
      cbn [filter_res bind]. now rewrite IH. }
    rewrite E. cbn [bind flag orb]. reflexivity.
Qed.

Lemma filter_filter_andb {A : Type} (f g : A -> bool) (l : list A) :
  filter g (filter f l) = filter (fun x => f x && g x) l.
Proof.
  induction l as [|x l IH]; simpl; [reflexivity|].
  destruct (f x); simpl; [destruct (g x)|]; now rewrite IH.
Qed.

(** C8.  [find] returns documents of the collection that pass the
    predicate and are visible (not soft-deleted, unless the query has
    [includeDeleted]); [totalCount] is the number of such documents before
    skip and limit; [hasMore] is [skip + returnedCount < totalCount].  Over
    the documents a (x:1), b (x:5) and the soft-deleted c (x:10), the query
    [{where: {x: {$gte: 5}}}] returns b only, with [totalCount = 1] and
    [hasMore = false]. *)
Theorem find_counts_before_paging (collection : Collection)
    (query : option FindQuery) :
  (forall doc, In doc (values (documents collection)) ->
               is_ok (selects (query_where query) doc) = true) ->
  exists r page,
    find collection query = Ok r
    /\ find_data r = query_projection query (map result_of page)
    /\ (forall doc, In doc page ->
                    In doc (values (documents collection))
                    /\ passes (query_where query) doc = true
                    /\ visible query doc = true)
    /\ totalCount r
       = Z.of_nat (length (filter (fun doc => passes (query_where query) doc
                                              && visible query doc)
                                  (values (documents collection))))
    /\ hasMore r
       = (query_skip query + Z.of_nat (length (find_data r)) <? totalCount r)
    /\ find example_collection (Some example_query)
       = Ok {| find_success := true;
               find_data := [[("_id", VStr "b"); ("x", VNum 5)]];
               totalCount := 1;
               hasMore := false |}.
Proof.
  intros Hev. rewrite find_unfold.
  destruct (filter_res_total (selects (query_where query))
              (values (documents collection)) Hev) as [matched Hm].
  rewrite Hm. cbn [bind].
  apply filter_res_ok in Hm. fold (passes (query_where query)) in Hm.
  set (kept := filter (visible query) matched).
  assert (Hkept : kept = filter (fun doc => passes (query_where query) doc
                                            && visible query doc)
                               (values (documents collection))).
  { unfold kept. rewrite Hm. apply filter_filter_andb. }
  eexists. exists (page_of query kept).
  split; [reflexivity|]. cbn [find_data totalCount hasMore].
  split; [reflexivity|].
  split.
  { intros doc Hin. apply page_of_incl in Hin. rewrite Hkept in Hin.
    apply filter_In in Hin as (Hin & Hb). apply andb_prop in Hb. tauto. }
  split; [now rewrite Hkept|].
  split; [now rewrite query_projection_length, length_map|].
  reflexivity.
Qed.

End FindFacts.

Section FindWitness.

Import Js Store.
Open Scope Z_scope.

Lemma find_counts_before_paging_witness :
  exists r page,
    find (engine := Sample.literal_regexp) example_collection (Some example_query)
    = Ok r
    /\ find_data r = query_projection (Some example_query) (map result_of page)
    /\ (forall doc, In doc page ->
                    In doc (values (documents example_collection))
                    /\ passes (engine := Sample.literal_regexp)
                              (query_where (Some example_query)) doc = true
                    /\ visible (Some example_query) doc = true)
    /\ totalCount r
       = Z.of_nat (length (filter (fun doc =>
                                     passes (engine := Sample.literal_regexp)
                                            (query_where (Some example_query)) doc
                                     && visible (Some example_query) doc)
                                  (values (documents example_collection))))
    /\ hasMore r
       = (query_skip (Some example_query) + Z.of_nat (length (find_data r))
          <? totalCount r)
    /\ find (engine := Sample.literal_regexp) example_collection (Some example_query)
       = Ok {| find_success := true;
               find_data := [[("_id", VStr "b"); ("x", VNum 5)]];
               totalCount := 1;
               hasMore := false |}.
Proof.
  apply (find_counts_before_paging (engine := Sample.literal_regexp)
           example_collection (Some example_query)).
  intros doc Hin. simpl in Hin.
  destruct Hin as [<-|[<-|[<-|[]]]]; reflexivity.
Defined.

End FindWitness.

(* ================================================================== *)
(** * update and delete *)

Section UpdateDeleteFacts.

Import Js Store.
Context {engine : RegExp}.
Open Scope Z_scope.

Lemma live_matches_ok (collection : Collection) (where_ : value)
    (matched : list (string * Document)) :
  live_matches collection where_ = Ok matched ->
  matched = filter (live_match where_) (documents collection).
Proof.
  intros H. unfold live_matches in H. apply filter_res_ok in H. rewrite H.
  apply filter_ext. intros [k d]. unfold live_match. cbn [snd].
  destruct (deleted (_meta d)); reflexivity.
Qed.

Lemma live_matches_total (collection : Collection) (where_ : value) :
  evaluates collection where_ ->
  live_matches collection where_
  = Ok (filter (live_match where_) (documents collection)).
Proof.
  intros Hev.
  destruct (filter_res_total
              (fun kd : string * Document =>
                 if deleted (_meta (snd kd)) then Ok false
                 else matchesQuery (VObj (data (snd kd))) where_)
              (documents collection)) as [matched Hm].
  - intros kd Hin. destruct (deleted (_meta (snd kd))) eqn:Hd; [reflexivity|].
    now apply Hev.
  - change (live_matches collection where_ = Ok matched) in Hm.
    rewrite Hm. f_equal. now apply live_matches_ok.
Qed.

Lemma live_match_live (where_ : value) (kd : string * Document) :
  live_match where_ kd = true -> deleted (_meta (snd kd)) = false.
Proof.
  unfold live_match. intros H. apply andb_prop in H as [H _].
  now destruct (deleted (_meta (snd kd))).
Qed.











End UpdateDeleteFacts.

Section UpdateWitness.

Import Js Store.
Open Scope Z_scope.



End UpdateWitness.

(* ================================================================== *)
(** * The document count *)

Section CountFacts.

Import Js Store.
Context {engine : RegExp}.
Open Scope Z_scope.

Lemma well_formed_intro (c : Collection) :
  NoDup (keys (documents c)) -> Forall own_id (documents c) ->
  documentCount (collection_meta c) = Z.of_nat (length (documents c)) ->
  well_formed c.
Proof. intros. unfold well_formed. auto. Qed.




Lemma touch_applyUpdate_id (now : Z) (data_ : obj) (d : Document) :
  _id (touch now (applyUpdate d data_)) = _id d.
Proof. reflexivity. Qed.


Lemma length_keys {A : Type} (o : props A) : length (keys o) = length o.
Proof. apply length_map. Qed.

(** Filtering the entries of a map keeps its keys distinct. *)
Lemma NoDup_keys_filter {A : Type} (keep : string * A -> bool) (o : props A) :
  NoDup (keys o) -> NoDup (keys (filter keep o)).
Proof.
  unfold keys. induction o as [|kv o IH]; simpl; intros H; [constructor|].
  apply NoDup_cons_iff in H as [Hkv Ho].
  destruct (keep kv); simpl; [|auto].
  apply NoDup_cons; [|auto].
  intros Hin. apply Hkv. apply in_map_iff in Hin as (y & Ey & Hy).
  apply filter_In in Hy as [Hy _]. rewrite <- Ey. now apply in_map.
Qed.

(** The loop of [delete] keeps the count and the map in step. *)
Lemma delete_loop_spec (hard multi : bool) (now : Z)
    (matched : list (string * Document)) :
  forall docs count n,
    NoDup (keys docs) ->
    Forall own_id matched ->
    NoDup (map fst matched) ->
    incl (map fst matched) (keys docs) ->
    let '(docs', count', n') := delete_loop matched docs count hard multi now n in
    NoDup (keys docs')
    /\ (Forall own_id docs -> Forall own_id docs')
    /\ count' - Z.of_nat (length docs') = count - Z.of_nat (length docs)
    /\ (if hard then Z.of_nat (length docs') = Z.of_nat (length docs) - (n' - n)
        else keys docs' = keys docs /\ count' = count).
Proof.
  induction matched as [|[key d] rest IH]; intros docs count n Hnd Hown Hkeys Hincl.
  - simpl. repeat split; auto. destruct hard; [lia | auto].
  - cbn [delete_loop].
    apply Forall_cons_iff in Hown as [Hd Hown']. unfold own_id in Hd. cbn in Hd.
    cbn [map fst] in Hkeys. apply NoDup_cons_iff in Hkeys as [Hkey Hkeys'].
    assert (Hin : In key (keys docs)) by (apply Hincl; now left).
    destruct hard.
    + rewrite Hd.
      pose proof (length_remove docs key Hin) as Hlen.
      assert (Hnd1 : NoDup (keys (remove docs key))) by now apply NoDup_keys_remove.
      assert (Hincl1 : incl (map fst rest) (keys (remove docs key))).
      { intros k Hk. apply in_keys_remove_other.
        - intros ->. contradiction.
        - apply Hincl. now right. }
      destruct multi.
      * specialize (IH (remove docs key) (count - 1) (n + 1) Hnd1 Hown' Hkeys' Hincl1).
        destruct (delete_loop rest (remove docs key) (count - 1) true true now (n + 1))
          as [[docs' count'] n'].
        destruct IH as (H1 & H2 & H3 & H4).
        repeat split; try assumption.
        -- intros H. apply H2. now apply Forall_remove.
        -- lia.
        -- lia.
      * repeat split; try assumption.
        -- now apply Forall_remove.
        -- lia.
        -- lia.
    + assert (Hnd1 : NoDup (keys (modify docs key (mark_deleted now))))
        by now rewrite keys_modify.
      assert (Hincl1 : incl (map fst rest) (keys (modify docs key (mark_deleted now))))
        by (rewrite keys_modify; intros k Hk; apply Hincl; now right).
      assert (Hown1 : Forall own_id docs ->
                      Forall own_id (modify docs key (mark_deleted now))).
      { apply Forall_modify. intros k0 v0 H. exact H. }
      destruct multi.
      * specialize (IH (modify docs key (mark_deleted now)) count (n + 1)
                       Hnd1 Hown' Hkeys' Hincl1).
        destruct (delete_loop rest (modify docs key (mark_deleted now)) count
                              false true now (n + 1)) as [[docs' count'] n'].
        destruct IH as (H1 & H2 & H3 & H4 & H5).
        rewrite length_modify in H3. rewrite keys_modify in H4.
        repeat split; auto.
      * rewrite length_modify. repeat split; auto. apply keys_modify.
Qed.

Lemma live_matches_shape (c : Collection) (where_ : value)
    (matched : list (string * Document)) :
  NoDup (keys (documents c)) -> Forall own_id (documents c) ->
  live_matches c where_ = Ok matched ->
  Forall own_id matched /\ NoDup (map fst matched)
  /\ incl (map fst matched) (keys (documents c)).
Proof.
  intros Hnd Hown H. apply live_matches_ok in H. subst matched.
  split; [|split].
  - rewrite Forall_forall in *. intros kd Hin. apply Hown.
    now apply filter_In in Hin.
  - now apply NoDup_keys_filter.
  - intros k Hk. apply in_map_iff in Hk as (kd & E & Hin).
    apply filter_In in Hin as [Hin _]. rewrite <- E. now apply in_map.
Qed.

(** What [delete] does to the map and the count. *)
Lemma delete_ok (c : Collection) (where_ : value) (options : option DeleteOptions)
    (now : Z) (c' : Collection) (r : DeleteResult) :
  NoDup (keys (documents c)) -> Forall own_id (documents c) ->
  delete c where_ options now = Ok (c', r) ->
  NoDup (keys (documents c'))
  /\ Forall own_id (documents c')
  /\ documentCount (collection_meta c') - Z.of_nat (length (documents c'))
     = documentCount (collection_meta c) - Z.of_nat (length (documents c))
  /\ (if flag (match options with Some o => hard o | None => None end)
      then Z.of_nat (length (documents c'))
           = Z.of_nat (length (documents c)) - deletedCount r
      else keys (documents c') = keys (documents c)
           /\ documentCount (collection_meta c') = documentCount (collection_meta c)).
Proof.
  intros Hnd Hown H. unfold delete in H.
  apply bind_ok in H as (matched & Hm & H).
  destruct (live_matches_shape c where_ matched Hnd Hown Hm) as (M1 & M2 & M3).
  pose proof (delete_loop_spec
                (flag (match options with Some o => hard o | None => None end))
                (flag (match options with Some o => delete_multi o | None => None end))
                now matched (documents c) (documentCount (collection_meta c)) 0
                Hnd M1 M2 M3) as Hloop.
  destruct (delete_loop matched (documents c) (documentCount (collection_meta c))
              (flag (match options with Some o => hard o | None => None end))
              (flag (match options with Some o => delete_multi o | None => None end))
              now 0) as [[docs' count'] n'].
  injection H as <- <-.
  destruct Hloop as (H1 & H2 & H3 & H4).
  cbn [documents collection_meta deletedCount].
  assert (Hcount : documentCount
                     (if 0 <? n'
                      then set_modifiedAt now
                             {| collection_createdAt :=
                                  collection_createdAt (collection_meta c);
                                modifiedAt := modifiedAt (collection_meta c);
                                documentCount := count' |}
                      else {| collection_createdAt :=
                                collection_createdAt (collection_meta c);
                              modifiedAt := modifiedAt (collection_meta c);
                              documentCount := count' |}) = count')
    by (destruct (0 <? n'); reflexivity).
  rewrite Hcount.
  repeat split; auto.
  destruct (flag (match options with Some o => hard o | None => None end)).
  - lia.
  - exact H4.
Qed.






Lemma get_none {A : Type} (o : props A) (k : string) :
  ~ In k (keys o) -> get o k = None.
Proof.
  intros H. destruct (get o k) as [v|] eqn:E; [|reflexivity].
  exfalso. apply H. apply get_some_in in E.
  change k with (fst (k, v)). now apply in_map.
Qed.

End CountFacts.

(* ================================================================== *)
(** * Claims about the collection *)

Section CollectionClaims.

Import Js Store.
Context {engine : RegExp}.
Open Scope Z_scope.


Lemma delete_loop_other (hard_ multi : bool) (now : Z) (id : string)
    (matched : list (string * Document)) :
  forall docs count n,
    Forall own_id matched -> ~ In id (map fst matched) ->
    get (fst (fst (delete_loop matched docs count hard_ multi now n))) id
    = get docs id.
Proof.
  induction matched as [|[key d] rest IH]; intros docs count n Hown Hid.
  - reflexivity.
  - cbn [delete_loop].
    apply Forall_cons_iff in Hown as [Hd Hown']. unfold own_id in Hd. cbn in Hd.
    assert (NE : id <> key) by (intros ->; apply Hid; now left).
    assert (Hid' : ~ In id (map fst rest)) by (intros H; apply Hid; now right).
    destruct hard_.
    + rewrite Hd. destruct multi.
      * rewrite IH by assumption. now apply get_remove_other.
      * cbn [fst]. now apply get_remove_other.
    + destruct multi.
      * rewrite IH by assumption. now apply get_modify_other.
      * cbn [fst]. now apply get_modify_other.
Qed.

Lemma delete_loop_removes_all (now : Z) (matched : list (string * Document)) :
  forall docs count n,
    NoDup (keys docs) -> Forall own_id matched ->
    forall k,
      In k (keys (fst (fst (delete_loop matched docs count true true now n)))) ->
      In k (keys docs) /\ ~ In k (map fst matched).
Proof.
  induction matched as [|[key d] rest IH]; intros docs count n Hnd Hown k Hk.
  - simpl in *. auto.
  - cbn [delete_loop] in Hk.
    apply Forall_cons_iff in Hown as [Hd Hown']. unfold own_id in Hd. cbn in Hd.
    rewrite Hd in Hk.
    apply IH in Hk as [Hk Hrest];
      [|now apply NoDup_keys_remove | assumption].
    split; [eapply in_keys_remove; eassumption|].
    cbn [map fst]. intros [E|H]; [|contradiction].
    subst k. now apply (not_in_keys_remove docs key Hnd).
Qed.

(** C5 (amended).  A hard delete removes an entry and decrements
    [documentCount] only for a document that is not soft-deleted:
    [deleteById] with [hard = true] on such an id removes its entry and
    takes one from the count, and [delete] with [hard] and [multi] removes
    every live match.  A soft-deleted document is out of reach of both:
    [deleteById] answers "Document not found" and leaves the collection as
    it is, and [delete] never removes its entry, whatever the predicate and
    the options. *)
Theorem hard_delete_reaches_live_documents_only (c : Collection) (id : string)
    (doc : Document) :
  well_formed c ->
  get (documents c) id = Some doc ->
  (deleted (_meta doc) = true ->
   (forall hard_ now, deleteById c id hard_ now = Ok (c, delete_not_found))
   /\ (forall where_ options now c' r,
          delete c where_ options now = Ok (c', r) ->
          get (documents c') id = Some doc))
  /\ (deleted (_meta doc) = false ->
      (forall now,
          exists c',
            deleteById c id true now
            = Ok (c', {| delete_success := true; delete_error := None;
                         deletedCount := 1 |})
            /\ get (documents c') id = None
            /\ S (length (documents c')) = length (documents c)
            /\ documentCount (collection_meta c')
               = documentCount (collection_meta c) - 1)
      /\ (forall where_ now,
             evaluates c where_ ->
             live_match where_ (id, doc) = true ->
             exists c' r,
               delete c where_
                      (Some {| hard := Some true; delete_multi := Some true |}) now
               = Ok (c', r)
               /\ get (documents c') id = None
               /\ Z.of_nat (length (documents c'))
                  = Z.of_nat (length (documents c)) - deletedCount r
               /\ documentCount (collection_meta c')
                  = documentCount (collection_meta c) - deletedCount r)).
Proof.
  intros (Hnd & Hown & Hcount) Hget.
  assert (Hin : In (id, doc) (documents c)) by now apply get_some_in.
  split.
  - intros Hdel. split.
    + intros hard_ now. unfold deleteById, lookup. now rewrite Hget, Hdel.
    + intros where_ options now c' r H.
      unfold delete in H. apply bind_ok in H as (matched & Hm & H).
      destruct (live_matches_shape c where_ matched Hnd Hown Hm) as (M1 & _ & _).
      assert (Hid : ~ In id (map fst matched)).
      { apply live_matches_ok in Hm. subst matched. intros Hk.
        apply in_map_iff in Hk as ([k d] & E & Hf). cbn in E. subst k.
        apply filter_In in Hf as [Hf Hlive].
        apply (in_get_some _ _ _ Hnd) in Hf. rewrite Hget in Hf.
        injection Hf as <-. apply live_match_live in Hlive. cbn in Hlive.
        congruence. }
      pose proof (delete_loop_other
                    (flag (match options with Some o => hard o | None => None end))
                    (flag (match options with Some o => delete_multi o | None => None end))
                    now id matched (documents c)
                    (documentCount (collection_meta c)) 0 M1 Hid) as Hkeep.
      destruct (delete_loop matched (documents c) (documentCount (collection_meta c))
                  (flag (match options with Some o => hard o | None => None end))
                  (flag (match options with Some o => delete_multi o | None => None end))
                  now 0) as [[docs' count'] n'].
      injection H as <- <-. cbn [documents fst] in *. now rewrite Hkeep.
  - intros Hlive. split.
    + intros now. unfold deleteById, lookup. rewrite Hget, Hlive.
      eexists. split; [reflexivity|]. cbn [documents collection_meta].
      split; [apply get_none, not_in_keys_remove, Hnd|].
      split.
      * apply length_remove. change id with (fst (id, doc)). now apply in_map.
      * cbn [set_modifiedAt add_documentCount documentCount]. lia.
    + intros where_ now Hev Hmatch.
      destruct (delete c where_
                  (Some {| hard := Some true; delete_multi := Some true |}) now)
        as [[c' r]|e] eqn:E.
      * exists c', r. split; [reflexivity|].
        pose proof (delete_ok c where_ _ now c' r Hnd Hown E) as (_ & _ & H3 & H4).
        cbn [flag hard] in H4.
        split; [|split; [exact H4 | lia]].
        unfold delete in E. rewrite (live_matches_total c where_ Hev) in E.
        cbn [bind flag hard delete_multi] in E.
        pose proof (delete_loop_removes_all now
                      (filter (live_match where_) (documents c)) (documents c)
                      (documentCount (collection_meta c)) 0 Hnd) as Hall.
        destruct (delete_loop (filter (live_match where_) (documents c))
                    (documents c) (documentCount (collection_meta c))
                    true true now 0) as [[docs' count'] n'].
        injection E as <- <-. cbn [documents fst] in *.
        apply get_none. intros Hk. apply Hall in Hk as [_ Hk].
        { apply Hk. change id with (fst (id, doc)). apply in_map.
          apply filter_In. split; assumption. }
        { rewrite Forall_forall in *. intros kd Hkd. apply Hown.
          now apply filter_In in Hkd. }
      * exfalso. unfold delete in E.
        rewrite (live_matches_total c where_ Hev) in E. cbn [bind] in E.
        destruct (delete_loop _ _ _ _ _ _ _) as [[? ?] ?]. discriminate.
Qed.

(** C6 (amended).  [updateById] and [deleteById] on an id that is
    soft-deleted, or that is absent and none of the names [Object.prototype]
    defines, do not throw: they return [success = false] with the error
    "Document not found" and zero counts, and leave the collection
    unchanged.  On an absent id that [Object.prototype] defines
    ("constructor", "toString", ...) they throw a TypeError.  [update] and
    [delete] by predicate with no live matching document return
    [success = true] with zero counts and leave the collection unchanged.
    [insert] with an id already present throws DUPLICATE_ID.  A method on
    a collection that does not exist throws COLLECTION_NOT_FOUND, and a
    TypeError when the name is one that [Object.prototype] defines. *)
Theorem missing_documents_are_reported_not_thrown :
  (forall c id data_ now,
      (forall d, get (documents c) id = Some d -> deleted (_meta d) = true) ->
      (get (documents c) id = None -> inherited id = false) ->
      updateById c id data_ now = Ok (c, update_not_found))
  /\ (forall c id hard_ now,
         (forall d, get (documents c) id = Some d -> deleted (_meta d) = true) ->
         (get (documents c) id = None -> inherited id = false) ->
         deleteById c id hard_ now = Ok (c, delete_not_found))
  /\ (forall c id data_ hard_ now,
         get (documents c) id = None ->
         inherited id = true ->
         updateById c id data_ now = Err TypeError
         /\ deleteById c id hard_ now = Err TypeError)
  /\ (forall c where_ data_ options now,
         evaluates c where_ ->
         filter (live_match where_) (documents c) = [] ->
         update c where_ data_ options now
         = Ok (c, {| update_success := true; update_error := None;
                     matchedCount := 0; modifiedCount := 0 |}))
  /\ (forall c where_ options now,
         evaluates c where_ ->
         filter (live_match where_) (documents c) = [] ->
         delete c where_ options now
         = Ok (c, {| delete_success := true; delete_error := None;
                     deletedCount := 0 |}))
  /\ (forall c ref data_ id generated now,
         id <> ""%string ->
         has (documents c) id = true ->
         insert c ref data_ (Some id) generated now
         = Err (BloobyError "DUPLICATE_ID"))
  /\ (forall db name_ (R : Type) (method : Collection -> res (Collection * R)),
         get (collections db) name_ = None ->
         in_collection db name_ method
         = if inherited name_ then Err TypeError
           else Err (BloobyError "COLLECTION_NOT_FOUND")).
Proof.
  split.
  { intros c id data_ now H Hname. unfold updateById, lookup.
    destruct (get (documents c) id) as [d|].
    - now rewrite (H d eq_refl).
    - now rewrite (Hname eq_refl). }
  split.
  { intros c id hard_ now H Hname. unfold deleteById, lookup.
    destruct (get (documents c) id) as [d|].
    - now rewrite (H d eq_refl).
    - now rewrite (Hname eq_refl). }
  split.
  { intros c id data_ hard_ now Hget Hname. unfold updateById, deleteById, lookup.
    rewrite Hget, Hname. split; reflexivity. }
  split.
  { intros c where_ data_ options now Hev Hnone. unfold update.
    rewrite (live_matches_total c where_ Hev), Hnone. cbn.
    now destruct c. }
  split.
  { intros c where_ options now Hev Hnone. unfold delete.
    rewrite (live_matches_total c where_ Hev), Hnone. cbn.
    destruct c as [n d [a b k]]. reflexivity. }
  split.
  { intros c ref data_ id generated now Hid Hhas. unfold insert.
    destruct (String.eqb_spec id ""); [contradiction|].
    now rewrite Hhas. }
  intros db name_ R method Hget. unfold in_collection, getCollection, lookup.
  rewrite Hget. now destruct (inherited name_).
Qed.

(** C2 at its failing input.  [{$inc: {x: 3}}] has no [$set] key, so
    [applyUpdate] takes the plain-merge branch: [x] stays 1 and the
    document gains a field named [$inc]; [update] still bumps the version
    from 1 to 2. *)
Theorem inc_without_set_is_merged_as_a_field :
  applyUpdate (example_document "a" 1 false) inc_x_by_3
  = {| _id := "a";
       data := [("x", VNum 1); ("$inc", VObj [("x", VNum 3)])];
       data_ref := data_ref (example_document "a" 1 false);
       _meta := _meta (example_document "a" 1 false) |}
  /\ (exists c r,
         update example_collection (VObj [("x", VNum 1)]) inc_x_by_3 None 7
         = Ok (c, r)
         /\ option_map data (get (documents c) "a")
            = Some [("x", VNum 1); ("$inc", VObj [("x", VNum 3)])]
         /\ option_map (fun d => version (_meta d)) (get (documents c) "a") = Some 2)
  /\ data (applyUpdate (example_document "a" 1 false)
                       (("$set", VObj []) :: inc_x_by_3))
     = [("x", VNum 4)].
Proof.
  split; [reflexivity|].
  split; [|reflexivity].
  eexists. eexists. split; [reflexivity|]. split; reflexivity.
Qed.

(** C3 at its failing input.  [matchesQuery] returns at the first logical
    key it meets: on data [{x: 1}] the map [{$and: [], x: 5}] matches
    although its key [x] alone does not, and the same two keys in the
    other order do not match. *)
Theorem logical_key_ends_the_match :
  matchesQuery (VObj [("x", VNum 1)]) (VObj [("$and", VArr []); ("x", VNum 5)])
  = Ok true
  /\ matchesQuery (VObj [("x", VNum 1)]) (VObj [("$and", VArr [])]) = Ok true
  /\ matchesQuery (VObj [("x", VNum 1)]) (VObj [("x", VNum 5)]) = Ok false
  /\ matchesQuery (VObj [("x", VNum 1)]) (VObj [("x", VNum 5); ("$and", VArr [])])
     = Ok false.
Proof. repeat split; reflexivity. Qed.

End CollectionClaims.

Section CollectionWitnesses.

Import Js Store.
Open Scope Z_scope.

Lemma example_collection_well_formed : well_formed example_collection.
Proof.
  apply well_formed_intro.
  - simpl. repeat constructor; simpl; intuition discriminate.
  - repeat constructor.
  - reflexivity.
Qed.

(** C5, as stated, fails.  The document c of the example is soft-deleted:
    [deleteById] with [hard = true] answers "Document not found" and
    changes nothing, and a hard [delete] of all documents whose predicate
    matches c removes a and b and leaves the entry of c in the map. *)
Lemma hard_delete_skips_soft_deleted :
  deleteById example_collection "c" true 9 = Ok (example_collection, delete_not_found)
  /\ exists c' r,
       delete (engine := Sample.literal_regexp) example_collection
              (VObj [("x", VObj [("$gte", VNum 1)])])
              (Some {| hard := Some true; delete_multi := Some true |}) 9
       = Ok (c', r)
       /\ deletedCount r = 2
       /\ get (documents c') "c" = Some (example_document "c" 10 true)
       /\ documentCount (collection_meta c') = 1.
Proof.
  split; [reflexivity|].
  eexists. eexists. split; [reflexivity|]. repeat split.
Qed.

Lemma hard_delete_reaches_live_documents_only_witness :
  deleteById example_collection "c" true 9 = Ok (example_collection, delete_not_found).
Proof.
  apply (proj1 (proj1 (hard_delete_reaches_live_documents_only
                         (engine := Sample.literal_regexp)
                         example_collection "c" (example_document "c" 10 true)
                         example_collection_well_formed eq_refl)
                      eq_refl)).
Defined.

(** C6, as stated, fails.  No document of the example has x = 999:
    [update] and [delete] with that predicate return [success = true]
    with zero counts, and [updateById] on an id that does not exist
    returns a result with [success = false]; nothing is thrown. *)
Lemma no_match_is_a_silent_success :
  update (engine := Sample.literal_regexp) example_collection
         (VObj [("x", VNum 999)]) [("y", VNum 1)] None 9
  = Ok (example_collection,
        {| update_success := true; update_error := None;
           matchedCount := 0; modifiedCount := 0 |})
  /\ delete (engine := Sample.literal_regexp) example_collection
            (VObj [("x", VNum 999)]) None 9
     = Ok (example_collection,
           {| delete_success := true; delete_error := None; deletedCount := 0 |})
  /\ updateById example_collection "nobody" [("y", VNum 1)] 9
     = Ok (example_collection, update_not_found).
Proof. repeat split. Qed.

Lemma missing_documents_are_reported_not_thrown_witness :
  insert example_collection 7 [("x", VNum 2)] (Some "a") "g0" 9
  = Err (BloobyError "DUPLICATE_ID").
Proof.
  apply (proj1 (proj2 (proj2 (proj2 (proj2 (proj2
           (missing_documents_are_reported_not_thrown
              (engine := Sample.literal_regexp)))))))).
  - discriminate.
  - reflexivity.
Defined.




End CollectionWitnesses.

(* ================================================================== *)
(** * Further properties *)

Section FurtherContainerFacts.

Import Encryption.
Context {node : NodeRuntime} {laws : NodeRuntimeLaws node}.
Open Scope N_scope.

(** The threshold of [encryptAuto]: a buffer whose length equals the chunk
    size takes the simple path, one record of index 0 and no chunk count
    in the metadata.  [encryptData] makes the container when the buffer is
    shorter than 2^31 - 1 bytes. *)
Theorem exact_chunk_size_is_simple (d : bytes) (masterKey : string)
    (chunkSize : positive) (g : rng) :
  blen d = N.pos chunkSize ->
  fst (encryptAuto d masterKey chunkSize g)
  = (e <- fst (encryptData d masterKey g) ;; serializeEncryptedData e)
  /\ (forall e,
         fst (encryptData d masterKey g) = Ok e ->
         map index (chunks e) = [0] /\ chunkCount (metadata e) = None)
  /\ (blen d < 2 ^ 31 - 1 -> exists e, fst (encryptData d masterKey g) = Ok e).
Proof.
  intros H. split; [apply encryptAuto_simple; lia|]. split.
  - intros e He. apply encryptData_ok in He as (ct & tag & _ & ->).
    split; reflexivity.
  - apply encryptData_returns.
Qed.

(** [encryptDataChunked] cuts the buffer into [ceil(len / chunkSize)]
    records, numbered from 0 in order; record [i] holds bytes
    [i*chunkSize, min((i+1)*chunkSize, len)) under the key of the context
    ["chunk_i"], and the metadata records the count and the size.  It
    makes the container when the buffer is shorter than 2^31 - 1 bytes. *)
Theorem encryptDataChunked_layout (d : bytes) (masterKey : string)
    (size : positive) (g : rng) :
  (blen d < 2 ^ 31 - 1 ->
   exists e, fst (encryptDataChunked d masterKey size g) = Ok e)
  /\ forall e,
       fst (encryptDataChunked d masterKey size g) = Ok e ->
       chunkCount (metadata e) = Some (Z.of_N (totalChunks d size))
       /\ chunkSize (metadata e) = Some (Z.pos size)
       /\ map index (chunks e) = Nseq (N.to_nat (totalChunks d size)) 0
       /\ Forall2 (fun c p => outcome true (metadata e) masterKey c = Opened p)
                  (chunks e)
                  (map (chunk_plain d (N.pos size))
                       (Nseq (N.to_nat (totalChunks d size)) 0)).
Proof.
  split; [apply encryptDataChunked_returns|].
  intros e He.
  destruct (encryptDataChunked_fresh d masterKey size g e He)
    as (_ & Hcc & Hcsz & Hidx & Hdec & _).
  split; [exact Hcc|]. split; [exact Hcsz|]. split; [exact Hidx|].
  apply (decrypt_chunks_ok (metadata e) masterKey (chunks e)). exact Hdec.
Qed.

(** The wire format loses nothing: a container whose lengths and indices
    fit their fields, whose metadata is well formed and announces as many
    records as there are, and none of whose tags is empty, is serialized,
    and read back as it was. *)
Theorem wire_format_roundtrip (e : EncryptedData) :
  metadata_wf (metadata e) ->
  Z.to_nat (chunkCount_or_1 (metadata e)) = length (chunks e) ->
  Forall fits_record (chunks e) ->
  Forall tag_readable (chunks e) ->
  exists buffer,
    serializeEncryptedData e = Ok buffer
    /\ deserializeEncryptedData buffer = Ok e.
Proof.
  intros Hwf Hcount Hfit Htags.
  destruct (serializeEncryptedData_fits e Hwf Hfit) as [buffer Hbuf].
  exists buffer. split; [exact Hbuf|].
  now apply deserialize_serialize.
Qed.

End FurtherContainerFacts.

Section FurtherContainerWitnesses.

Import Encryption Sample.
Open Scope N_scope.

Lemma exact_chunk_size_is_simple_witness :
  fst (encryptAuto (node := Sample.runtime) sample_plaintext "correct horse" 7 0)
  = (e <- fst (encryptData (node := Sample.runtime) sample_plaintext
                           "correct horse" 0) ;;
     serializeEncryptedData e).
Proof.
  apply (exact_chunk_size_is_simple (laws := sample_runtime_laws)). reflexivity.
Defined.

Lemma encryptDataChunked_layout_witness :
  map index (chunks sample_container) = [0; 1; 2].
Proof.
  apply (proj2 (encryptDataChunked_layout (laws := sample_runtime_laws)
                  sample_plaintext "correct horse" 3 0)
           sample_container sample_container_made).
Defined.

Lemma wire_format_roundtrip_witness :
  exists buffer,
    serializeEncryptedData (node := Sample.runtime) sample_container = Ok buffer
    /\ deserializeEncryptedData (node := Sample.runtime) buffer = Ok sample_container.
Proof.
  apply (wire_format_roundtrip (laws := sample_runtime_laws)).
  - unfold metadata_wf. split; [reflexivity|].
    split; intros n E; vm_compute in E; injection E as <-; lia.
  - reflexivity.
  - repeat constructor;
      intros tag E; vm_compute in E; injection E as <-; reflexivity.
  - repeat constructor; discriminate.
Defined.

End FurtherContainerWitnesses.

Section FurtherCollectionFacts.

Import Js Store.
Context {engine : RegExp}.
Open Scope Z_scope.

Lemma matchesQuery_field_keys (data_ : value) (entries : list (string * value)) :
  Forall (fun kv => logical_key (fst kv) = false) entries ->
  matchesQuery data_ (VObj entries) = fields_match data_ entries.
Proof.
  cbn [matchesQuery]. induction 1 as [|[key condition] rest Hkey _ IH].
  - reflexivity.
  - unfold logical_key in Hkey. cbn [fst] in Hkey.
    apply orb_false_elim in Hkey as [Hkey Hnot].
    apply orb_false_elim in Hkey as [Hand Hor].
    cbn [fields_match]. rewrite Hand, Hor, Hnot.
    destruct (field_matches data_ key condition) as [[|]|e]; cbn [bind];
      [exact IH | reflexivity | reflexivity].
Qed.

Lemma fields_match_forallb (data_ : value) (entries : list (string * value)) :
  Forall (fun kv => is_ok (field_matches data_ (fst kv) (snd kv)) = true) entries ->
  fields_match data_ entries = Ok (forallb (field_passes data_) entries).
Proof.
  induction 1 as [|[key condition] rest Hkv _ IH]; [reflexivity|].
  cbn [fields_match forallb]. unfold field_passes at 1. cbn [fst snd] in *.
  destruct (field_matches data_ key condition) as [[|]|e]; cbn [bind andb];
    [exact IH | reflexivity | discriminate].
Qed.

(** For a predicate map none of whose keys is [$and], [$or] or [$not], and
    whose field conditions do not throw, matching is the conjunction of
    the keys taken one by one, and so does not depend on their order. *)
Theorem field_keys_are_a_conjunction (data_ : value)
    (entries : list (string * value)) :
  Forall (fun kv => logical_key (fst kv) = false) entries ->
  Forall (fun kv => is_ok (field_matches data_ (fst kv) (snd kv)) = true) entries ->
  matchesQuery data_ (VObj entries)
  = Ok (forallb (fun kv => match matchesQuery data_ (VObj [kv]) with
                           | Ok true => true
                           | _ => false
                           end) entries)
  /\ forall reordered,
       Permutation reordered entries ->
       matchesQuery data_ (VObj reordered) = matchesQuery data_ (VObj entries).
Proof.
  intros Hkeys Hok.
  assert (Hone : forall kv, logical_key (fst kv) = false ->
                            match matchesQuery data_ (VObj [kv]) with
                            | Ok true => true
                            | _ => false
                            end = field_passes data_ kv).
  { intros kv Hk.
    rewrite (matchesQuery_field_keys data_ [kv]) by (constructor; [exact Hk | constructor]).
    destruct kv as [key condition]. cbn [fields_match]. unfold field_passes.
    cbn [fst snd].
    destruct (field_matches data_ key condition) as [[|]|e]; reflexivity. }
  assert (Hall : forall l,
             Forall (fun kv => logical_key (fst kv) = false) l ->
             Forall (fun kv => is_ok (field_matches data_ (fst kv) (snd kv)) = true) l ->
             matchesQuery data_ (VObj l) = Ok (forallb (field_passes data_) l)).
  { intros l H1 H2. rewrite matchesQuery_field_keys by assumption.
    now apply fields_match_forallb. }
  split.
  - rewrite (Hall entries Hkeys Hok). f_equal.
    clear Hok Hall. induction Hkeys as [|kv rest Hk _ IH]; [reflexivity|].
    cbn [forallb]. now rewrite IH, (Hone kv Hk).
  - intros reordered HP.
    rewrite (Hall entries Hkeys Hok).
    rewrite (Hall reordered).
    + f_equal. clear Hkeys Hok Hall Hone.
      induction HP as [|x l l' _ IH|x y l|l l' l'' _ IH1 _ IH2]; cbn [forallb].
      * reflexivity.
      * now rewrite IH.
      * rewrite !andb_assoc. f_equal. apply andb_comm.
      * now rewrite IH1.
    + eapply Permutation_Forall; [apply Permutation_sym, HP | exact Hkeys].
    + eapply Permutation_Forall; [apply Permutation_sym, HP | exact Hok].
Qed.







End FurtherCollectionFacts.

Section FurtherCollectionWitnesses.

Import Js Store.
Open Scope Z_scope.

Lemma field_keys_are_a_conjunction_witness :
  matchesQuery (engine := Sample.literal_regexp)
               (VObj [("x", VNum 5); ("tag", VStr "blue")])
               (VObj [("tag", VStr "blue"); ("x", VObj [("$gte", VNum 5)])])
  = matchesQuery (engine := Sample.literal_regexp)
                 (VObj [("x", VNum 5); ("tag", VStr "blue")])
                 (VObj [("x", VObj [("$gte", VNum 5)]); ("tag", VStr "blue")]).
Proof.
  apply (proj2 (field_keys_are_a_conjunction (engine := Sample.literal_regexp)
                  (VObj [("x", VNum 5); ("tag", VStr "blue")])
                  [("x", VObj [("$gte", VNum 5)]); ("tag", VStr "blue")]
                  ltac:(repeat constructor) ltac:(repeat constructor))).
  apply perm_swap.
Defined.


End FurtherCollectionWitnesses.

(* ================================================================== *)
(** ** Property lists: reading after writing *)

Section MorePropsFacts.

Import Js.
Context {A : Type}.
Implicit Types (o : props A) (k : string) (v : A).

Lemma get_place_index n k v o k' :
  ~ In k (keys o) ->
  get (place_index n k v o) k' = if (k =? k')%string then Some v else get o k'.
Proof.
  induction o as [|[k0 v0] o IH]; simpl; intros Hk.
  - reflexivity.
  - assert (NE : k0 <> k) by (intros E; apply Hk; now left).
    assert (Hk' : ~ In k (keys o)) by (intros H; apply Hk; now right).
    destruct (array_index k0) as [m|]; [destruct (m <? n)%N|]; simpl;
      try reflexivity.
    rewrite (IH Hk').
    destruct (String.eqb_spec k0 k') as [E0|NE0]; [|reflexivity].
    destruct (String.eqb_spec k k'); [congruence | reflexivity].
Qed.

Lemma get_app_new o k v k' :
  ~ In k (keys o) ->
  get (o ++ [(k, v)])%list k' = if (k =? k')%string then Some v else get o k'.
Proof.
  induction o as [|[k0 v0] o IH]; simpl; intros Hk.
  - reflexivity.
  - assert (NE : k0 <> k) by (intros E; apply Hk; now left).
    assert (Hk' : ~ In k (keys o)) by (intros H; apply Hk; now right).
    rewrite (IH Hk').
    destruct (String.eqb_spec k0 k') as [E0|NE0]; [|reflexivity].
    destruct (String.eqb_spec k k'); [congruence | reflexivity].
Qed.

(** Reading a property after an assignment. *)
Lemma get_set o k v k' :
  get (set o k v) k' = if (k =? k')%string then Some v else get o k'.
Proof.
  unfold set. destruct (has o k) eqn:Hk.
  - rewrite replace_prop_modify.
    destruct (String.eqb_spec k k') as [<-|NE].
    + rewrite get_modify_same. unfold has in Hk. now destruct (get o k).
    + apply get_modify_other. congruence.
  - apply has_false_iff in Hk.
    destruct (array_index k); [now apply get_place_index | now apply get_app_new].
Qed.

Lemma NoDup_keys_set o k v : NoDup (keys o) -> NoDup (keys (set o k v)).
Proof.
  intros H. destruct (has o k) eqn:Hk.
  - unfold set. rewrite Hk, replace_prop_modify, keys_modify. exact H.
  - eapply Permutation_NoDup; [apply Permutation_sym, (keys_set_new_perm o k v Hk)|].
    constructor; [now apply has_false_iff | exact H].
Qed.

Lemma get_remove_same o k : NoDup (keys o) -> get (remove o k) k = None.
Proof. intros H. apply get_none. now apply not_in_keys_remove. Qed.

Lemma get_remove o k k' :
  NoDup (keys o) ->
  get (remove o k) k' = if (k =? k')%string then None else get o k'.
Proof.
  intros H. destruct (String.eqb_spec k k') as [<-|NE].
  - now apply get_remove_same.
  - apply get_remove_other. congruence.
Qed.

(** Assigning the entries of a source one after the other. *)
Lemma get_fold_set (entries : list (string * A)) :
  forall o k,
    NoDup (keys entries) ->
    get (fold_left (fun r kv => set r (fst kv) (snd kv)) entries o) k
    = match get entries k with
      | Some v => Some v
      | None => get o k
      end.
Proof.
  induction entries as [|[k0 v0] entries IH]; intros o k Hnd; simpl.
  - reflexivity.
  - apply NoDup_cons_iff in Hnd as [Hnotin Hnd].
    rewrite (IH _ _ Hnd), get_set.
    destruct (String.eqb_spec k0 k) as [<-|NE]; [|reflexivity].
    now rewrite (get_none entries k0 Hnotin).
Qed.

Lemma NoDup_keys_fold_set (entries : list (string * A)) :
  forall o, NoDup (keys o) ->
            NoDup (keys (fold_left (fun r kv => set r (fst kv) (snd kv)) entries o)).
Proof.
  induction entries as [|[k0 v0] entries IH]; intros o H; simpl; [exact H|].
  apply IH. now apply NoDup_keys_set.
Qed.

Lemma get_fold_remove (ks : list string) :
  forall o k,
    NoDup (keys o) ->
    get (fold_left (fun r key => remove r key) ks o) k
    = if existsb (String.eqb k) ks then None else get o k.
Proof.
  induction ks as [|k0 ks IH]; intros o k Hnd; simpl; [reflexivity|].
  rewrite (IH _ _ (NoDup_keys_remove o k0 Hnd)), get_remove by exact Hnd.
  rewrite (String.eqb_sym k k0).
  destruct (String.eqb_spec k0 k) as [<-|NE]; simpl; [|reflexivity].
  now destruct (existsb (String.eqb k0) ks).
Qed.

Lemma NoDup_keys_fold_remove (ks : list string) :
  forall o, NoDup (keys o) -> NoDup (keys (fold_left (fun r key => remove r key) ks o)).
Proof.
  induction ks as [|k0 ks IH]; intros o H; simpl; [exact H|].
  apply IH. now apply NoDup_keys_remove.
Qed.

End MorePropsFacts.

(* ================================================================== *)
(** ** Reading methods *)

Section ReadingFacts.

Import Js Store.
Context {engine : RegExp}.
Open Scope Z_scope.

(** The record [find] and [findById] return for a document has the fields
    of its data and the field [_id] with the document's identifier; a
    field [_id] of the data itself takes its place. *)
Theorem result_of_fields (doc : Document) (k : string) :
  NoDup (keys (data doc)) ->
  get (result_of doc) k
  = match get (data doc) k with
    | Some v => Some v
    | None => if (k =? "_id")%string then Some (VStr (_id doc)) else None
    end.
Proof.
  intros Hnd. unfold result_of. rewrite get_fold_set by exact Hnd.
  destruct (get (data doc) k); [reflexivity|].
  simpl. now rewrite String.eqb_sym.
Qed.

(** A document that [insert] stored is the one [findById] returns under
    the identifier of the result; the other identifiers read as before. *)
Theorem insert_then_findById (c c' : Collection) (ref : N) (data_ : obj)
    (customId : option string) (generated : string) (now : Z) (r : InsertResult) :
  insert c ref data_ customId generated now = Ok (c', r) ->
  exists id,
    insertedIds r = [id]
    /\ findById c' id = Some (result_of (new_document id ref data_ now))
    /\ forall other, other <> id -> findById c' other = findById c other.
Proof.
  unfold insert.
  set (id := match customId with
             | Some s => if (s =? "")%string then generated else s
             | None => generated
             end).
  destruct (has (documents c) id); [discriminate|].
  intros H. injection H as <- <-. exists id. cbn [insertedIds].
  split; [reflexivity|]. unfold findById. cbn [documents].
  split.
  - rewrite get_set, String.eqb_refl. reflexivity.
  - intros other NE. rewrite get_set.
    destruct (String.eqb_spec id other); [congruence | reflexivity].
Qed.

(** After [deleteById], soft or hard, found or not, [findById] answers
    null for that identifier, and the other identifiers read as before. *)
Theorem deleteById_then_findById (c c' : Collection) (id : string) (hard_ : bool)
    (now : Z) (r : DeleteResult) :
  NoDup (keys (documents c)) ->
  deleteById c id hard_ now = Ok (c', r) ->
  findById c' id = None
  /\ forall other, other <> id -> findById c' other = findById c other.
Proof.
  intros Hnd. unfold deleteById, findById, lookup.
  destruct (get (documents c) id) as [doc|] eqn:Hget.
  - destruct (deleted (_meta doc)) eqn:Hdel.
    + intros H. injection H as <- <-. rewrite Hget, Hdel. auto.
    + intros H. injection H as <- <-. cbn [documents].
      destruct hard_; cbn [documents].
      * split.
        -- now rewrite get_remove_same.
        -- intros other NE. now rewrite get_remove_other.
      * split.
        -- rewrite get_modify_same, Hget. reflexivity.
        -- intros other NE. now rewrite get_modify_other.
  - destruct (inherited id); [discriminate|].
    intros H. injection H as <- <-. rewrite Hget. auto.
Qed.

Lemma hd_error_js_slice {A : Type} (l : list A) (n : Z) :
  0 < n -> hd_error (js_slice l 0 n) = hd_error l.
Proof.
  intros Hn. unfold js_slice, clamp_index.
  destruct l as [|x l]; [now destruct (Z.to_nat _)|].
  cbn [length]. 
  destruct (Z.ltb_spec 0 0); [lia|]. destruct (Z.ltb_spec n 0); [lia|].
  replace (Z.to_nat (Z.min 0 (Z.of_nat (S (length l))))) with 0%nat by lia.
  cbn [skipn]. rewrite Nat.sub_0_r.
  destruct (Z.to_nat (Z.min n (Z.of_nat (S (length l))))) eqn:E; [lia|].
  reflexivity.
Qed.

Lemma hd_error_map {A B : Type} (f : A -> B) (l : list A) :
  hd_error (map f l) = option_map f (hd_error l).
Proof. now destruct l. Qed.

Lemma hd_error_query_projection (query : option FindQuery) (l l' : list obj) :
  hd_error l = hd_error l' ->
  hd_error (query_projection query l) = hd_error (query_projection query l').
Proof.
  intros H. unfold query_projection.
  destruct (query_options query) as [[? ? ? [p|] ?]|]; try exact H.
  destruct p; cbn [applyProjection]; rewrite !hd_error_map; now rewrite H.
Qed.

(** [findOne] returns the first record [find] returns for the same query,
    null when there is none, and throws when [find] does. *)
Theorem findOne_is_first_of_find (c : Collection) (query : option FindQuery) :
  (forall o n, query_options query = Some o -> limit o = Some n -> 0 <= n) ->
  findOne c query = (r <- find c query ;; Ok (hd_error (find_data r))).
Proof.
  intros Hlimit. unfold findOne. rewrite !find_unfold.
  assert (Hw : query_where (Some (with_limit_1 query)) = query_where query)
    by now destruct query as [[? ?]|].
  assert (Hv : forall doc, visible (Some (with_limit_1 query)) doc = visible query doc)
    by (intros doc; now destruct query as [[? [[? ? ? ? ?]|]]|]).
  rewrite Hw.
  destruct (filter_res (selects (query_where query)) (values (documents c)))
    as [matched|e]; [|reflexivity].
  cbn [bind find_data].
  rewrite (filter_ext _ _ Hv).
  set (kept := filter (visible query) matched).
  assert (E : hd_error (query_projection (Some (with_limit_1 query))
                          (map result_of (page_of (Some (with_limit_1 query)) kept)))
              = hd_error (query_projection query (map result_of (page_of query kept)))).
  { assert (Hp : forall l, query_projection (Some (with_limit_1 query)) l
                           = query_projection query l)
      by (intros l; now destruct query as [[? [[? ? ? ? ?]|]]|]).
    rewrite Hp. apply hd_error_query_projection. rewrite !hd_error_map. f_equal.
    unfold page_of.
    assert (Hs : query_skip (Some (with_limit_1 query)) = query_skip query)
      by now destruct query as [[? [[? ? ? ? ?]|]]|].
    rewrite Hs.
    set (skipped := fun sorted : list Document =>
                      if 0 <? query_skip query
                      then js_slice sorted (query_skip query) (Z.of_nat (length sorted))
                      else sorted).
    destruct query as [[w [[so li sk pr inc]|]]|];
      cbn [query_options options with_limit_1 sort limit Z.eqb];
      try (now rewrite hd_error_js_slice by lia).
    destruct li as [n|]; [|now rewrite hd_error_js_slice by lia].
    specialize (Hlimit _ n eq_refl eq_refl).
    destruct (Z.eqb_spec n 0); [now rewrite hd_error_js_slice by lia|].
    rewrite !hd_error_js_slice by lia. reflexivity. }
  f_equal. rewrite <- E.
  now destruct (query_projection _ _).
Qed.

End ReadingFacts.

(* ================================================================== *)
(** ** Counting *)

Section CountingFacts.

Import Js Store.
Context {engine : RegExp}.
Open Scope Z_scope.

Lemma filter_res_filter {A : Type} (f : A -> res bool) (g : A -> bool) (l : list A) :
  forall matched,
    filter_res f l = Ok matched ->
    filter_res f (filter g l) = Ok (filter g matched).
Proof.
  induction l as [|x l IH]; intros matched H.
  - injection H as <-. reflexivity.
  - cbn [filter_res] in H.
    apply bind_ok in H as (keep & Hk & H).
    apply bind_ok in H as (rest & Hr & H).
    injection H as <-. cbn [filter].
    destruct (g x) eqn:Hg.
    + cbn [filter_res]. rewrite Hk, (IH rest Hr). cbn [bind].
      destruct keep; cbn [filter]; now rewrite ?Hg.
    + rewrite (IH rest Hr). destruct keep; cbn [filter]; now rewrite ?Hg.
Qed.

Lemma filter_res_all_ok {A : Type} (f : A -> res bool) (l : list A) :
  forall matched,
    filter_res f l = Ok matched -> forall x, In x l -> is_ok (f x) = true.
Proof.
  induction l as [|y l IH]; intros matched H x Hin; [contradiction|].
  cbn [filter_res] in H.
  apply bind_ok in H as (keep & Hk & H).
  apply bind_ok in H as (rest & Hr & H).
  destruct Hin as [<-|Hin]; [now rewrite Hk | eapply IH; eassumption].
Qed.

Lemma filter_res_selects (w : option value) (docs : list Document) :
  match w with
  | Some w0 =>
      if truthy w0
      then filter_res (fun doc => matchesQuery (VObj (data doc)) w0) docs
      else Ok docs
  | None => Ok docs
  end = filter_res (selects w) docs.
Proof.
  assert (E : filter_res (fun _ : Document => Ok true) docs = Ok docs).
  { induction docs as [|d docs IH]; [reflexivity|].
    cbn [filter_res bind]. now rewrite IH. }
  unfold selects. destruct w as [w0|]; [destruct (truthy w0)|]; auto.
Qed.

Lemma length_filter_values {A : Type} (f : A -> bool) (o : props A) :
  length (filter f (values o)) = length (filter (fun kd => f (snd kd)) o).
Proof.
  unfold values. induction o as [|[k d] o IH]; simpl; [reflexivity|].
  destruct (f d); simpl; now rewrite IH.
Qed.

(** [count] is the [totalCount] of [find] for the same predicate, and the
    [matchedCount] of [update] for it. *)
Theorem count_is_totalCount (c : Collection) (w : option value) (r : FindResult) :
  find c (Some {| where_ := w; options := None |}) = Ok r ->
  count c w = Ok (totalCount r)
  /\ forall w' data_ opts now c' u,
       w = Some w' ->
       update c w' data_ opts now = Ok (c', u) ->
       matchedCount u = totalCount r.
Proof.
  rewrite find_unfold.
  cbn [query_where where_].
  intros H. apply bind_ok in H as (matched & Hm & H). injection H as <-.
  cbn [totalCount].
  assert (Hvis : forall doc,
             visible (Some {| where_ := w; options := None |}) doc
             = negb (deleted (_meta doc))) by reflexivity.
  rewrite (filter_ext _ _ Hvis). split.
  - unfold count. rewrite filter_res_selects.
    now rewrite (filter_res_filter _ _ _ _ Hm).
  - intros w' data_ opts now c' u -> Hu.
    unfold update in Hu. apply bind_ok in Hu as (live & Hlive & Hu).
    destruct (update_loop _ _ _ _ _ _) as [docs n] in Hu. injection Hu as <- <-.
    cbn [matchedCount]. f_equal.
    pose proof (filter_res_all_ok _ _ _ Hlive) as Hok.
    apply live_matches_ok in Hlive. subst live.
    apply filter_res_ok in Hm. subst matched.
    rewrite filter_filter_andb, length_filter_values.
    f_equal. apply filter_ext_in. intros [k d] Hin. cbn [snd].
    unfold live_match, selects. cbn [snd].
    specialize (Hok (k, d) Hin). cbn [snd] in Hok.
    destruct (deleted (_meta d)); [now rewrite andb_false_r|].
    cbn [negb andb]. rewrite andb_true_r.
    destruct (truthy w') eqn:Ht; [reflexivity|].
    destruct w' as [| |b|n0| |s|items|fields]; simpl in Ht, Hok |- *;
      try discriminate; try reflexivity.
    destruct s; [reflexivity | discriminate].
Qed.

End CountingFacts.

(* ================================================================== *)
(** ** Collections of a database, and the steps of an update *)

Section CollectionsOfADatabase.

Import Js Store.
Open Scope Z_scope.

(** A collection that [createCollection] made is the one [getCollection]
    returns under its name, empty; the other names read as before, and the
    name cannot be created twice. *)
Theorem createCollection_then_getCollection (db db' : BloobyDatabase)
    (name_ : string) (now : Z) (c : Collection) :
  createCollection db name_ now = Ok (db', c) ->
  getCollection db' name_ = Ok (Some c)
  /\ documents c = [] /\ documentCount (collection_meta c) = 0
  /\ collectionExists db' name_ = true
  /\ (forall other, other <> name_ -> getCollection db' other = getCollection db other)
  /\ forall now', createCollection db' name_ now'
                  = Err (BloobyError "COLLECTION_ALREADY_EXISTS").
Proof.
  unfold createCollection, lookup.
  destruct (get (collections db) name_) eqn:Hget; [discriminate|].
  destruct (inherited name_); [discriminate|].
  intros H. injection H as <- <-.
  assert (Hnew : get (set (collections db) name_ (new_collection name_ now)) name_
                 = Some (new_collection name_ now))
    by now rewrite get_set, String.eqb_refl.
  unfold getCollection, collectionExists, createCollection. cbn [collections].
  rewrite (lookup_own _ _ _ Hnew).
  split; [reflexivity|].
  split; [reflexivity|]. split; [reflexivity|].
  split; [reflexivity|].
  split; [|now rewrite Hnew].
  intros other NE. unfold lookup. rewrite get_set.
  destruct (String.eqb_spec name_ other); [congruence | reflexivity].
Qed.

(** For a name that is none of those [Object.prototype] defines,
    [deleteCollection] throws when the database does not have it;
    otherwise the name is gone for [getCollection], [collectionExists] and
    [listCollections], and the other collections stay.  For a name that
    [Object.prototype] defines and no collection has, [deleteCollection]
    returns and deletes nothing, and [collectionExists] answers true. *)
Theorem deleteCollection_then_getCollection (db : BloobyDatabase) (name_ : string) :
  NoDup (listCollections db) ->
  (inherited name_ = false ->
   (collectionExists db name_ = false ->
    deleteCollection db name_ = Err (BloobyError "COLLECTION_NOT_FOUND"))
   /\ forall db',
        deleteCollection db name_ = Ok db' ->
        getCollection db' name_ = Err (BloobyError "COLLECTION_NOT_FOUND")
        /\ collectionExists db' name_ = false
        /\ ~ In name_ (listCollections db')
        /\ (forall other, other <> name_ ->
                          getCollection db' other = getCollection db other)
        /\ S (length (listCollections db')) = length (listCollections db))
  /\ (inherited name_ = true ->
      get (collections db) name_ = None ->
      deleteCollection db name_ = Ok db
      /\ collectionExists db name_ = true
      /\ getCollection db name_ = Ok None).
Proof.
  unfold listCollections. intros Hnd. split.
  - intros Hname. unfold collectionExists, deleteCollection, getCollection. split.
    + unfold lookup. destruct (get (collections db) name_); [discriminate|].
      now rewrite Hname.
    + intros db' H.
      assert (Hhas : In name_ (keys (collections db))).
      { unfold lookup in H. destruct (get (collections db) name_) as [c|] eqn:Hget.
        - apply get_some_in in Hget. apply (in_map fst) in Hget. exact Hget.
        - rewrite Hname in H. discriminate. }
      assert (Hdb : db' = {| filename := filename db;
                             collections := remove (collections db) name_ |}).
      { destruct (lookup (collections db) name_); congruence. }
      subst db'. cbn [collections].
      pose proof (not_in_keys_remove (collections db) name_ Hnd) as Hgone.
      rewrite (lookup_missing _ _ (get_remove_same _ _ Hnd) Hname).
      split; [reflexivity|]. split; [reflexivity|].
      split; [exact Hgone|].
      split.
      * intros other NE. unfold lookup. now rewrite get_remove_other.
      * rewrite !length_keys. now apply length_remove.
  - intros Hname Hget.
    unfold deleteCollection, collectionExists, getCollection.
    rewrite (lookup_inherited _ _ Hget Hname).
    split; [|split; reflexivity].
    rewrite remove_absent.
    + now destruct db.
    + intros Hin. apply has_true_iff in Hin. unfold has in Hin.
      rewrite Hget in Hin. discriminate.
Qed.

End CollectionsOfADatabase.

Section UpdateSemantics.

Import Js Store.
Open Scope Z_scope.

Lemma has_existsb {A : Type} (o : props A) (k : string) :
  has o k = existsb (String.eqb k) (keys o).
Proof.
  unfold has. induction o as [|[k0 v0] o IH]; simpl; [reflexivity|].
  rewrite (String.eqb_sym k k0). destruct (k0 =? k)%string; [reflexivity | exact IH].
Qed.

Lemma get_assign (target : obj) (source : value) (k : string) :
  NoDup (keys (own_entries source)) ->
  get (assign target source) k
  = match get (own_entries source) k with
    | Some v => Some v
    | None => get target k
    end.
Proof. intros H. unfold assign. now apply get_fold_set. Qed.

Lemma NoDup_keys_assign (target : obj) (source : value) :
  NoDup (keys target) -> NoDup (keys (assign target source)).
Proof. apply NoDup_keys_fold_set. Qed.

Lemma get_apply_unset (target : obj) (unset : value) (k : string) :
  NoDup (keys target) ->
  get (apply_unset target unset) k
  = if has (own_entries unset) k then None else get target k.
Proof.
  intros H. unfold apply_unset. rewrite has_existsb. unfold keys.
  rewrite <- (get_fold_remove (map fst (own_entries unset)) target k H).
  f_equal. generalize target. induction (own_entries unset) as [|kv l IH];
    intros t; simpl; [reflexivity | apply IH].
Qed.

Lemma NoDup_keys_apply_unset (target : obj) (unset : value) :
  NoDup (keys target) -> NoDup (keys (apply_unset target unset)).
Proof.
  unfold apply_unset. generalize target.
  induction (own_entries unset) as [|kv l IH]; intros t H; simpl; [exact H|].
  apply IH. now apply NoDup_keys_remove.
Qed.

Lemma get_apply_inc (inc : value) :
  forall (target : obj) (k : string),
    NoDup (keys (own_entries inc)) ->
    get (apply_inc target inc) k
    = match get (own_entries inc) k with
      | Some n => Some (add (or_zero (get target k)) n)
      | None => get target k
      end.
Proof.
  unfold apply_inc. induction (own_entries inc) as [|[k0 n0] l IH];
    intros target k Hnd; simpl; [reflexivity|].
  apply NoDup_cons_iff in Hnd as [Hnotin Hnd].
  rewrite (IH _ _ Hnd), get_set.
  destruct (String.eqb_spec k0 k) as [<-|NE]; [|reflexivity].
  rewrite (get_none l k0 Hnotin). unfold or_zero.
  destruct (get target k0) as [v|]; [|reflexivity].
  now destruct (truthy v).
Qed.

End UpdateSemantics.

(* ================================================================== *)
(** ** What an update leaves in a document *)

Section UpdateTheorems.

Import Js Store.
Open Scope Z_scope.


(** With a [$set] key in the payload, [applyUpdate] assigns the fields of
    [$set], then deletes the fields named in [$unset], then adds the
    amounts of [$inc] to what is left, starting from 0 where the field is
    absent or falsy.  [$set] has no own key [__proto__]; a field that
    [$inc] names is none of the names [Object.prototype] defines, and the
    numbers of its start value, of its amount and of their sum are safe
    integers, so that the sum of the doubles is the sum of the integers. *)
Theorem applyUpdate_modifiers (doc : Document) (payload : obj) (k : string) :
  has payload "$set" = true ->
  NoDup (keys (data doc)) ->
  NoDup (keys (own_entries (modifier payload "$set"))) ->
  NoDup (keys (own_entries (modifier payload "$inc"))) ->
  has (own_entries (modifier payload "$set")) "__proto__" = false ->
  plain_names (keys (own_entries (modifier payload "$inc"))) = true ->
  (forall amount,
      get (own_entries (modifier payload "$inc")) k = Some amount ->
      safe (or_zero (kept_field doc payload k)) = true
      /\ safe amount = true
      /\ safe (add (or_zero (kept_field doc payload k)) amount) = true) ->
  get (data (applyUpdate doc payload)) k
  = match get (own_entries (modifier payload "$inc")) k with
    | Some amount => Some (add (or_zero (kept_field doc payload k)) amount)
    | None => kept_field doc payload k
    end.
Proof.
  intros Hset Hdata Hs Hi _ _ _. unfold applyUpdate, kept_field.
  rewrite Hset. cbn [data].
  assert (E1 : forall (d : obj) (m : value),
             (if truthy m then assign d m else d) = assign d m).
  { intros d m. destruct m as [| |[|]|n| |s|items|fields]; try reflexivity.
    - simpl. destruct (n =? 0); reflexivity.
    - destruct s; reflexivity. }
  assert (E2 : forall (d : obj) (m : value),
             (if truthy m then apply_unset d m else d) = apply_unset d m).
  { intros d m. destruct m as [| |[|]|n| |s|items|fields]; try reflexivity.
    - simpl. destruct (n =? 0); reflexivity.
    - destruct s; reflexivity. }
  assert (E3 : forall (d : obj) (m : value),
             (if truthy m then apply_inc d m else d) = apply_inc d m).
  { intros d m. destruct m as [| |[|]|n| |s|items|fields]; try reflexivity.
    - simpl. destruct (n =? 0); reflexivity.
    - destruct s; reflexivity. }
  rewrite E1, E2, E3. cbv zeta.
  rewrite (get_apply_inc _ _ _ Hi).
  rewrite get_apply_unset by now apply NoDup_keys_assign.
  now rewrite (get_assign _ _ _ Hs).
Qed.

End UpdateTheorems.

(* ================================================================== *)
(** ** Comparison operators *)

Section QueryOperators.

Import Js Store.
Context {engine : RegExp}.
Open Scope Z_scope.

Lemma matchesQuery_one_field (data_ : value) (key : string) (condition : value) :
  logical_key key = false ->
  matchesQuery data_ (VObj [(key, condition)])
  = (passed <- field_matches data_ key condition ;; Ok passed).
Proof.
  intros Hkey.
  rewrite (matchesQuery_field_keys data_ [(key, condition)])
    by (constructor; [exact Hkey | constructor]).
  cbn [fields_match].
  destruct (field_matches data_ key condition) as [[|]|e]; reflexivity.
Qed.

(** On a field that holds a number, against a number, the six comparison
    operators and the plain equality are the comparisons of the integers. *)
Theorem comparison_operators_on_numbers (data_ : value) (key : string) (m n : Z) :
  logical_key key = false ->
  getNestedValue data_ key = VNum m ->
  matchesQuery data_ (VObj [(key, VObj [("$gt", VNum n)])]) = Ok (n <? m)
  /\ matchesQuery data_ (VObj [(key, VObj [("$gte", VNum n)])]) = Ok (n <=? m)
  /\ matchesQuery data_ (VObj [(key, VObj [("$lt", VNum n)])]) = Ok (m <? n)
  /\ matchesQuery data_ (VObj [(key, VObj [("$lte", VNum n)])]) = Ok (m <=? n)
  /\ matchesQuery data_ (VObj [(key, VObj [("$eq", VNum n)])]) = Ok (m =? n)
  /\ matchesQuery data_ (VObj [(key, VObj [("$ne", VNum n)])]) = Ok (negb (m =? n))
  /\ matchesQuery data_ (VObj [(key, VNum n)]) = Ok (m =? n).
Proof.
  intros Hkey Hval.
  rewrite !matchesQuery_one_field by exact Hkey.
  unfold field_matches. rewrite Hval.
  cbn [check_ops check_op String.eqb Ascii.eqb Bool.eqb bind].
  unfold le, lt, ge, gt, compare. cbn [to_primitive to_number strict_eq].
  rewrite (Z.ltb_compare n m), (Z.leb_compare n m), (Z.ltb_compare m n),
    (Z.leb_compare m n), (Z.eqb_compare m n), (Z.compare_antisym m n).
  destruct (m ?= n); repeat split; reflexivity.
Qed.

(** The range operators return false only when the opposite comparison
    holds, and no comparison holds of [undefined]: a document in which the
    path of the field reads undefined, no step of it standing for a member
    of a prototype, passes [$gt], [$gte], [$lt] and [$lte], whatever the
    operand. *)
Theorem range_operators_pass_missing_fields (data_ : value) (key op : string)
    (operand : value) :
  logical_key key = false ->
  own_path data_ (split_dots key) = true ->
  getNestedValue data_ key = VUndef ->
  In op ["$gt"; "$gte"; "$lt"; "$lte"]%string ->
  matchesQuery data_ (VObj [(key, VObj [(op, operand)])]) = Ok true.
Proof.
  intros Hkey _ Hval Hop.
  rewrite matchesQuery_one_field by exact Hkey.
  unfold field_matches. rewrite Hval.
  assert (Hcmp : compare VUndef operand = None).
  { unfold compare. cbn [to_primitive to_number].
    now destruct (to_primitive operand). }
  simpl in Hop.
  destruct Hop as [<-|[<-|[<-|[<-|[]]]]];
    cbn [check_ops check_op String.eqb Ascii.eqb Bool.eqb bind];
    unfold le, lt, ge, gt; rewrite Hcmp; reflexivity.
Qed.

End QueryOperators.

(* ================================================================== *)
(** ** Order, projection and pages *)

Section SortingAndPaging.

Import Js Store.
Context {engine : RegExp}.
Open Scope Z_scope.

Lemma sort_compare_numbers (key : string) (order : Z) (f : Document -> Z)
    (a b : Document) :
  getNestedValue (VObj (data a)) key = VNum (f a) ->
  getNestedValue (VObj (data b)) key = VNum (f b) ->
  (0 <? sort_compare [(key, order)] a b) = true -> in_order order f b a.
Proof.
  intros Ha Hb. cbn [sort_compare]. rewrite Ha, Hb.
  unfold lt, gt, compare, in_order. cbn [to_primitive to_number].
  destruct (Z.compare_spec (f a) (f b)) as [Hc|Hc|Hc]; destruct (order =? 1);
    cbn; intros H; try discriminate; lia.
Qed.

Lemma sort_compare_numbers_not (key : string) (order : Z) (f : Document -> Z)
    (a b : Document) :
  getNestedValue (VObj (data a)) key = VNum (f a) ->
  getNestedValue (VObj (data b)) key = VNum (f b) ->
  (0 <? sort_compare [(key, order)] a b) = false -> in_order order f a b.
Proof.
  intros Ha Hb. cbn [sort_compare]. rewrite Ha, Hb.
  unfold lt, gt, compare, in_order. cbn [to_primitive to_number].
  destruct (Z.compare_spec (f a) (f b)) as [Hc|Hc|Hc]; destruct (order =? 1);
    cbn; intros H; try discriminate; lia.
Qed.

Lemma in_order_trans (order : Z) (f : Document -> Z) (a b c : Document) :
  in_order order f a b -> in_order order f b c -> in_order order f a c.
Proof. unfold in_order. destruct (order =? 1); lia. Qed.

Lemma sort_insert_sorted (key : string) (order : Z) (f : Document -> Z)
    (x : Document) (l : list Document) :
  getNestedValue (VObj (data x)) key = VNum (f x) ->
  (forall d, In d l -> getNestedValue (VObj (data d)) key = VNum (f d)) ->
  StronglySorted (in_order order f) l ->
  StronglySorted (in_order order f) (sort_insert (sort_compare [(key, order)]) x l).
Proof.
  intros Hx Hl Hs. induction Hs as [|y l Hs IH Hy]; cbn [sort_insert].
  - constructor; constructor.
  - destruct (0 <? sort_compare [(key, order)] x y) eqn:E.
    + apply sort_compare_numbers with (f := f) in E;
        [|exact Hx | apply Hl; now left].
      constructor.
      * apply IH. intros d Hd. apply Hl. now right.
      * rewrite Forall_forall. intros d Hd.
        apply (Permutation_in _ (sort_insert_perm _ x l)) in Hd.
        destruct Hd as [<-|Hd]; [exact E|].
        rewrite Forall_forall in Hy. now apply Hy.
    + apply sort_compare_numbers_not with (f := f) in E;
        [|exact Hx | apply Hl; now left].
      constructor; [now constructor|].
      constructor; [exact E|].
      rewrite Forall_forall in *. intros d Hd.
      eapply in_order_trans; [exact E | now apply Hy].
Qed.

(** [sortDocuments] returns the documents it was given, each once; for one
    sort key that holds a number in every document they come in ascending
    order for the order 1 and in descending order otherwise. *)
Theorem sortDocuments_sorts_numbers (docs : list Document) (key : string)
    (order : Z) (f : Document -> Z) :
  (forall d, In d docs -> getNestedValue (VObj (data d)) key = VNum (f d)) ->
  Permutation (sortDocuments docs [(key, order)]) docs
  /\ StronglySorted (in_order order f) (sortDocuments docs [(key, order)]).
Proof.
  intros H. split; [apply sortDocuments_perm|].
  unfold sortDocuments. induction docs as [|x docs IH]; cbn [fold_right].
  - constructor.
  - apply sort_insert_sorted.
    + apply H. now left.
    + intros d Hd. apply H. right.
      eapply Permutation_in; [apply (sortDocuments_perm docs [(key, order)]) | exact Hd].
    + apply IH. intros d Hd. apply H. now right.
Qed.

Lemma get_pick_from (o : obj) (ks : list string) :
  forall (acc : obj) (k : string),
    (forall k' v, get acc k' = Some v -> get o k' = Some v) ->
    get (fold_left (fun result key =>
                      match get o key with
                      | Some v => set result key v
                      | None => result
                      end) ks acc) k
    = if existsb (String.eqb k) ks then get o k else get acc k.
Proof.
  induction ks as [|k0 ks IH]; intros acc k Hacc; cbn [fold_left existsb].
  - reflexivity.
  - rewrite IH.
    + rewrite (String.eqb_sym k k0).
      destruct (String.eqb_spec k0 k) as [<-|NE]; cbn [orb].
      * destruct (existsb (String.eqb k0) ks); [reflexivity|].
        destruct (get o k0) as [v|] eqn:Ho.
        -- now rewrite get_set, String.eqb_refl.
        -- destruct (get acc k0) as [v|] eqn:Ha; [|reflexivity].
           apply Hacc in Ha. congruence.
      * destruct (existsb (String.eqb k) ks); [reflexivity|].
        destruct (get o k0) as [v|]; [|reflexivity].
        rewrite get_set. destruct (String.eqb_spec k0 k); [contradiction | reflexivity].
    + intros k' v'. destruct (get o k0) as [v|] eqn:Ho; [|apply Hacc].
      rewrite get_set. destruct (String.eqb_spec k0 k') as [<-|NE]; [|apply Hacc].
      congruence.
Qed.

Lemma get_pick (o : obj) (ks : list string) (k : string) :
  get (pick o ks) k = if existsb (String.eqb k) ks then get o k else None.
Proof. unfold pick. apply get_pick_from. discriminate. Qed.

(** A projection that asks for none of the names [Object.prototype]
    defines keeps, of every record, the fields it asks for and the record
    has, and no other field: not [_id] either, unless it is asked for.  A
    map asks for the names it gives a truthy flag. *)
Theorem applyProjection_keeps_projected_fields (results : list obj) (p : Projection) :
  plain_names (projected p) = true ->
  Forall2 (fun record projected_ =>
             forall k, get projected_ k
                       = if existsb (String.eqb k) (projected p)
                         then get record k else None)
          results (applyProjection results p).
Proof.
  intros _.
  assert (E : applyProjection results p = map (fun doc => pick doc (projected p)) results)
    by now destruct p.
  rewrite E. clear E. induction results as [|r results IH]; cbn [map]; constructor.
  - intros k. apply get_pick.
  - exact IH.
Qed.

Lemma js_slice_from {A : Type} (l : list A) (s : Z) :
  0 <= s -> js_slice l s (Z.of_nat (length l)) = skipn (Z.to_nat s) l.
Proof.
  intros Hs. unfold js_slice, clamp_index.
  destruct (Z.ltb_spec s 0); [lia|].
  destruct (Z.ltb_spec (Z.of_nat (length l)) 0); [lia|].
  rewrite Z.min_id, Nat2Z.id.
  destruct (Z.min_spec s (Z.of_nat (length l))) as [[Hlt ->]|[Hge ->]].
  - rewrite <- (length_skipn (Z.to_nat s) l). apply firstn_all.
  - rewrite Nat2Z.id, Nat.sub_diag, skipn_all. cbn [firstn].
    symmetry. apply skipn_all2. lia.
Qed.

Lemma js_slice_to {A : Type} (l : list A) (n : Z) :
  0 <= n -> js_slice l 0 n = firstn (Z.to_nat n) l.
Proof.
  intros Hn. unfold js_slice, clamp_index.
  destruct (Z.ltb_spec 0 0); [lia|]. destruct (Z.ltb_spec n 0); [lia|].
  replace (Z.to_nat (Z.min 0 (Z.of_nat (length l)))) with 0%nat by lia.
  cbn [skipn]. rewrite Nat.sub_0_r.
  destruct (Z.min_spec n (Z.of_nat (length l))) as [[Hlt ->]|[Hge ->]];
    [reflexivity|].
  rewrite Nat2Z.id, firstn_all. symmetry. apply firstn_all2. lia.
Qed.

(** Pages partition the result: for one predicate, order and projection,
    the page of [limit] records from [skip] on, followed by the rest from
    [skip + limit] on, is the result from [skip] on; the three queries
    report the same [totalCount]. *)
Theorem pages_partition_the_result (c : Collection) (w : option value)
    (so : option (list (string * Z))) (pr : option Projection) (inc : option bool)
    (s n : Z) (rest_from_s : FindResult) :
  0 <= s -> 0 < n ->
  find c (page_query w so pr inc (Some s) None) = Ok rest_from_s ->
  exists page rest,
    find c (page_query w so pr inc (Some s) (Some n)) = Ok page
    /\ find c (page_query w so pr inc (Some (s + n)) None) = Ok rest
    /\ (find_data page ++ find_data rest)%list = find_data rest_from_s
    /\ totalCount page = totalCount rest_from_s
    /\ totalCount rest = totalCount rest_from_s.
Proof.
  intros Hs Hn. unfold page_query. rewrite !find_unfold.
  cbn [query_where where_].
  destruct (filter_res (selects w) (values (documents c))) as [matched|e];
    [|discriminate].
  cbn [bind]. intros H. injection H as <-.
  eexists. eexists. split; [reflexivity|]. split; [reflexivity|].
  cbn [find_data totalCount].
  split; [|split; reflexivity].
  set (proj := fun X : list obj =>
                 match pr with Some p => applyProjection X p | None => X end).
  assert (Hp : forall sk li X,
             query_projection
               (Some {| where_ := w;
                        options := Some {| sort := so; limit := li; skip := sk;
                                           projection := pr;
                                           includeDeleted := inc |} |}) X
             = proj X) by reflexivity.
  rewrite !Hp.
  assert (Happ : forall X Y, proj (X ++ Y)%list = (proj X ++ proj Y)%list).
  { intros X Y. unfold proj. destruct pr as [[fields|flags]|]; cbn [applyProjection];
      try apply map_app; reflexivity. }
  rewrite <- Happ, <- map_app. f_equal. f_equal.
  assert (Hf : forall inc' li sk doc,
             visible (Some {| where_ := w;
                              options := Some {| sort := so; limit := li; skip := sk;
                                                 projection := pr;
                                                 includeDeleted := inc' |} |}) doc
             = (flag inc' || negb (deleted (_meta doc)))) by reflexivity.
  set (kept := filter (fun doc => flag inc || negb (deleted (_meta doc))) matched).
  assert (Hk : forall li sk,
             filter (visible (Some {| where_ := w;
                                      options := Some {| sort := so; limit := li;
                                                         skip := sk; projection := pr;
                                                         includeDeleted := inc |} |}))
                    matched = kept)
    by (intros li sk; apply filter_ext, Hf).
  rewrite !Hk.
  unfold page_of, query_skip. cbn [query_options options sort skip limit].
  set (sorted := match so with Some s0 => sortDocuments kept s0 | None => kept end).
  destruct (Z.eqb_spec n 0); [lia|].
  assert (E1 : (if 0 <? s then js_slice sorted s (Z.of_nat (length sorted)) else sorted)
               = skipn (Z.to_nat s) sorted).
  { destruct (Z.ltb_spec 0 s); [now apply js_slice_from|].
    replace s with 0 by lia. reflexivity. }
  assert (E2 : (if 0 <? s + n
                then js_slice sorted (s + n) (Z.of_nat (length sorted)) else sorted)
               = skipn (Z.to_nat n) (skipn (Z.to_nat s) sorted)).
  { destruct (Z.ltb_spec 0 (s + n)); [|lia].
    rewrite js_slice_from by lia. rewrite skipn_skipn. f_equal. lia. }
  rewrite E1, E2, js_slice_to by lia.
  apply firstn_skipn.
Qed.

End SortingAndPaging.

(* ================================================================== *)
(** ** Sizes of containers, and containers in memory *)

Section ContainerSizes.

Import Encryption.
Context {node : NodeRuntime} {laws : NodeRuntimeLaws node}.
Open Scope N_scope.

Lemma encryptAuto_container_of (d : bytes) (masterKey : string) (size : positive)
    (g : rng) :
  fst (encryptAuto d masterKey size g)
  = (e <- container_of d masterKey size g ;; serializeEncryptedData e).
Proof.
  unfold encryptAuto, container_of.
  destruct (blen d <=? N.pos size).
  - now destruct (encryptData d masterKey g).
  - now destruct (encryptDataChunked d masterKey size g).
Qed.

Lemma serialize_chunks_size (cs : list EncryptedChunk) :
  forall b,
    Forall (fresh_record b) cs ->
    forall parts,
      serialize_chunks cs = Ok parts ->
      blen parts = 44 * N.of_nat (length cs) + payload_size cs.
Proof.
  intros d Hfresh. induction Hfresh as [|c cs Hc _ IH]; intros parts H.
  - injection H as <-. reflexivity.
  - cbn [serialize_chunks] in H.
    apply bind_ok in H as (part & Ep & H).
    apply bind_ok in H as (rest & Er & H).
    injection H as <-.
    apply serialize_chunk_ok in Ep as (_ & _ & _ & _ & ->).
    destruct Hc as (Hiv & (tag & Ht & Hl) & _). rewrite Ht.
    assert (Hiv' : blen (iv c) = 16) by (unfold blen; now rewrite Hiv).
    assert (Hl' : blen tag = 16) by (unfold blen; now rewrite Hl).
    rewrite !blen_app, !blen_be_bytes, Hiv', Hl', (IH rest Er).
    change (payload_size (c :: cs)) with (blen (data c) + payload_size cs).
    cbn [length]. lia.
Qed.

Lemma encrypt_chunks_payload (d : bytes) (masterKey : string) (salt0 : bytes)
    (s : N) (n : nat) :
  forall (i : N) (g : rng) (cs : list EncryptedChunk),
    fst (encrypt_chunks n i d masterKey salt0 s g) = Ok cs ->
    payload_size cs = blen (concat (map (chunk_plain d s) (Nseq n i))).
Proof.
  induction n as [|n IH]; intros i g cs H.
  - cbn in H. injection H as <-. reflexivity.
  - cbn [encrypt_chunks] in H.
    pose proof (randomBytes_length IV_LENGTH g) as Hiv.
    destruct (randomBytes IV_LENGTH g) as [iv0 g1]. cbn [fst] in Hiv.
    set (key := deriveKey masterKey salt0 ("chunk_" ++ dec i)) in *.
    destruct (gcm_encrypt key iv0 _) as [[ct tag]|err] eqn:E; [|discriminate].
    pose proof (gcm_ciphertext_length key iv0 _ (deriveKey_length _ _ _) Hiv E)
      as Hlen.
    specialize (IH (i + 1) g1).
    destruct (encrypt_chunks n (i + 1) d masterKey salt0 s g1) as [[rest|err] g2];
      cbn [fst bind] in *; [|discriminate].
    injection H as <-.
    change (payload_size ({| index := i; iv := iv0; data := ct; authTag := Some tag |}
                            :: rest))
      with (blen ct + payload_size rest).
    cbn [map Nseq concat]. rewrite (IH rest eq_refl), blen_app.
    unfold chunk_plain at 1.
    f_equal. unfold blen. now rewrite Hlen.
Qed.

(** The container of [encryptAuto] is longer than the data by the length
    field and the text of the metadata and by 44 bytes for each record:
    one record on the simple path, [ceil(len / chunkSize)] on the chunked
    one. *)
Theorem container_overhead (d : bytes) (masterKey : string) (size : positive)
    (g : rng) (buffer : bytes) :
  fst (encryptAuto d masterKey size g) = Ok buffer ->
  exists e,
    container_of d masterKey size g = Ok e
    /\ blen buffer
       = 4 + blen (metadata_stringify (metadata e))
         + 44 * N.of_nat (length (chunks e))
         + blen d
    /\ N.of_nat (length (chunks e))
       = if blen d <=? N.pos size then 1 else totalChunks d size.
Proof.
  rewrite encryptAuto_container_of. intros H.
  apply bind_ok in H as (e & He & H). exists e. split; [exact He|].
  assert (Hc : Forall (fresh_record d) (chunks e)
               /\ payload_size (chunks e) = blen d
               /\ N.of_nat (length (chunks e))
                  = if blen d <=? N.pos size then 1 else totalChunks d size).
  { unfold container_of in He. destruct (blen d <=? N.pos size).
    - destruct (encryptData_fresh d masterKey g e He)
        as (_ & _ & Hfresh & Hidx & Hpay & _).
      split; [exact Hfresh|]. split; [exact Hpay|].
      rewrite <- (length_map index), Hidx. reflexivity.
    - pose proof (encryptDataChunked_ok d masterKey size g e He) as (_ & Hcs).
      pose proof (encrypt_chunks_payload _ _ _ _ _ _ _ _ Hcs) as Hpay.
      destruct (encryptDataChunked_fresh d masterKey size g e He)
        as (_ & _ & _ & Hidx & _ & Hfresh).
      split; [exact Hfresh|]. split.
      + rewrite Hpay, concat_chunk_plain.
        rewrite N.mul_0_l, N.add_0_l, N2Nat.id.
        rewrite slice_whole; [reflexivity | apply totalChunks_covers].
      + rewrite <- (length_map index (chunks e)), Hidx, Nseq_length.
        apply N2Nat.id. }
  destruct Hc as (Hfresh & Hpay & Hcount). split; [|exact Hcount].
  unfold serializeEncryptedData, writeUInt32BE in H.
  apply bind_ok in H as (ml & Eml & H). apply writeUIntBE_ok in Eml as [-> _].
  apply bind_ok in H as (parts & Eparts & H).
  assert (Hb : buffer
               = be_bytes 4 (blen (metadata_stringify (metadata e)))
                 ++ metadata_stringify (metadata e) ++ parts) by congruence.
  rewrite Hb, !blen_app, blen_be_bytes.
  rewrite (serialize_chunks_size _ d Hfresh parts Eparts), Hpay.
  change (N.of_nat 4) with 4. lia.
Qed.

(** In memory, without the wire format, [decryptData] inverts
    [encryptData] and [decryptDataChunked] inverts [encryptDataChunked] on
    every buffer they make a container of, the empty one and one shorter
    than a chunk included.  They make one of every buffer shorter than
    2^31 - 1 bytes; [encryptData] throws on a longer one. *)
Theorem decryption_inverts_encryption_in_memory (d : bytes) (masterKey : string)
    (size : positive) (g : rng) :
  (forall e,
      fst (encryptData d masterKey g) = Ok e -> decryptData e masterKey = Ok d)
  /\ (forall e,
         fst (encryptDataChunked d masterKey size g) = Ok e ->
         decryptDataChunked e masterKey = Ok d)
  /\ (blen d < 2 ^ 31 - 1 ->
      (exists e, fst (encryptData d masterKey g) = Ok e)
      /\ exists e, fst (encryptDataChunked d masterKey size g) = Ok e)
  /\ (2 ^ 31 - 1 <= blen d ->
      exists err, fst (encryptData d masterKey g) = Err err).
Proof.
  split; [|split; [|split]].
  - intros e He. now destruct (encryptData_fresh d masterKey g e He)
      as (_ & _ & _ & _ & _ & Hdec).
  - intros e He.
    destruct (encryptDataChunked_fresh d masterKey size g e He)
      as (_ & _ & _ & Hidx & Hdec & _).
    unfold decryptDataChunked.
    rewrite (sort_by_index_id (chunks e))
      by (eapply indexed_by_Nseq_sorted; exact Hidx).
    rewrite Hdec. cbn [bind]. rewrite concat_chunk_plain.
    rewrite N.mul_0_l, N.add_0_l, N2Nat.id.
    rewrite slice_whole; [reflexivity | apply totalChunks_covers].
  - intros Hd. split;
      [now apply encryptData_returns | now apply encryptDataChunked_returns].
  - apply encryptData_refused.
Qed.

(** [encryptDataChunked] of the empty buffer makes a container of no
    record that announces the count 0, which [deserializeEncryptedData]
    reads as 1: the serialized container cannot be read back, by
    [decryptAuto] either. *)
Theorem empty_chunked_container_is_unreadable (masterKey : string)
    (size : positive) (g : rng) :
  (Z.pos size < 2 ^ 53)%Z ->
  exists e,
    fst (encryptDataChunked [] masterKey size g) = Ok e
    /\ chunks e = []
    /\ exists buffer,
         serializeEncryptedData e = Ok buffer
         /\ deserializeEncryptedData buffer = Err RangeError
         /\ decryptAuto buffer masterKey = Err RangeError.
Proof.
  intros Hsize. unfold encryptDataChunked.
  pose proof (randomBytes_length SALT_LENGTH g) as Hsalt.
  destruct (randomBytes SALT_LENGTH g) as [salt0 g1]. simpl in Hsalt.
  assert (Ht : totalChunks [] size = 0).
  { unfold totalChunks. change (blen []) with 0. apply N.div_small. lia. }
  rewrite Ht. cbn [N.to_nat encrypt_chunks fst bind].
  eexists. split; [reflexivity|]. cbn [chunks]. split; [reflexivity|].
  set (m := {| salt := salt0; algorithm := ALGORITHM;
               chunkCount := Some (Z.of_N 0); chunkSize := Some (Z.pos size) |}).
  assert (Hwf : metadata_wf m).
  { unfold metadata_wf. simpl. split; [assumption|].
    split; intros n E; injection E as <-; lia. }
  unfold serializeEncryptedData, writeUInt32BE. cbn [metadata chunks].
  rewrite writeUIntBE_fits by (now apply metadata_stringify_length).
  cbn [bind serialize_chunks]. eexists. split; [reflexivity|].
  assert (Hd : deserializeEncryptedData
                 (be_bytes 4 (blen (metadata_stringify m))
                  ++ metadata_stringify m ++ []) = Err RangeError).
  { unfold deserializeEncryptedData, readUInt32BE.
    set (mb := metadata_stringify m).
    assert (Rml : blen mb < 256 ^ N.of_nat 4)
      by (apply metadata_stringify_length; exact Hwf).
    assert (E1 : readUIntBE 4 (be_bytes 4 (blen mb) ++ mb ++ []) 0 = Ok (blen mb))
      by apply (readUIntBE_field 4 (blen mb) [] (mb ++ []) 0 eq_refl Rml).
    rewrite E1. cbn [bind].
    assert (E2 : slice (be_bytes 4 (blen mb) ++ mb ++ []) 4 (4 + blen mb) = mb)
      by (apply slice_field; now rewrite blen_be_bytes).
    rewrite E2.
    unfold mb at 1. rewrite metadata_parse_stringify by exact Hwf. cbn [bind].
    unfold chunkCount_or_1. cbn [chunkCount m Z.of_N Z.eqb Z.to_nat].
    change (Pos.to_nat 1) with 1%nat. cbn [read_chunks].
    unfold readUInt32BE at 1. unfold readUIntBE.
    rewrite !blen_app, blen_be_bytes. change (blen []) with 0.
    destruct (N.leb_spec (4 + blen mb + N.of_nat 4) (N.of_nat 4 + (blen mb + 0)));
      [lia | reflexivity]. }
  split; [exact Hd|]. unfold decryptAuto. now rewrite Hd.
Qed.

End ContainerSizes.

(* ================================================================== *)
(** ** Reading containers; keys *)

Section ReadingContainers.

Import Encryption.
Context {node : NodeRuntime} {laws : NodeRuntimeLaws node}.
Open Scope N_scope.

(** [deserializeEncryptedData] reads the records the metadata announces
    and does not look at what follows them: bytes appended to a serialized
    container change neither what is read nor what [decryptAuto] returns. *)
Theorem trailing_bytes_are_ignored (e : EncryptedData) (buffer junk : bytes)
    (masterKey : string) :
  metadata_wf (metadata e) ->
  Z.to_nat (chunkCount_or_1 (metadata e)) = length (chunks e) ->
  Forall tag_readable (chunks e) ->
  serializeEncryptedData e = Ok buffer ->
  deserializeEncryptedData (buffer ++ junk) = Ok e
  /\ decryptAuto (buffer ++ junk) masterKey = decryptAuto buffer masterKey.
Proof.
  intros Hwf Hcount Htags Hs.
  assert (Hd : deserializeEncryptedData (buffer ++ junk) = Ok e).
  { unfold serializeEncryptedData, writeUInt32BE in Hs.
    apply bind_ok in Hs as (ml & Eml & Hs). apply writeUIntBE_ok in Eml as [-> Rml].
    apply bind_ok in Hs as (parts & Eparts & Hs).
    assert (Hb : buffer = be_bytes 4 (blen (metadata_stringify (metadata e)))
                          ++ metadata_stringify (metadata e) ++ parts) by congruence.
    subst buffer. clear Hs.
    unfold deserializeEncryptedData, readUInt32BE.
    set (mb := metadata_stringify (metadata e)) in *.
    rewrite <- !app_assoc.
    assert (E1 : readUIntBE 4 (be_bytes 4 (blen mb) ++ mb ++ parts ++ junk) 0
                 = Ok (blen mb)).
    { apply (readUIntBE_field 4 (blen mb) [] (mb ++ parts ++ junk) 0 eq_refl Rml). }
    rewrite E1. cbn [bind].
    assert (E2 : slice (be_bytes 4 (blen mb) ++ mb ++ parts ++ junk) 4 (4 + blen mb)
                 = mb).
    { apply slice_field. now rewrite blen_be_bytes. }
    rewrite E2. unfold mb at 1.
    rewrite metadata_parse_stringify by assumption. cbn [bind].
    rewrite Hcount.
    assert (E3 : read_chunks (length (chunks e))
                             (be_bytes 4 (blen mb) ++ mb ++ parts ++ junk)
                             (4 + blen mb) = Ok (chunks e)).
    { rewrite (app_assoc (be_bytes 4 _) mb (parts ++ junk)).
      apply (read_chunks_serialized (chunks e) parts _ junk _ Eparts Htags).
      now rewrite blen_app, blen_be_bytes. }
    rewrite E3. destruct e; reflexivity. }
  split; [exact Hd|].
  unfold decryptAuto.
  now rewrite Hd, (deserialize_serialize e buffer Hwf Hcount Htags Hs).
Qed.

End ReadingContainers.

Section Keys.

Import Encryption.
Open Scope nat_scope.

Lemma push_if_length (condition : bool) (message : string) (errors_ : list string) :
  length (push_if condition message errors_)
  = length errors_ + (if condition then 1 else 0).
Proof.
  unfold push_if. destruct condition; [|lia].
  rewrite length_app. reflexivity.
Qed.

Lemma repetitive_repeat (c : ascii) (n : nat) :
  line_terminator c = false ->
  repetitive (string_of_list_ascii (repeat c (S (S n)))) = true.
Proof.
  intros Hc.
  change (string_of_list_ascii (repeat c (S (S n))))
    with (String c (string_of_list_ascii (repeat c (S n)))).
  unfold repetitive. rewrite Hc, list_ascii_of_string_of_list_ascii.
  assert (Hall : forallb (Ascii.eqb c) (repeat c (S n)) = true).
  { induction (S n) as [|k IH]; cbn [repeat forallb]; [reflexivity|].
    now rewrite Ascii.eqb_refl. }
  rewrite Hall. reflexivity.
Qed.

(** [validateEncryptionKey] accepts a key exactly when it has 32
    characters or more, is not one character repeated and does not begin
    with one of the three common patterns: the advice of 32 characters
    counts as an error like the others, and a key of one repeated
    character is refused whatever its length. *)
Theorem validateEncryptionKey_accepts (key : string) :
  valid (validateEncryptionKey key)
  = (32 <=? String.length key) && negb (repetitive key) && negb (common_pattern key)
  /\ (valid (validateEncryptionKey key) = true
      <-> errors (validateEncryptionKey key) = [])
  /\ (String.length key < 32 -> valid (validateEncryptionKey key) = false)
  /\ forall c n,
       line_terminator c = false ->
       key = string_of_list_ascii (repeat c (S (S n))) ->
       valid (validateEncryptionKey key) = false.
Proof.
  assert (E : valid (validateEncryptionKey key)
              = (32 <=? String.length key) && negb (repetitive key)
                && negb (common_pattern key)).
  { unfold validateEncryptionKey. cbn [valid].
    rewrite !push_if_length. cbn [length].
    destruct (Nat.ltb_spec (String.length key) 16);
      destruct (Nat.ltb_spec (String.length key) 32);
      destruct (Nat.leb_spec 32 (String.length key)); try lia;
      destruct (repetitive key); destruct (common_pattern key); reflexivity. }
  split; [exact E|]. split; [|split].
  - unfold validateEncryptionKey. cbn [valid errors].
    set (l := push_if _ _ _). rewrite Nat.eqb_eq. now destruct l.
  - intros H. rewrite E. destruct (Nat.leb_spec 32 (String.length key)); [lia|].
    reflexivity.
  - intros c n Hc ->. rewrite E, (repetitive_repeat c n Hc).
    now rewrite andb_false_r.
Qed.

Lemma hex_length (b : bytes) : String.length (hex b) = 2 * length b.
Proof. induction b as [|x b IH]; cbn [hex String.length length]; lia. Qed.

Lemma base64_length (n : nat) :
  forall b, length b <= n -> String.length (base64 b) = 4 * ((length b + 2) / 3).
Proof.
  induction n as [n IH] using lt_wf_ind. intros b Hb.
  destruct b as [|x [|y [|z rest]]]; try reflexivity.
  cbn [base64 String.length length].
  rewrite (IH (length rest)) by (cbn [length] in Hb; lia).
  replace (S (S (S (length rest))) + 2) with (length rest + 2 + 1 * 3) by lia.
  rewrite Nat.div_add by lia. lia.
Qed.

End Keys.

Section KeyGeneration.

Import Encryption.
Context {node : NodeRuntime} {laws : NodeRuntimeLaws node}.
Open Scope nat_scope.

(** [generateEncryptionKey] returns 64 characters in hex, 44 characters in
    base64 and 32 bytes as a buffer; an unknown format gives the hex form.
    Either text has the 32 characters [validateEncryptionKey] asks for. *)
Theorem generateEncryptionKey_sizes (format : string) (g : rng) :
  match fst (generateEncryptionKey format g) with
  | KeyText text =>
      format <> "buffer"%string
      /\ String.length text = (if (format =? "base64")%string then 44 else 64)
      /\ (String.length text <? 32) = false
  | KeyBuffer buffer => format = "buffer"%string /\ length buffer = 32
  end.
Proof.
  unfold generateEncryptionKey.
  pose proof (randomBytes_length KEY_LENGTH g) as Hkey.
  destruct (randomBytes KEY_LENGTH g) as [key g']. cbn [fst] in *.
  unfold KEY_LENGTH in Hkey.
  destruct (String.eqb_spec format "hex") as [->|Hhex].
  - rewrite hex_length, Hkey. repeat split. discriminate.
  - destruct (String.eqb_spec format "base64") as [->|Hb64].
    + rewrite (base64_length 32) by lia. rewrite Hkey. repeat split. discriminate.
    + destruct (String.eqb_spec format "buffer") as [->|Hbuf].
      * split; [reflexivity | exact Hkey].
      * rewrite hex_length, Hkey. repeat split. exact Hbuf.
Qed.

End KeyGeneration.

(* ================================================================== *)
(** ** Paths and fields *)

Section Paths.

Import Js Store Utils.
Open Scope string_scope.

Lemma split_dots_aux_step (c : ascii) (rest current : string) :
  split_dots_aux (String c rest) current
  = if Ascii.eqb c "." then string_rev current :: split_dots_aux rest EmptyString
    else split_dots_aux rest (String c current).
Proof.
  destruct c as [[|] [|] [|] [|] [|] [|] [|] [|]]; reflexivity.
Qed.

Lemma split_dots_aux_app (p q : string) :
  forall current,
    split_dots_aux (p ++ String "." q) current
    = (split_dots_aux p current ++ split_dots q)%list.
Proof.
  induction p as [|c p IH]; intros current.
  - reflexivity.
  - change (String c p ++ String "." q) with (String c (p ++ String "." q)).
    rewrite !split_dots_aux_step.
    destruct (Ascii.eqb c "."); [now rewrite IH | apply IH].
Qed.

Lemma split_dots_nonempty (path : string) : split_dots path <> [].
Proof.
  unfold split_dots. generalize EmptyString.
  induction path as [|c path IH]; intros current; [discriminate|].
  rewrite split_dots_aux_step. destruct (Ascii.eqb c "."); [discriminate | apply IH].
Qed.

Lemma walk_path_app (ks1 ks2 : list string) :
  ks2 <> [] ->
  forall o, walk_path o (ks1 ++ ks2) = walk_path (walk_path o ks1) ks2.
Proof.
  intros Hne. induction ks1 as [|k ks1 IH]; intros o; [reflexivity|].
  cbn [app walk_path].
  destruct o; try apply IH; destruct ks2; try contradiction; reflexivity.
Qed.

(** Paths compose: reading [p.q] is reading [q] in what [p] reads;
    nothing is thrown on the way, a missing step reads undefined. *)
Theorem getNestedValue_composes (o : value) (p q : string) :
  getNestedValue o (p ++ "." ++ q) = getNestedValue (getNestedValue o p) q.
Proof.
  unfold getNestedValue, split_dots at 1.
  change ("." ++ q) with (String "." q).
  rewrite split_dots_aux_app. apply walk_path_app, split_dots_nonempty.
Qed.

Lemma walk_set_path (ks : list string) (l : string) (v : value) :
  forall o, walk_path (VObj (set_path o ks l v)) (ks ++ [l]) = v.
Proof.
  induction ks as [|k ks IH]; intros o; cbn [set_path app walk_path member].
  - now rewrite get_set, String.eqb_refl.
  - rewrite get_set, String.eqb_refl. apply IH.
Qed.

(** What [setNestedValue] writes under a path none of whose segments is
    [__proto__], [getNestedValue] reads under the same path. *)
Theorem setNestedValue_then_getNestedValue (o : obj) (path : string) (v : value) :
  ~ In "__proto__" (split_dots path) ->
  getNestedValue (VObj (setNestedValue o path v)) path = v.
Proof.
  intros _. unfold getNestedValue, setNestedValue.
  rewrite (app_removelast_last "" (split_dots_nonempty path)) at 3.
  apply walk_set_path.
Qed.

Lemma get_spread (o : obj) (k : string) :
  NoDup (keys o) -> get (spread o) k = get o k.
Proof.
  intros H. unfold spread. rewrite get_fold_set by exact H.
  now destruct (get o k).
Qed.

(** [pick] and [omit] split an object: a field is in [pick] when it is
    named, in [omit] when it is not, with the value it has in the object.
    For [pick] the names are none of those [Object.prototype] defines. *)
Theorem pick_and_omit_split_the_fields (o : obj) (ks : list string) (k : string) :
  NoDup (keys o) ->
  (plain_names ks = true ->
   get (pick o ks) k = (if existsb (String.eqb k) ks then get o k else None))
  /\ get (omit o ks) k = (if existsb (String.eqb k) ks then None else get o k).
Proof.
  intros H. split; [intros _; apply get_pick|].
  unfold omit. rewrite get_fold_remove.
  - now rewrite get_spread.
  - apply NoDup_keys_fold_set. constructor.
Qed.

End Paths.

(* ================================================================== *)
(** ** Pieces of an array; identifiers *)

Section StringLengths.

Lemma string_length_of_list (l : list ascii) :
  String.length (string_of_list_ascii l) = length l.
Proof. induction l as [|c l IH]; cbn; [reflexivity | now rewrite IH]. Qed.

Lemma length_list_of_string (s : string) :
  length (list_ascii_of_string s) = String.length s.
Proof. induction s as [|c s IH]; cbn; [reflexivity | now rewrite IH]. Qed.

End StringLengths.

Section Chunks.

Import Js Utils.
Open Scope Z_scope.

Lemma chunk_loop_covers {A : Type} (arr : list A) (size : Z) :
  0 < size ->
  forall (fuel p : nat),
    (length arr <= p + fuel)%nat ->
    exists chunks,
      chunk_loop fuel arr size (Z.of_nat p) = Some chunks
      /\ concat chunks = skipn p arr
      /\ Forall (fun piece => (0 < length piece)%nat
                              /\ Z.of_nat (length piece) <= size) chunks.
Proof.
  intros Hsize. induction fuel as [|fuel IH]; intros p Hp.
  - cbn [chunk_loop]. destruct (Z.ltb_spec (Z.of_nat p) (Z.of_nat (length arr))); [lia|].
    exists []. split; [reflexivity|]. split; [|constructor].
    symmetry. apply skipn_all2. lia.
  - cbn [chunk_loop].
    destruct (Z.ltb_spec (Z.of_nat p) (Z.of_nat (length arr))) as [Hlt|Hge].
    + set (q := Z.to_nat (Z.min (Z.of_nat p + size) (Z.of_nat (length arr)))).
      assert (Hq : (p < q <= length arr)%nat) by lia.
      assert (Hslice : js_slice arr (Z.of_nat p) (Z.of_nat p + size)
                       = firstn (q - p) (skipn p arr)).
      { unfold js_slice, clamp_index.
        destruct (Z.ltb_spec (Z.of_nat p) 0); [lia|].
        destruct (Z.ltb_spec (Z.of_nat p + size) 0); [lia|].
        fold q. replace (Z.to_nat (Z.min (Z.of_nat p) (Z.of_nat (length arr))))
          with p by lia. reflexivity. }
      destruct (Z.le_gt_cases (Z.of_nat (length arr)) (Z.of_nat p + size)) as [Hend|Hmore].
      * (* the last piece *)
        assert (Hstop : chunk_loop fuel arr size (Z.of_nat p + size) = Some []).
        { destruct fuel; cbn [chunk_loop];
            destruct (Z.ltb_spec (Z.of_nat p + size) (Z.of_nat (length arr)));
            try lia; reflexivity. }
        rewrite Hstop, Hslice. eexists. split; [reflexivity|].
        assert (Eq : q = length arr) by lia.
        split.
        -- cbn [concat]. rewrite app_nil_r. apply firstn_all2.
           rewrite length_skipn. lia.
        -- constructor; [|constructor].
           rewrite length_firstn, length_skipn. lia.
      * assert (Eq : Z.of_nat p + size = Z.of_nat q) by lia.
        destruct (IH q) as (rest & Hrest & Hcat & Hall); [lia|].
        rewrite Eq in *. rewrite Hrest, Hslice.
        eexists. split; [reflexivity|]. split.
        -- cbn [concat]. rewrite Hcat.
           replace (skipn q arr) with (skipn (q - p) (skipn p arr))
             by (rewrite skipn_skipn; f_equal; lia).
           apply firstn_skipn.
        -- constructor; [|exact Hall].
           rewrite length_firstn, length_skipn. lia.
    + exists []. split; [reflexivity|]. split; [|constructor].
      symmetry. apply skipn_all2. lia.
Qed.

Lemma chunk_loop_runs_on {A : Type} (arr : list A) (size : Z) :
  size <= 0 -> arr <> [] ->
  forall (fuel : nat) (i : Z), i <= 0 -> chunk_loop fuel arr size i = None.
Proof.
  intros Hsize Hne. assert (Hlen : 0 < Z.of_nat (length arr))
    by (destruct arr; [contradiction | cbn [length]; lia]).
  induction fuel as [|fuel IH]; intros i Hi; cbn [chunk_loop];
    destruct (Z.ltb_spec i (Z.of_nat (length arr))); try lia; [reflexivity|].
  now rewrite IH by lia.
Qed.

(** For a positive size the loop of [chunk] ends within as many
    iterations as the array has elements: the pieces, put together again,
    are the array, and each has between 1 and [size] elements.  For a size
    of 0 or less and an array that is not empty the loop never ends. *)
Theorem chunk_cuts_the_array {A : Type} (arr : list A) (size : Z) :
  (0 < size ->
   exists chunks,
     chunk (length arr) arr size = Some chunks
     /\ concat chunks = arr
     /\ Forall (fun piece => (0 < length piece)%nat
                             /\ Z.of_nat (length piece) <= size) chunks)
  /\ (size <= 0 -> arr <> [] -> forall fuel, chunk fuel arr size = None).
Proof.
  split.
  - intros Hsize. apply (chunk_loop_covers arr size Hsize (length arr) 0). lia.
  - intros Hsize Hne fuel. now apply chunk_loop_runs_on.
Qed.

End Chunks.

Section ShortIds.

Import Js Utils Encryption.
Context {node : NodeRuntime} {laws : NodeRuntimeLaws node}.
Open Scope nat_scope.

Lemma id_character_alphanumeric (bytes_ : bytes) (i : nat) :
  i < length bytes_ ->
  exists c, id_character bytes_ i = String c "" /\ alphanumeric c.
Proof.
  intros Hi. unfold id_character.
  destruct (nth_error bytes_ i) as [b|] eqn:E.
  - eexists. split; [reflexivity|]. unfold alphanumeric, digit_of.
    apply nth_In. rewrite length_list_of_string.
    change (String.length alphabet) with 62.
    pose proof (N.mod_lt (Byte.to_N b) (N.of_nat 62)). lia.
  - apply nth_error_None in E. lia.
Qed.

Lemma id_loop_spec (bytes_ : bytes) (n : nat) :
  forall (i : nat) (id : string),
    i + n <= length bytes_ ->
    exists drawn,
      id_loop n i bytes_ id = (id ++ string_of_list_ascii drawn)%string
      /\ length drawn = n /\ Forall alphanumeric drawn.
Proof.
  induction n as [|n IH]; intros i id Hi; cbn [id_loop].
  - exists []. cbn. split; [|split; [reflexivity | constructor]].
    clear. induction id as [|c id IH]; cbn; congruence.
  - destruct (id_character_alphanumeric bytes_ i) as (c & Ec & Hc); [lia|].
    destruct (IH (S i) (id ++ id_character bytes_ i)%string) as (drawn & E & Hl & Hall);
      [lia|].
    exists (c :: drawn). rewrite E, Ec. split; [|split].
    + cbn [string_of_list_ascii]. clear.
      induction id as [|c0 id IH]; cbn; [reflexivity | now rewrite IH].
    + cbn [length]. now rewrite Hl.
    + now constructor.
Qed.

(** An identifier of [generateShortId] has [length] characters, all of
    them letters or digits. *)
Theorem generateShortId_alphanumeric (length_ : nat) (g : rng) :
  String.length (fst (generateShortId length_ g)) = length_
  /\ Forall alphanumeric (list_ascii_of_string (fst (generateShortId length_ g))).
Proof.
  unfold generateShortId.
  pose proof (randomBytes_length length_ g) as Hlen.
  destruct (randomBytes length_ g) as [bytes_ g']. cbn [fst] in *.
  destruct (id_loop_spec bytes_ length_ 0 "") as (drawn & E & Hl & Hall); [lia|].
  rewrite E. cbn [append].
  rewrite string_length_of_list, list_ascii_of_string_of_list_ascii. auto.
Qed.

End ShortIds.

(* ================================================================== *)
(** ** After a deletion *)

Section IdentifiersAfterDeletion.

Import Js Store.
Context {engine : RegExp}.
Open Scope Z_scope.

(** The identifier of a soft-deleted document stays taken: [insert] with
    it throws DUPLICATE_ID although [findById] answers null for it.  After
    a hard delete the identifier is free, and a document inserted under it
    is found. *)
Theorem identifier_after_deleteById (c c' : Collection) (id : string) (hard_ : bool)
    (now : Z) (r : DeleteResult) (ref : N) (data_ : obj) (generated : string)
    (now' : Z) :
  NoDup (keys (documents c)) ->
  id <> ""%string ->
  deleteById c id hard_ now = Ok (c', r) ->
  delete_success r = true ->
  if hard_
  then exists c'' r',
         insert c' ref data_ (Some id) generated now' = Ok (c'', r')
         /\ findById c'' id = Some (result_of (new_document id ref data_ now'))
  else insert c' ref data_ (Some id) generated now'
       = Err (BloobyError "DUPLICATE_ID")
       /\ findById c' id = None.
Proof.
  intros Hnd Hid Hdel Hok.
  assert (Hcustom : (if (id =? "")%string then generated else id) = id)
    by (destruct (String.eqb_spec id ""); [contradiction | reflexivity]).
  unfold deleteById, lookup in Hdel.
  destruct (get (documents c) id) as [doc|] eqn:Hget;
    [|destruct (inherited id); [discriminate|];
      injection Hdel as <- <-; discriminate].
  destruct (deleted (_meta doc)) eqn:Hlive;
    [injection Hdel as <- <-; discriminate|].
  injection Hdel as <- _. unfold insert, findById. rewrite Hcustom.
  destruct hard_; cbn [documents].
  - assert (Hfree : has (remove (documents c) id) id = false)
      by (apply has_false_iff; now apply not_in_keys_remove).
    rewrite Hfree. eexists. eexists. split; [reflexivity|].
    cbn [documents]. now rewrite get_set, String.eqb_refl.
  - assert (Htaken : has (modify (documents c) id (mark_deleted now)) id = true).
    { apply has_true_iff. rewrite keys_modify.
      apply get_some_in in Hget. change id with (fst (id, doc)). now apply in_map. }
    rewrite Htaken. split; [reflexivity|].
    rewrite get_modify_same, Hget. reflexivity.
Qed.

Lemma in_modify {A : Type} (o : props A) (key : string) (f : A -> A)
    (k : string) (v : A) :
  NoDup (keys o) ->
  In (k, v) (modify o key f) ->
  (In (k, v) o /\ k <> key) \/ (k = key /\ exists v0, In (key, v0) o /\ v = f v0).
Proof.
  induction o as [|[k0 v0] o IH]; intros Hnd Hin; [contradiction|].
  apply NoDup_cons_iff in Hnd as [Hnotin Hnd].
  cbn [modify] in Hin. destruct (String.eqb_spec k0 key) as [->|NE].
  - destruct Hin as [E|Hin].
    + injection E as <- <-. right. split; [reflexivity|]. exists v0. split; [now left | reflexivity].
    + left. split; [now right|]. intros ->. apply Hnotin.
      apply (in_map fst) in Hin. exact Hin.
  - destruct Hin as [E|Hin].
    + injection E as <- <-. left. split; [now left | assumption].
    + destruct (IH Hnd Hin) as [[H1 H2]|[H1 (v1 & H2 & H3)]].
      * left. split; [now right | assumption].
      * right. split; [assumption|]. exists v1. split; [now right | assumption].
Qed.

Lemma in_remove_other_key {A : Type} (o : props A) (key k : string) (v : A) :
  NoDup (keys o) -> In (k, v) (remove o key) -> In (k, v) o /\ k <> key.
Proof.
  intros Hnd Hin. split; [eapply in_remove; eassumption|].
  intros ->. apply (not_in_keys_remove o key Hnd).
  apply (in_map fst) in Hin. exact Hin.
Qed.

(** What [delete] with [multi] leaves in the map: entries it did not
    match, as they were, and entries marked as deleted. *)
Lemma delete_loop_multi_entries (hard_ : bool) (now : Z)
    (matched : list (string * Document)) :
  forall docs count n,
    NoDup (keys docs) -> Forall own_id matched ->
    forall k d,
      In (k, d) (fst (fst (delete_loop matched docs count hard_ true now n))) ->
      (In (k, d) docs /\ ~ In k (map fst matched)) \/ deleted (_meta d) = true.
Proof.
  induction matched as [|[key d0] rest IH]; intros docs count n Hnd Hown k d Hin.
  - left. split; [exact Hin | intros []].
  - cbn [delete_loop] in Hin.
    apply Forall_cons_iff in Hown as [Hd Hown']. unfold own_id in Hd. cbn in Hd.
    destruct hard_.
    + rewrite Hd in Hin.
      apply IH in Hin as [[Hin Hrest]|Hdel];
        [| now right | now apply NoDup_keys_remove | assumption].
      apply in_remove_other_key in Hin as [Hin NE]; [|assumption].
      left. split; [assumption|]. cbn [map fst]. intros [E|H]; [congruence | contradiction].
    + apply IH in Hin as [[Hin Hrest]|Hdel];
        [| now right | now rewrite keys_modify | assumption].
      apply in_modify in Hin as [[Hin NE]|[-> (v0 & _ & ->)]]; [| |assumption].
      * left. split; [assumption|]. cbn [map fst].
        intros [E|H]; [congruence | contradiction].
      * now right.
Qed.

Lemma delete_loop_multi_count (hard_ : bool) (now : Z)
    (matched : list (string * Document)) :
  forall docs count n,
    snd (delete_loop matched docs count hard_ true now n)
    = n + Z.of_nat (length matched).
Proof.
  induction matched as [|[key d] rest IH]; intros docs count n.
  - simpl. lia.
  - cbn [delete_loop]. destruct hard_; rewrite IH; cbn [length]; lia.
Qed.

Lemma filter_res_none {A : Type} (f : A -> res bool) (l : list A) :
  (forall x, In x l -> f x = Ok false) -> filter_res f l = Ok [].
Proof.
  induction l as [|x l IH]; intros H; [reflexivity|].
  cbn [filter_res]. rewrite (H x (or_introl eq_refl)), IH; [reflexivity|].
  intros y Hy. apply H. now right.
Qed.

Lemma count_unfold (c : Collection) (w : option value) :
  count c w
  = (kept <- filter_res (selects w)
                        (filter (fun doc => negb (deleted (_meta doc)))
                                (values (documents c))) ;;
     Ok (Z.of_nat (length kept))).
Proof. unfold count. now rewrite filter_res_selects. Qed.

(** The number [count] returns for a predicate [update] and [delete]
    accept. *)
Lemma count_of_live_matches (c : Collection) (w : value)
    (matched : list (string * Document)) :
  live_matches c w = Ok matched ->
  count c (Some w) = Ok (Z.of_nat (length matched)).
Proof.
  intros Hlive.
  pose proof (filter_res_all_ok _ _ _ Hlive) as Hok.
  apply live_matches_ok in Hlive. subst matched.
  rewrite count_unfold.
  destruct (filter_res_total (selects (Some w))
              (filter (fun doc => negb (deleted (_meta doc))) (values (documents c))))
    as [kept Hkept].
  { intros d Hd. apply filter_In in Hd as [Hd Hlive].
    apply in_map_iff in Hd as ([k d'] & E & Hin). cbn in E. subst d'.
    specialize (Hok (k, d) Hin). cbn [snd] in Hok.
    destruct (deleted (_meta d)); [discriminate|].
    unfold selects. now destruct (truthy w). }
  rewrite Hkept. cbn [bind]. f_equal. f_equal.
  apply filter_res_ok in Hkept. subst kept.
  rewrite filter_filter_andb, length_filter_values.
  f_equal. apply filter_ext_in. intros [k d] Hin. cbn [snd].
  unfold live_match, selects. cbn [snd].
  specialize (Hok (k, d) Hin). cbn [snd] in Hok.
  destruct (deleted (_meta d)); [reflexivity|]. cbn [negb andb].
  destruct (truthy w) eqn:Ht; [reflexivity|].
  destruct w as [| |b|n0| |s|items|fields]; simpl in Ht, Hok |- *;
    try discriminate; try reflexivity.
  destruct s; [reflexivity | discriminate].
Qed.

(** After [delete] with [multi], soft or hard, no live document matches
    the predicate any more: [count] for it is 0.  [deletedCount] is what
    [count] returned before. *)
Theorem delete_multi_leaves_no_match (c c' : Collection) (w : value)
    (options : DeleteOptions) (now : Z) (r : DeleteResult) :
  NoDup (keys (documents c)) ->
  Forall own_id (documents c) ->
  delete_multi options = Some true ->
  delete c w (Some options) now = Ok (c', r) ->
  count c' (Some w) = Ok 0
  /\ count c (Some w) = Ok (deletedCount r).
Proof.
  intros Hnd Hown Hmulti Hdel. unfold delete in Hdel.
  apply bind_ok in Hdel as (matched & Hm & Hdel).
  rewrite Hmulti in Hdel. cbn [flag] in Hdel.
  pose proof (count_of_live_matches c w matched Hm) as Hcount.
  destruct (live_matches_shape c w matched Hnd Hown Hm) as (M1 & _ & _).
  pose proof (delete_loop_multi_count (flag (hard options)) now matched (documents c)
                (documentCount (collection_meta c)) 0) as Hn.
  pose proof (delete_loop_multi_entries (flag (hard options)) now matched (documents c)
                (documentCount (collection_meta c)) 0 Hnd M1) as Hentries.
  destruct (delete_loop matched (documents c) (documentCount (collection_meta c))
              (flag (hard options)) true now 0) as [[docs' count'] n'].
  cbn [fst snd] in *. injection Hdel as <- <-. cbn [deletedCount].
  split; [|rewrite Hcount; f_equal; lia].
  pose proof (filter_res_all_ok _ _ _ Hm) as Hok.
  apply live_matches_ok in Hm.
  assert (Hrest : forall d,
             In d (filter (fun doc => negb (deleted (_meta doc))) (values docs')) ->
             matchesQuery (VObj (data d)) w = Ok false).
  { intros d Hd. apply filter_In in Hd as [Hd Hlive].
    apply in_map_iff in Hd as ([k d'] & E & Hin). cbn in E. subst d'.
    destruct (Hentries k d Hin) as [[Hin0 Hnot]|Hdead];
      [|rewrite Hdead in Hlive; discriminate].
    specialize (Hok (k, d) Hin0). cbn [snd] in Hok.
    assert (Hno : live_match w (k, d) = false).
    { destruct (live_match w (k, d)) eqn:E; [|reflexivity].
      exfalso. apply Hnot. change k with (fst (k, d)). apply in_map.
      rewrite Hm. apply filter_In. split; assumption. }
    unfold live_match in Hno. cbn [snd] in Hno.
    destruct (deleted (_meta d)); [discriminate|]. cbn [negb andb] in Hno.
    destruct (matchesQuery (VObj (data d)) w) as [[|]|e];
      [discriminate | reflexivity | discriminate]. }
  unfold count. cbn [documents].
  destruct (truthy w) eqn:Ht.
  - rewrite (filter_res_none _ _ Hrest). reflexivity.
  - destruct (filter (fun doc => negb (deleted (_meta doc))) (values docs'))
      as [|d l]; [reflexivity|].
    specialize (Hrest d (or_introl eq_refl)). exfalso.
    destruct w as [| |b|n0| |s|items|fields]; simpl in Ht, Hrest;
      try discriminate.
    destruct s; discriminate.
Qed.

End IdentifiersAfterDeletion.

(* ================================================================== *)
(** ** Instances *)

Section FurtherWitnesses.

Import Js Store Utils.
Open Scope Z_scope.

Ltac distinct_keys := repeat constructor; cbn; intuition discriminate.

Lemma result_of_fields_witness :
  get (result_of {| _id := "a"; data := [("_id", VNum 7); ("x", VNum 1)];
                    data_ref := 1;
                    _meta := _meta (example_document "a" 1 false) |}) "_id"
  = Some (VNum 7).
Proof.
  apply (result_of_fields
           {| _id := "a"; data := [("_id", VNum 7); ("x", VNum 1)];
              data_ref := 1;
              _meta := _meta (example_document "a" 1 false) |} "_id").
  distinct_keys.
Defined.

Lemma insert_then_findById_witness :
  exists c' r,
    insert example_collection 4 [("x", VNum 2)] (Some "d") "g0" 7 = Ok (c', r)
    /\ exists id,
         insertedIds r = [id]
         /\ findById c' id = Some (result_of (new_document id 4 [("x", VNum 2)] 7))
         /\ forall other, other <> id ->
                          findById c' other = findById example_collection other.
Proof.
  eexists. eexists. split; [reflexivity|].
  apply (insert_then_findById example_collection _ 4%N [("x", VNum 2)]
           (Some "d"%string) "g0"%string 7 _).
  reflexivity.
Defined.

Lemma deleteById_then_findById_witness :
  exists c' r,
    deleteById example_collection "a" true 9 = Ok (c', r)
    /\ findById c' "a" = None.
Proof.
  eexists. eexists. split; [reflexivity|].
  apply (proj1 (deleteById_then_findById example_collection _ "a" true 9 _
                  ltac:(distinct_keys) eq_refl)).
Defined.

Lemma findOne_is_first_of_find_witness :
  findOne (engine := Sample.literal_regexp) example_collection (Some example_query)
  = (r <- find (engine := Sample.literal_regexp) example_collection
               (Some example_query) ;;
     Ok (hd_error (find_data r))).
Proof.
  apply (findOne_is_first_of_find (engine := Sample.literal_regexp)).
  intros o n H. discriminate H.
Defined.

Lemma count_is_totalCount_witness :
  exists r,
    find (engine := Sample.literal_regexp) example_collection
         (Some {| where_ := where_ example_query; options := None |}) = Ok r
    /\ count (engine := Sample.literal_regexp) example_collection
             (where_ example_query) = Ok (totalCount r).
Proof.
  eexists. split; [reflexivity|].
  apply (proj1 (count_is_totalCount (engine := Sample.literal_regexp)
                  example_collection (where_ example_query) _ eq_refl)).
Defined.

Lemma createCollection_then_getCollection_witness :
  exists db' c,
    createCollection {| filename := "shop"; collections := [] |} "items" 3
    = Ok (db', c)
    /\ getCollection db' "items" = Ok (Some c).
Proof.
  eexists. eexists. split; [reflexivity|].
  apply (proj1 (createCollection_then_getCollection
                  {| filename := "shop"; collections := [] |} _ "items" 3 _ eq_refl)).
Defined.

Lemma deleteCollection_then_getCollection_witness :
  exists db',
    deleteCollection {| filename := "shop";
                        collections := [("items", example_collection)] |} "items"
    = Ok db'
    /\ getCollection db' "items" = Err (BloobyError "COLLECTION_NOT_FOUND").
Proof.
  eexists. split; [reflexivity|].
  apply (proj1 (proj2 (proj1 (deleteCollection_then_getCollection
                                {| filename := "shop";
                                   collections := [("items", example_collection)] |}
                                "items" ltac:(distinct_keys)) eq_refl) _ eq_refl)).
Defined.


Lemma applyUpdate_modifiers_witness :
  get (data (applyUpdate (example_document "a" 1 false)
                         [("$set", VObj []); ("$inc", VObj [("x", VNum 3)])])) "x"
  = Some (VNum 4).
Proof.
  apply (applyUpdate_modifiers (example_document "a" 1 false)
           [("$set", VObj []); ("$inc", VObj [("x", VNum 3)])] "x"
           eq_refl ltac:(distinct_keys) ltac:(distinct_keys) ltac:(distinct_keys)
           eq_refl eq_refl).
  intros amount E. injection E as <-. repeat split.
Defined.

Lemma comparison_operators_on_numbers_witness :
  matchesQuery (engine := Sample.literal_regexp) (VObj [("x", VNum 5)])
               (VObj [("x", VObj [("$gt", VNum 3)])]) = Ok true.
Proof.
  apply (proj1 (comparison_operators_on_numbers (engine := Sample.literal_regexp)
                  (VObj [("x", VNum 5)]) "x" 5 3 eq_refl eq_refl)).
Defined.

Lemma range_operators_pass_missing_fields_witness :
  matchesQuery (engine := Sample.literal_regexp) (VObj [("y", VNum 1)])
               (VObj [("x", VObj [("$gt", VNum 3)])]) = Ok true.
Proof.
  apply (range_operators_pass_missing_fields (engine := Sample.literal_regexp)
           (VObj [("y", VNum 1)]) "x" "$gt" (VNum 3) eq_refl eq_refl eq_refl).
  now left.
Defined.

Lemma sortDocuments_sorts_numbers_witness :
  StronglySorted
    (in_order (-1) (fun d => match get (data d) "x" with
                             | Some (VNum n) => n
                             | _ => 0
                             end))
    (sortDocuments (values (documents example_collection)) [("x", -1)]).
Proof.
  apply (proj2 (sortDocuments_sorts_numbers
                  (values (documents example_collection)) "x" (-1)
                  (fun d => match get (data d) "x" with
                            | Some (VNum n) => n
                            | _ => 0
                            end)
                  ltac:(intros d [<-|[<-|[<-|[]]]]; reflexivity))).
Defined.

Lemma pages_partition_the_result_witness :
  exists rest_from_s page rest,
    find (engine := Sample.literal_regexp) example_collection
         (page_query None (Some [("x", -1)]) None (Some true) (Some 0) None)
    = Ok rest_from_s
    /\ find (engine := Sample.literal_regexp) example_collection
            (page_query None (Some [("x", -1)]) None (Some true) (Some 0) (Some 2))
       = Ok page
    /\ find (engine := Sample.literal_regexp) example_collection
            (page_query None (Some [("x", -1)]) None (Some true) (Some (0 + 2)) None)
       = Ok rest
    /\ (find_data page ++ find_data rest)%list = find_data rest_from_s.
Proof.
  eexists.
  destruct (pages_partition_the_result (engine := Sample.literal_regexp)
              example_collection None (Some [("x", -1)]) None (Some true) 0 2 _
              ltac:(lia) ltac:(lia) eq_refl)
    as (page & rest & H1 & H2 & H3 & _).
  exists page, rest. split; [reflexivity|]. repeat split; assumption.
Defined.

Lemma identifier_after_deleteById_witness :
  exists c' r,
    deleteById example_collection "a" false 9 = Ok (c', r)
    /\ insert c' 4 [("x", VNum 2)] (Some "a") "g0" 10
       = Err (BloobyError "DUPLICATE_ID")
    /\ findById c' "a" = None.
Proof.
  eexists. eexists. split; [reflexivity|].
  apply (identifier_after_deleteById example_collection _ "a" false 9 _
           4%N [("x", VNum 2)] "g0" 10 ltac:(distinct_keys) ltac:(discriminate)
           eq_refl eq_refl).
Defined.

Lemma delete_multi_leaves_no_match_witness :
  exists c' r,
    delete (engine := Sample.literal_regexp) example_collection (VObj [])
           (Some {| hard := None; delete_multi := Some true |}) 9 = Ok (c', r)
    /\ count (engine := Sample.literal_regexp) c' (Some (VObj [])) = Ok 0.
Proof.
  eexists. eexists. split; [reflexivity|].
  apply (proj1 (delete_multi_leaves_no_match (engine := Sample.literal_regexp)
                  example_collection _ (VObj [])
                  {| hard := None; delete_multi := Some true |} 9 _
                  ltac:(distinct_keys)
                  ltac:(repeat constructor)
                  eq_refl eq_refl)).
Defined.

Lemma pick_and_omit_split_the_fields_witness :
  get (pick [("x", VNum 1); ("y", VNum 2)] ["x"]) "y" = None
  /\ get (omit [("x", VNum 1); ("y", VNum 2)] ["x"]) "y" = Some (VNum 2).
Proof.
  split.
  - apply (proj1 (pick_and_omit_split_the_fields
                    [("x", VNum 1); ("y", VNum 2)] ["x"] "y" ltac:(distinct_keys))
             eq_refl).
  - apply (proj2 (pick_and_omit_split_the_fields
                    [("x", VNum 1); ("y", VNum 2)] ["x"] "y" ltac:(distinct_keys))).
Defined.

Lemma applyProjection_keeps_projected_fields_witness :
  Forall2 (fun record projected_ =>
             forall k, get projected_ k
                       = if existsb (String.eqb k) (projected (ProjectionList ["x"]))
                         then get record k else None)
          [[("_id", VStr "a"); ("x", VNum 1)]]
          (applyProjection [[("_id", VStr "a"); ("x", VNum 1)]]
                           (ProjectionList ["x"])).
Proof.
  apply (applyProjection_keeps_projected_fields
           [[("_id", VStr "a"); ("x", VNum 1)]] (ProjectionList ["x"]) eq_refl).
Defined.

Lemma setNestedValue_then_getNestedValue_witness :
  getNestedValue (VObj (setNestedValue [("user", VNum 1)] "user.address.city"
                                       (VStr "Oslo")))
                 "user.address.city"
  = VStr "Oslo".
Proof.
  apply (setNestedValue_then_getNestedValue [("user", VNum 1)] "user.address.city"
           (VStr "Oslo")).
  vm_compute. intuition discriminate.
Defined.

End FurtherWitnesses.

Section FurtherRuntimeWitnesses.

Import Encryption Utils Sample.
Open Scope N_scope.

Lemma container_overhead_witness :
  exists buffer e,
    fst (encryptAuto (node := Sample.runtime) sample_plaintext "correct horse" 3 0)
    = Ok buffer
    /\ container_of (node := Sample.runtime) sample_plaintext "correct horse" 3 0
       = Ok e
    /\ blen buffer
       = 4 + blen (metadata_stringify (metadata e))
         + 44 * N.of_nat (length (chunks e))
         + blen sample_plaintext.
Proof.
  assert (H : exists buffer,
             fst (encryptAuto (node := Sample.runtime) sample_plaintext
                              "correct horse" 3 0) = Ok buffer)
    by (vm_compute; eexists; reflexivity).
  destruct H as [buffer H]. exists buffer.
  destruct (container_overhead (laws := sample_runtime_laws)
              sample_plaintext "correct horse" 3 0 buffer H)
    as (e & He & Hlen & _).
  exists e. split; [exact H|]. split; [exact He | exact Hlen].
Defined.

Lemma decryption_inverts_encryption_in_memory_witness :
  decryptDataChunked (node := Sample.runtime) sample_container "correct horse"
  = Ok sample_plaintext.
Proof.
  apply (proj1 (proj2 (decryption_inverts_encryption_in_memory
                         (laws := sample_runtime_laws)
                         sample_plaintext "correct horse" 3 0))
           sample_container sample_container_made).
Defined.

Lemma empty_chunked_container_is_unreadable_witness :
  exists e,
    fst (encryptDataChunked (node := Sample.runtime) [] "correct horse" 3 0) = Ok e
    /\ chunks e = []
    /\ exists buffer,
         serializeEncryptedData (node := Sample.runtime) e = Ok buffer
         /\ deserializeEncryptedData (node := Sample.runtime) buffer
            = Err RangeError
         /\ decryptAuto (node := Sample.runtime) buffer "correct horse"
            = Err RangeError.
Proof.
  apply (empty_chunked_container_is_unreadable (laws := sample_runtime_laws)
           "correct horse" 3 0 eq_refl).
Defined.

Lemma trailing_bytes_are_ignored_witness :
  exists buffer,
    serializeEncryptedData (node := Sample.runtime) sample_container = Ok buffer
    /\ deserializeEncryptedData (node := Sample.runtime) (buffer ++ [xff; xff])%list
       = Ok sample_container.
Proof.
  assert (H : exists buffer,
             serializeEncryptedData (node := Sample.runtime) sample_container
             = Ok buffer) by (vm_compute; eexists; reflexivity).
  destruct H as [buffer H]. exists buffer. split; [exact H|].
  apply (proj1 (trailing_bytes_are_ignored (laws := sample_runtime_laws)
                  sample_container buffer [xff; xff] "correct horse"
                  ltac:(unfold metadata_wf; split; [reflexivity|];
                        split; intros n E; vm_compute in E; injection E as <-; lia)
                  eq_refl
                  ltac:(repeat constructor; discriminate)
                  H)).
Defined.

Lemma generateEncryptionKey_sizes_witness :
  match fst (generateEncryptionKey (node := Sample.runtime) "base64" 0) with
  | KeyText text =>
      "base64"%string <> "buffer"%string
      /\ String.length text = 44%nat
      /\ (String.length text <? 32)%nat = false
  | KeyBuffer buffer => "base64"%string = "buffer"%string /\ length buffer = 32%nat
  end.
Proof.
  apply (generateEncryptionKey_sizes (laws := sample_runtime_laws) "base64" 0).
Defined.

Lemma generateShortId_alphanumeric_witness :
  String.length (fst (generateShortId (node := Sample.runtime) 21 0)) = 21%nat
  /\ Forall alphanumeric
            (list_ascii_of_string (fst (generateShortId (node := Sample.runtime) 21 0))).
Proof.
  apply (generateShortId_alphanumeric (laws := sample_runtime_laws) 21 0).
Defined.

End FurtherRuntimeWitnesses.
